(** * MyVector: a shallow embedding of [src/source/MyVector.h] and
      [src/source/MyIterator.h]

    The container is a class template over an element type [T_] and an
    allocator [Alloc_].  Both are interfaces here (type classes), the
    memory the container manages by hand is an explicit store of blocks
    of slots, and every member function is a computation in a small
    state-and-outcome monad: it can return, throw a C++ exception, run
    into undefined behaviour, or fail the [assert] of a debug build. *)

From stdpp Require Import base numbers option list gmap strings.

Local Open Scope N_scope.

(** ** Values of the embedding *)

(** [size_t] is a 64-bit unsigned integer: arithmetic wraps modulo [2^64]. *)
Definition PTRDIFF_MAX : N := 2 ^ 63 - 1.
Definition size_t (n : N) : N := n mod 2 ^ 64.

(** A [T_*]: null, or a position in an allocated block.  Positions are
    signed because iterators may step backwards. *)
Inductive ptr :=
  | nullptr
  | Loc (b : nat) (o : Z).

Global Instance ptr_eq_dec : EqDecision ptr.
Proof. solve_decision. Defined.

(** The exceptions that can leave a member function. *)
Inductive exn :=
  | out_of_range (what : string)
  | runtime_error (what : string)
  | bad_alloc
  | element_error.

(** How a call ends. [Undefined] is undefined behaviour, [Abort] a failed
    [assert]. *)
Inductive outcome (X : Type) :=
  | Ok (x : X)
  | Throw (e : exn)
  | Undefined
  | Abort.
Global Arguments Ok {X} x.
Global Arguments Throw {X} e.
Global Arguments Undefined {X}.
Global Arguments Abort {X}.

(** A slot of a block: raw storage, or a constructed element. *)
Inductive slot (T : Type) :=
  | Raw
  | Live (v : T).
Global Arguments Raw {T}.
Global Arguments Live {T} v.

(** ** The template parameters *)

(** What the container needs of [T_]: its size and its constructors.
    [None] is a constructor that throws.  A move constructor returns the
    new object and the state it leaves its source in. *)
Class Element (T : Type) := {
  sizeof : positive;
  default_construct : option T;
  copy_construct : T → option T;
  move_construct : T → option (T * T);
}.

(** What the container needs of [Alloc_] through [std::allocator_traits]. *)
Class Allocator (A : Type) := {
  alloc_default : A;
  alloc_eqb : A → A → bool;
  alloc_max_size : A → N;
  select_on_container_copy_construction : A → A;
  propagate_on_container_copy_assignment : bool;
  propagate_on_container_move_assignment : bool;
  propagate_on_container_swap : bool;
}.

(** The build: is [NDEBUG] defined? *)
Class Build := { NDEBUG : bool }.

(** Elements whose copy and move constructors never throw and hand over
    the value they are given. *)
Class Regular (T : Type) `{Element T} : Prop := {
  copy_construct_ok (v : T) : copy_construct v = Some v;
  move_construct_ok (v : T) : ∃ r, move_construct v = Some (v, r);
}.

(** [MyIterator<T_>]: one pointer. *)
Record MyIterator := { ptr_ : ptr }.

(** The data members of [MyVector<T_, Alloc_>]. *)
Record MyVector (A : Type) := {
  data_ : ptr;
  size_ : N;
  capacity_ : N;
  alloc_ : A;
}.
Global Arguments data_ {A} _.
Global Arguments size_ {A} _.
Global Arguments capacity_ {A} _.
Global Arguments alloc_ {A} _.

(** The memory the allocator hands out: the live blocks, the next fresh
    block, and (ghost state) the elements whose destructor has run, most
    recent last. *)
Record memory (T : Type) := {
  blocks : gmap nat (list (slot T));
  next_block : nat;
  destroyed : list T;
}.
Global Arguments blocks {T} _.
Global Arguments next_block {T} _.
Global Arguments destroyed {T} _.

(** The program state: the vector objects that exist, by address, and
    the memory. *)
Record world (T A : Type) := {
  objs : gmap nat (MyVector A);
  mem : memory T;
}.
Global Arguments objs {T A} _.
Global Arguments mem {T A} _.

Section Embedding.
Context {T : Type} `{ElementT : Element T}.
Context {A : Type} `{AllocatorA : Allocator A}.
Context `{BuildB : Build}.

Abbreviation vec := (MyVector A).
Abbreviation world := (world T A).
Abbreviation memory := (memory T).

(** ** The monad *)

Definition M (X : Type) : Type := world → outcome X * world.

Definition ret {X} (x : X) : M X := λ w, (Ok x, w).

Definition bind {X Y} (m : M X) (k : X → M Y) : M Y := λ w,
  match m w with
  | (Ok x, w') => k x w'
  | (Throw e, w') => (Throw e, w')
  | (Undefined, w') => (Undefined, w')
  | (Abort, w') => (Abort, w')
  end.

Definition throw {X} (e : exn) : M X := λ w, (Throw e, w).
Definition undefined {X} : M X := λ w, (Undefined, w).
Definition abort {X} : M X := λ w, (Abort, w).

(** [try { m } catch (...) { h }] *)
Definition catch {X} (m : M X) (h : exn → M X) : M X := λ w,
  match m w with
  | (Throw e, w') => h e w'
  | r => r
  end.

Global Instance M_ret : MRet M := @ret.
Global Instance M_bind : MBind M := λ X Y k m, bind m k.

(** [for (size_t i = lo; i < hi; ++i) body(i)], for a bound the body
    leaves alone. *)
Fixpoint for_from (i : N) (count : nat) (body : N → M unit) : M unit :=
  match count with
  | O => ret tt
  | S c => body i ;; for_from (i + 1) c body
  end.

Definition for_ (lo hi : N) (body : N → M unit) : M unit :=
  for_from lo (N.to_nat (hi - lo)) body.

(** [for (auto iter = first; iter != last; ++iter)] with a body that
    uses the element [iter] points at, over a sequence of the caller's. *)
Fixpoint for_each {X} (l : list X) (body : X → M unit) : M unit :=
  match l with
  | [] => ret tt
  | x :: l' => body x ;; for_each l' body
  end.

(** [size_t i; try { for (i = lo; i < hi; ++i) body(i) } catch (...) { h }]:
    the handler sees the index the loop had reached. *)
Fixpoint try_for_from (i : N) (count : nat) (body : N → M unit)
    (h : N → exn → M unit) : M unit :=
  match count with
  | O => ret tt
  | S c => λ w,
      match body i w with
      | (Ok _, w') => try_for_from (i + 1) c body h w'
      | (Throw e, w') => h i e w'
      | r => r
      end
  end.

Definition try_for (lo hi : N) (body : N → M unit) (h : N → exn → M unit)
    : M unit :=
  try_for_from lo (N.to_nat (hi - lo)) body h.

(** ** Memory

    The allocator and the element type are library and client code; what
    is assumed of them here:
    - [allocate] returns a fresh block, and throws only for a request
      above [max_size()] (memory is otherwise never exhausted): where a
      theorem concludes that a call which allocates returns, it speaks
      of the runs in which the memory suffices;
    - [deallocate] of a null pointer does nothing, as with
      [std::allocator];
    - [deallocate] is given an allocator that compares equal to the one
      the block was allocated with: a block does not record its
      allocator, so a caller that releases it through another one is
      not told apart;
    - [construct] needs storage in a live block, [destroy] and reads need
      a constructed element there; anything else is undefined behaviour;
    - destructors do not throw. *)

Definition lift {X} (f : memory → outcome X * memory) : M X := λ w,
  let '(r, m) := f (mem w) in (r, {| objs := objs w; mem := m |}).

Definition with_blocks (m : memory) (bs : gmap nat (list (slot T))) : memory :=
  {| blocks := bs; next_block := next_block m; destroyed := destroyed m |}.

(** The slot a pointer designates, if there is one. *)
Definition slot_at (m : memory) (p : ptr) : option (slot T) :=
  match p with
  | nullptr => None
  | Loc b o =>
      if decide (0 ≤ o)%Z then blk ← blocks m !! b; blk !! Z.to_nat o else None
  end.

Definition set_slot (m : memory) (p : ptr) (s : slot T) : memory :=
  match p with
  | nullptr => m
  | Loc b o =>
      with_blocks m (alter (λ blk, <[Z.to_nat o := s]> blk) b (blocks m))
  end.

(** [p + n]: defined inside a live block and one past its end, and for
    [nullptr + 0]. *)
Definition ptr_add (p : ptr) (n : Z) : M ptr := lift (λ m,
  match p with
  | nullptr => if decide (n = 0)%Z then (Ok nullptr, m) else (Undefined, m)
  | Loc b o =>
      match blocks m !! b with
      | Some blk =>
          if decide (0 ≤ o + n ≤ Z.of_nat (length blk))%Z
          then (Ok (Loc b (o + n)), m) else (Undefined, m)
      | None => (Undefined, m)
      end
  end).

(** Reading the element a reference designates. *)
Definition load (p : ptr) : M T := lift (λ m,
  match slot_at m p with
  | Some (Live v) => (Ok v, m)
  | _ => (Undefined, m)
  end).

(** The upper bound on the element count, as [max_size()] computes it. *)
Definition max_size_of (a : A) : N :=
  N.min (PTRDIFF_MAX / Npos sizeof) (alloc_max_size a).

(** [AllocTraits_::allocate(a, n)]: a fresh block of [n] raw slots; a
    request above the bound throws. *)
Definition allocate (a : A) (n : N) : M ptr := lift (λ m,
  if decide (n ≤ max_size_of a) then
    (Ok (Loc (next_block m) 0),
     {| blocks := <[next_block m := replicate (N.to_nat n) Raw]> (blocks m);
        next_block := S (next_block m);
        destroyed := destroyed m |})
  else (Throw bad_alloc, m)).

(** [AllocTraits_::deallocate(a, p, n)]: [p] is a block of [n] slots, or
    null. Elements still live in the block are not destroyed. *)
Definition deallocate (a : A) (p : ptr) (n : N) : M unit := lift (λ m,
  match p with
  | nullptr => (Ok tt, m)
  | Loc b o =>
      match blocks m !! b with
      | Some blk =>
          if decide (o = 0%Z ∧ N.of_nat (length blk) = n)
          then (Ok tt, with_blocks m (delete b (blocks m)))
          else (Undefined, m)
      | None => (Undefined, m)
      end
  end).

(** [AllocTraits_::construct(a, p, args...)] with the object a
    constructor of [T_] made, or its exception. *)
Definition emplace (p : ptr) (made : option T) : M unit := lift (λ m,
  match slot_at m p with
  | Some _ =>
      match made with
      | Some v => (Ok tt, set_slot m p (Live v))
      | None => (Throw element_error, m)
      end
  | None => (Undefined, m)
  end).

(** [construct(a, p)], [construct(a, p, value)] and
    [construct(a, p, std::move(value))] for a [value] of the caller. *)
Definition construct_default (a : A) (p : ptr) : M unit :=
  emplace p default_construct.
Definition construct_copy (a : A) (p : ptr) (value : T) : M unit :=
  emplace p (copy_construct value).
Definition construct_move (a : A) (p : ptr) (value : T) : M unit :=
  emplace p (fst <$> move_construct value).

(** [construct(a, p, std::move(q[0]))] for an element [q[0]] in memory:
    the source keeps the state the move constructor leaves it in. *)
Definition construct_move_from (a : A) (p q : ptr) : M unit := lift (λ m,
  match slot_at m p, slot_at m q with
  | Some _, Some (Live v) =>
      match move_construct v with
      | Some (v', r) => (Ok tt, set_slot (set_slot m q (Live r)) p (Live v'))
      | None => (Throw element_error, m)
      end
  | _, _ => (Undefined, m)
  end).

(** [AllocTraits_::destroy(a, p)]: runs the destructor of a live element. *)
Definition destroy (a : A) (p : ptr) : M unit := lift (λ m,
  match slot_at m p with
  | Some (Live v) =>
      let m' := set_slot m p Raw in
      (Ok tt, {| blocks := blocks m'; next_block := next_block m';
                 destroyed := destroyed m ++ [v] |})
  | _ => (Undefined, m)
  end).

(** ** MyIterator.h *)

(** The lvalue [*p]: [p] must point at a slot of a live block. *)
Definition deref (p : ptr) : M ptr := lift (λ m,
  match slot_at m p with
  | Some _ => (Ok p, m)
  | None => (Undefined, m)
  end).

(** [operator*], [operator->], [operator++], [operator--], [operator+],
    [operator-] with an offset, [operator-] of two iterators,
    [operator[]], [operator==] and [operator!=]. *)
Definition iter_star (it : MyIterator) : M ptr := deref (ptr_ it).
Definition iter_arrow (it : MyIterator) : ptr := ptr_ it.
Definition iter_incr (it : MyIterator) : M MyIterator :=
  p ← ptr_add (ptr_ it) 1; mret {| ptr_ := p |}.
Definition iter_decr (it : MyIterator) : M MyIterator :=
  p ← ptr_add (ptr_ it) (-1); mret {| ptr_ := p |}.
Definition iter_plus (it : MyIterator) (n : Z) : M MyIterator :=
  p ← ptr_add (ptr_ it) n; mret {| ptr_ := p |}.
Definition iter_minus (it : MyIterator) (n : Z) : M MyIterator :=
  p ← ptr_add (ptr_ it) (- n); mret {| ptr_ := p |}.
Definition iter_diff (lhs rhs : MyIterator) : M Z :=
  match ptr_ lhs, ptr_ rhs with
  | nullptr, nullptr => mret 0%Z
  | Loc b o, Loc b' o' => if decide (b = b') then mret (o - o')%Z else undefined
  | _, _ => undefined
  end.
Definition iter_index (it : MyIterator) (n : Z) : M ptr :=
  p ← ptr_add (ptr_ it) n; deref p.
Definition iter_eq (lhs rhs : MyIterator) : bool :=
  bool_decide (ptr_ lhs = ptr_ rhs).
Definition iter_ne (lhs rhs : MyIterator) : bool :=
  bool_decide (ptr_ lhs ≠ ptr_ rhs).

(** ** MyVector.h *)

(** [this->f] and the assignments to the data members. *)
Definition object (this : nat) : M vec := λ w,
  match objs w !! this with
  | Some v => (Ok v, w)
  | None => (Undefined, w)
  end.
Definition field {X} (f : vec → X) (this : nat) : M X :=
  v ← object this; mret (f v).
Definition put (this : nat) (v : vec) : M unit := λ w,
  (Ok tt, {| objs := <[this := v]> (objs w); mem := mem w |}).
Definition set_data_ (this : nat) (p : ptr) : M unit :=
  v ← object this;
  put this {| data_ := p; size_ := size_ v; capacity_ := capacity_ v;
              alloc_ := alloc_ v |}.
Definition set_size_ (this : nat) (n : N) : M unit :=
  v ← object this;
  put this {| data_ := data_ v; size_ := n; capacity_ := capacity_ v;
              alloc_ := alloc_ v |}.
Definition set_capacity_ (this : nat) (n : N) : M unit :=
  v ← object this;
  put this {| data_ := data_ v; size_ := size_ v; capacity_ := n;
              alloc_ := alloc_ v |}.
Definition set_alloc_ (this : nat) (a : A) : M unit :=
  v ← object this;
  put this {| data_ := data_ v; size_ := size_ v; capacity_ := capacity_ v;
              alloc_ := a |}.

(** [data_ + i] and [data_[i]] of an object. *)
Definition data_plus (this : nat) (i : N) : M ptr :=
  data ← field data_ this; ptr_add data (Z.of_N i).
Definition data_at (this : nat) (i : N) : M ptr :=
  p ← data_plus this i; deref p.

(** [reallocate(new_capacity)], lines 490-518. *)
Definition reallocate (this : nat) (new_capacity : N) : M unit :=
  a ← field alloc_ this;
  new_data ← allocate a new_capacity;
  size ← field size_ this;
  try_for 0 size
    (λ i,
       src ← data_at this i;
       dst ← ptr_add new_data (Z.of_N i);
       construct_move_from a dst src;;
       p ← data_plus this i;
       destroy a p)
    (λ i e,
       for_ 0 i (λ j, q ← ptr_add new_data (Z.of_N j); destroy a q);;
       deallocate a new_data new_capacity;;
       throw e);;
  data ← field data_ this;
  capacity ← field capacity_ this;
  (if decide (data ≠ nullptr) then deallocate a data capacity else mret tt);;
  set_data_ this new_data;;
  set_capacity_ this new_capacity.

(** [reserve(n)], lines 295-299. *)
Definition reserve (this : nat) (n : N) : M unit :=
  capacity ← field capacity_ this;
  if decide (n ≤ capacity) then mret tt else reallocate this n.

(** [clear()], lines 301-309. *)
Definition clear (this : nat) : M unit :=
  a ← field alloc_ this;
  size ← field size_ this;
  for_ 0 size (λ i, p ← data_plus this i; destroy a p);;
  set_size_ this 0.

(** [size()], [capacity()], [empty()], [max_size()], [get_allocator()]. *)
Definition size (this : nat) : M N := field size_ this.
Definition capacity (this : nat) : M N := field capacity_ this.
Definition empty (this : nat) : M bool :=
  size ← field size_ this; mret (bool_decide (size = 0)).
Definition max_size (this : nat) : M N :=
  a ← field alloc_ this;
  let diffmax := PTRDIFF_MAX / Npos sizeof in
  let allocmax := alloc_max_size a in
  mret (N.min diffmax allocmax).
Definition get_allocator (this : nat) : M A := field alloc_ this.

(** [begin()] and [end()], lines 197-198. *)
Definition begin (this : nat) : M MyIterator :=
  data ← field data_ this; mret {| ptr_ := data |}.
Definition end_ (this : nat) : M MyIterator :=
  size ← field size_ this;
  p ← data_plus this size; mret {| ptr_ := p |}.

(** [operator[](index)], line 215, and [at(index)], lines 226-230. *)
Definition subscript (this : nat) (index : N) : M ptr := data_at this index.
Definition at_ (this : nat) (index : N) : M ptr :=
  size ← field size_ this;
  if decide (size ≤ index) then throw (out_of_range "Index out of range")
  else data_at this index.

(** [push_back(const T_&)], lines 244-253, and [push_back(T_&&)],
    lines 255-264.  The argument is an object of the caller's, outside
    the vector's own buffer.  [grow_if_full] is the [if] statement the
    two overloads start with. *)
Definition grow_if_full (this : nat) : M unit :=
  size ← field size_ this;
  capacity ← field capacity_ this;
  if decide (capacity ≤ size)
  then reserve this (if decide (capacity ≠ 0) then size_t (capacity * 2) else 1)
  else mret tt.

Definition push_back (this : nat) (value : T) : M unit :=
  grow_if_full this;;
  a ← field alloc_ this;
  size ← field size_ this;
  p ← data_plus this size;
  construct_copy a p value;;
  set_size_ this (size_t (size + 1)).

Definition push_back_move (this : nat) (value : T) : M unit :=
  grow_if_full this;;
  a ← field alloc_ this;
  size ← field size_ this;
  p ← data_plus this size;
  construct_move a p value;;
  set_size_ this (size_t (size + 1)).

(** A call [push_back(value)] with an lvalue, or with an rvalue. *)
Definition push_back_as (rvalue : bool) (this : nat) (value : T) : M unit :=
  if rvalue then push_back_move this value else push_back this value.

(** [pop_back()], lines 266-273. *)
Definition pop_back (this : nat) : M unit :=
  size ← field size_ this;
  if decide (0 < size) then
    a ← field alloc_ this;
    e ← data_plus this size;
    p ← ptr_add e (-1);
    destroy a p;;
    set_size_ this (size - 1)
  else mret tt.

(** [resize(new_size)], lines 275-293.  Both loops run from [new_size]
    up to [size_]. *)
Definition resize (this : nat) (new_size : N) : M unit :=
  a ← field alloc_ this;
  size ← field size_ this;
  (if decide (new_size < size) then
     for_ new_size size (λ i, p ← data_plus this i; destroy a p)
   else if decide (size < new_size) then
     for_ new_size size (λ i, p ← data_plus this i; construct_default a p)
   else mret tt);;
  set_size_ this new_size.

(** [swap(other)], lines 319-330. *)
Definition swap (this other : nat) : M unit :=
  v ← object this;
  o ← object other;
  (if NDEBUG then mret tt
   else if alloc_eqb (alloc_ v) (alloc_ o) then mret tt else abort);;
  set_data_ this (data_ o);; set_data_ other (data_ v);;
  set_size_ this (size_ o);; set_size_ other (size_ v);;
  set_capacity_ this (capacity_ o);; set_capacity_ other (capacity_ v);;
  if propagate_on_container_swap
  then set_alloc_ this (alloc_ o);; set_alloc_ other (alloc_ v)
  else mret tt.

(** [shrink_to_fit()], lines 332-361. *)
Definition shrink_to_fit (this : nat) : M unit :=
  capacity ← field capacity_ this;
  size ← field size_ this;
  if decide (capacity = size) then mret tt else
  a ← field alloc_ this;
  new_data ← allocate a size;
  let new_capacity := size in
  catch
    (for_ 0 size (λ i,
       src ← data_at this i;
       dst ← ptr_add new_data (Z.of_N i);
       construct_move_from a dst src))
    (λ e, deallocate a new_data new_capacity;; throw e);;
  for_ 0 size (λ i, p ← data_plus this i; destroy a p);;
  data ← field data_ this;
  deallocate a data capacity;;
  set_data_ this new_data;;
  set_capacity_ this size.

(** [assing(n, val)], lines 373-381: [val] is a [const T_&], so
    [push_back(std::move(val))] is the copying overload.  [val] is an
    object of the caller's, outside the vector's own buffer. *)
Definition assing (this : nat) (n : N) (val : T) : M unit :=
  clear this;;
  for_ 0 n (λ _, push_back this val).

(** [assing(std::initializer_list<T_>)], lines 404-412: the elements of
    the list are [const], so they are copied as well.  (The overload on
    two [iterator]s, lines 389-397, is [assing_range] below.) *)
Definition assing_list (this : nat) (list : list T) : M unit :=
  clear this;;
  for_each list (λ x, push_back this x).

(** [front()], lines 420-425, and [back()], lines 440-445.  (The [const]
    overloads, with their [return throw], do not compile once
    instantiated.) *)
Definition front (this : nat) : M ptr :=
  empty this ≫= λ e : bool,
  if e return M ptr then
    throw (runtime_error
      "Unable to get reference to last element. Vector is empty.")
  else it ← begin this; iter_star it.
Definition back (this : nat) : M ptr :=
  empty this ≫= λ e : bool,
  if e return M ptr then
    throw (runtime_error
      "Unable to get reference to last element. Vector is empty.")
  else it ← end_ this; it' ← iter_minus it 1; iter_star it'.

(** [data()], lines 462-467. *)
Definition data (this : nat) : M ptr :=
  empty this ≫= λ e : bool,
  if e return M ptr then mret nullptr
  else it ← begin this; mret (iter_arrow it).

(** *** Construction, destruction, assignment *)

(** An object exists from its member initialisers on, unless its
    constructor throws, until its destructor has run. *)
Definition object_begin (this : nat) (v : vec) : M unit := λ w,
  match objs w !! this with
  | None => (Ok tt, {| objs := <[this := v]> (objs w); mem := mem w |})
  | Some _ => (Undefined, w)
  end.
Definition object_end (this : nat) : M unit := λ w,
  (Ok tt, {| objs := delete this (objs w); mem := mem w |}).
Definition constructing (this : nat) (v : vec) (body : M unit) : M unit :=
  object_begin this v;;
  catch body (λ e, object_end this;; throw e).

Definition member_defaults (a : A) : vec :=
  {| data_ := nullptr; size_ := 0; capacity_ := 0; alloc_ := a |}.

(** [MyVector() = default], line 39. *)
Definition MyVector_default (this : nat) : M unit :=
  constructing this (member_defaults alloc_default) (mret tt).

(** [MyVector(n, value)], lines 47-58. *)
Definition MyVector_fill (this : nat) (n : N) (value : T) : M unit :=
  constructing this (member_defaults alloc_default)
    (reserve this n;;
     a ← field alloc_ this;
     allocate a n;;
     for_ 0 n (λ i, p ← data_plus this i; construct_copy a p value);;
     set_size_ this n).

(** [MyVector(first, last)], lines 69-81, and
    [MyVector(std::initializer_list<T_>)], line 88, over a sequence of
    the caller's. *)
Definition MyVector_range (this : nat) (range : list T) : M unit :=
  constructing this (member_defaults alloc_default)
    (let count := size_t (N.of_nat (length range)) in
     reserve this count;;
     a ← field alloc_ this;
     for_ 0 count (λ i,
       match range !! N.to_nat i with
       | Some x => p ← data_plus this i; construct_copy a p x
       | None => undefined
       end);;
     set_size_ this count).

(** [MyVector(const MyVector&)], lines 110-121. *)
Definition MyVector_copy (this other : nat) : M unit :=
  o ← object other;
  constructing this
    (member_defaults (select_on_container_copy_construction (alloc_ o)))
    (reserve this (capacity_ o);;
     a ← field alloc_ this;
     other_size ← field size_ other;
     for_ 0 other_size (λ i,
       src ← data_at other i;
       x ← load src;
       p ← data_plus this i;
       construct_copy a p x);;
     other_size ← field size_ other;
     set_size_ this other_size).

(** [MyVector(MyVector&&)], lines 128-134. *)
Definition MyVector_move (this other : nat) : M unit :=
  o ← object other;
  object_begin this
    {| data_ := data_ o; size_ := size_ o; capacity_ := capacity_ o;
       alloc_ := alloc_ o |};;
  set_data_ other nullptr;;
  set_size_ other 0;;
  set_capacity_ other 0.

(** [~MyVector()], lines 93-97. *)
Definition MyVector_destroy (this : nat) : M unit :=
  clear this;;
  v ← object this;
  (if decide (data_ v ≠ nullptr)
   then deallocate (alloc_ v) (data_ v) (capacity_ v) else mret tt);;
  object_end this.

(** [operator=(const MyVector&)], lines 143-161. *)
Definition assign_copy (this other : nat) : M unit :=
  if decide (this ≠ other) then
    clear this;;
    (if propagate_on_container_copy_assignment
     then a ← field alloc_ other; set_alloc_ this a else mret tt);;
    other_capacity ← field capacity_ other;
    reserve this other_capacity;;
    a ← field alloc_ this;
    other_size ← field size_ other;
    for_ 0 other_size (λ i,
      src ← data_at other i;
      x ← load src;
      p ← data_plus this i;
      construct_copy a p x);;
    other_size ← field size_ other;
    set_size_ this other_size
  else mret tt.

(** [operator=(MyVector&&)], lines 170-192.  The last three assignments
    are to the members of [this], as in the source. *)
Definition assign_move (this other : nat) : M unit :=
  if decide (this ≠ other) then
    clear this;;
    v ← object this;
    deallocate (alloc_ v) (data_ v) (capacity_ v);;
    o ← object other;
    set_data_ this (data_ o);;
    set_size_ this (size_ o);;
    set_capacity_ this (capacity_ o);;
    (if propagate_on_container_move_assignment
     then set_alloc_ this (alloc_ o) else mret tt);;
    set_data_ this nullptr;;
    set_size_ this 0;;
    set_capacity_ this 0
  else mret tt.

(** *** Arguments that are references into a buffer *)

(** [construct(a, p, value)] for a [value] that is a reference [q] to an
    element in memory. *)
Definition construct_copy_from (a : A) (p q : ptr) : M unit := lift (λ m,
  match slot_at m p, slot_at m q with
  | Some _, Some (Live v) =>
      match copy_construct v with
      | Some v' => (Ok tt, set_slot m p (Live v'))
      | None => (Throw element_error, m)
      end
  | _, _ => (Undefined, m)
  end).

(** [push_back(const T_&)] and [push_back(T_&&)], lines 244-264, called
    with a reference to an element in memory, as in [v.push_back(v[0])]:
    the element is read when it is constructed from, after the growth. *)
Definition push_back_ref (this : nat) (value : ptr) : M unit :=
  grow_if_full this;;
  a ← field alloc_ this;
  size ← field size_ this;
  p ← data_plus this size;
  construct_copy_from a p value;;
  set_size_ this (size_t (size + 1)).

Definition push_back_move_ref (this : nat) (value : ptr) : M unit :=
  grow_if_full this;;
  a ← field alloc_ this;
  size ← field size_ this;
  p ← data_plus this size;
  construct_move_from a p value;;
  set_size_ this (size_t (size + 1)).

(** What a call of [push_back] can be given: an object of the caller's,
    outside the vector's buffer, as an lvalue or as an rvalue; or the
    lvalue [v[k]], an element of the vector itself. *)
Inductive argument :=
  | Outside (rvalue : bool) (value : T)
  | Own (k : N).

Definition push_back_with (this : nat) (arg : argument) : M unit :=
  match arg with
  | Outside rvalue value => push_back_as rvalue this value
  | Own k => r ← subscript this k; push_back_ref this r
  end.

(** [assing(iterator first, iterator last)], lines 389-397: the loop
    [for (auto iter = first; iter != last; ++iter)] moves from the element
    [iter] points at; [None] when the fuel runs out first. *)
Fixpoint assing_loop (fuel : nat) (this : nat) (iter last : MyIterator)
    : M (option unit) :=
  match fuel with
  | O => mret None
  | S fuel' =>
      if iter_ne iter last then
        r ← iter_star iter;
        push_back_move_ref this r;;
        iter' ← iter_incr iter;
        assing_loop fuel' this iter' last
      else mret (Some tt)
  end.

Definition assing_range (fuel : nat) (this : nat) (first last : MyIterator)
    : M (option unit) :=
  clear this;;
  assing_loop fuel this first last.

(** *** A caller *)

(** [for (auto it = first; it != last; ++it)] collecting the elements
    read through [it]; [None] when the fuel runs out first. *)
Fixpoint collect (fuel : nat) (it last : MyIterator) : M (option (list T)) :=
  match fuel with
  | O => mret None
  | S fuel' =>
      if iter_ne it last then
        r ← iter_star it;
        x ← load r;
        it' ← iter_incr it;
        rest ← collect fuel' it' last;
        mret (cons x <$> rest)
      else mret (Some [])
  end.

Definition traverse (fuel : nat) (this : nat) : M (option (list T)) :=
  first ← begin this;
  last ← end_ this;
  collect fuel first last.

(** Reading [v[index]]. *)
Definition read_subscript (this : nat) (index : N) : M T :=
  r ← subscript this index; load r.

(** The calls of the public interface. *)
Inductive call :=
  | New_default (this : nat)
  | New_fill (this : nat) (n : N) (value : T)
  | New_range (this : nat) (range : list T)
  | New_copy (this other : nat)
  | New_move (this other : nat)
  | Delete (this : nat)
  | Assign_copy (this other : nat)
  | Assign_move (this other : nat)
  | Push_back (this : nat) (value : T)
  | Push_back_move (this : nat) (value : T)
  | Pop_back (this : nat)
  | Resize (this : nat) (new_size : N)
  | Reserve (this : nat) (n : N)
  | Clear (this : nat)
  | Swap (this other : nat)
  | Shrink_to_fit (this : nat)
  | Assing (this : nat) (n : N) (val : T)
  | Assing_list (this : nat) (list : list T).

Definition exec (c : call) : M unit :=
  match c with
  | New_default this => MyVector_default this
  | New_fill this n value => MyVector_fill this n value
  | New_range this range => MyVector_range this range
  | New_copy this other => MyVector_copy this other
  | New_move this other => MyVector_move this other
  | Delete this => MyVector_destroy this
  | Assign_copy this other => assign_copy this other
  | Assign_move this other => assign_move this other
  | Push_back this value => push_back this value
  | Push_back_move this value => push_back_move this value
  | Pop_back this => pop_back this
  | Resize this new_size => resize this new_size
  | Reserve this n => reserve this n
  | Clear this => clear this
  | Swap this other => swap this other
  | Shrink_to_fit this => shrink_to_fit this
  | Assing this n val => assing this n val
  | Assing_list this list => assing_list this list
  end.

(** A program: calls in sequence, stopping at the first that does not
    return. *)
Definition run (cs : list call) : M unit := for_each cs exec.

(** The state a program starts in: no object, no block. *)
Definition start : world :=
  {| objs := ∅;
     mem := {| blocks := ∅; next_block := 0; destroyed := [] |} |}.

(** [push_back] of each value in turn, with an lvalue or an rvalue,
    noting [capacity()] after each. *)
Fixpoint push_back_each (this : nat) (appends : list (bool * T))
    : M (list N) :=
  match appends with
  | [] => mret []
  | rx :: rest =>
      push_back_as rx.1 this rx.2;;
      c ← capacity this;
      cs ← push_back_each this rest;
      mret (c :: cs)
  end.

(** ** What the claims speak of *)

(** The number of growth events in a history of capacities that starts
    at capacity [c]: the steps at which the capacity changes. *)
Fixpoint growth_events (c : N) (history : list N) : nat :=
  match history with
  | [] => O
  | c' :: rest =>
      ((if decide (c' = c) then 0 else 1) + growth_events c' rest)%nat
  end.

(** [size <= capacity], for every vector there is. *)
Definition size_le_capacity (w : world) : Prop :=
  ∀ this v, objs w !! this = Some v → size_ v ≤ capacity_ v.

(** The caller's side of [resize]: the capacity is already sufficient. *)
Definition within_contract (c : call) (w : world) : Prop :=
  match c with
  | Resize this new_size =>
      ∀ v, objs w !! this = Some v → new_size ≤ capacity_ v
  | _ => True
  end.

(** The states a program can be in: after any sequence of calls none of
    which had undefined behaviour; and the same for callers that keep to
    the contract of [resize]. *)
Inductive reachable : world → Prop :=
  | reachable_start : reachable start
  | reachable_call c w :
      reachable w → (exec c w).1 ≠ Undefined → reachable (exec c w).2.

Inductive reachable_within_contract : world → Prop :=
  | contract_start : reachable_within_contract start
  | contract_call c w :
      reachable_within_contract w → within_contract c w →
      (exec c w).1 ≠ Undefined → reachable_within_contract (exec c w).2.

(** The buffer of a vector with the given elements and capacity: the
    elements, live, then raw storage. *)
Definition buffer_of (elems : list T) (cap : N) : list (slot T) :=
  (Live <$> elems) ++ replicate (N.to_nat cap - length elems) Raw.

(** The capacity [push_back] leaves behind, from the size and capacity
    it finds: unchanged when there is room, else 1 or the double. *)
Definition grown (len cap : N) : N :=
  if decide (len < cap) then cap
  else if decide (cap = 0) then 1 else 2 * cap.

(** The capacities after each of [n] calls of [push_back], from the size
    and capacity the first one finds. *)
Fixpoint capacities (len cap : N) (n : nat) : list N :=
  match n with
  | O => []
  | S n' => grown len cap :: capacities (len + 1) (grown len cap) n'
  end.

(** The values a sequence of appends leaves in a vector that holds
    [elems] with capacity [cap]: the value of each argument at the time
    of its call.  There is none when an element of the vector itself is
    given to a call that finds the vector full, or does not exist. *)
Fixpoint contents (elems : list T) (cap : N) (args : list argument)
    : option (list T) :=
  match args with
  | [] => Some elems
  | Outside _ x :: rest =>
      contents (elems ++ [x]) (grown (N.of_nat (length elems)) cap) rest
  | Own k :: rest =>
      if decide (N.of_nat (length elems) < cap) then
        x ← elems !! N.to_nat k; contents (elems ++ [x]) cap rest
      else None
  end.

(** The data model: vector [this], with allocator [a], holds [elems] with
    capacity [cap]. *)
Definition holds (this : nat) (a : A) (elems : list T) (cap : N) (w : world)
    : Prop :=
  ∃ v, objs w !! this = Some v ∧
       alloc_ v = a ∧
       size_ v = N.of_nat (length elems) ∧
       capacity_ v = cap ∧
       N.of_nat (length elems) ≤ cap ∧
       cap ≤ PTRDIFF_MAX ∧
       match data_ v with
       | nullptr => cap = 0
       | Loc b o =>
           o = 0%Z ∧ (b < next_block (mem w))%nat ∧
           blocks (mem w) !! b = Some (buffer_of elems cap)
       end.

(** Two vectors that do not share a buffer. *)
Definition apart (this other : nat) (w : world) : Prop :=
  ∀ vt vo b o o',
    objs w !! this = Some vt → objs w !! other = Some vo →
    data_ vt = Loc b o → data_ vo = Loc b o' → False.

(** ** Reasoning about computations *)

Definition mk (p : ptr) (n c : N) (a : A) : vec :=
  {| data_ := p; size_ := n; capacity_ := c; alloc_ := a |}.

(** What every call maintains of the members of each vector, when the
    caller keeps to the contract of [resize]. *)
Definition sound (v : vec) : Prop :=
  size_ v ≤ capacity_ v ∧ capacity_ v ≤ PTRDIFF_MAX.
Definition all_sound (w : world) : Prop :=
  ∀ this v, objs w !! this = Some v → sound v.

(** [wp m w Q]: the outcome and the final state of [m] from [w] satisfy
    [Q]. *)
Definition wp {X} (m : M X) (w : world) (Q : outcome X → world → Prop) : Prop :=
  Q (m w).1 (m w).2.

(** A computation that leaves the objects alone. *)
Definition keeps_objs {X} (m : M X) : Prop :=
  ∀ w, objs (m w).2 = objs w.

End Embedding.

(** ** Instances *)

(** [std::allocator<T_>]: stateless, always equal, propagated on move
    assignment only. *)
Global Instance std_allocator : Allocator unit := {|
  alloc_default := tt;
  alloc_eqb := λ _ _, true;
  alloc_max_size := λ _, PTRDIFF_MAX;
  select_on_container_copy_construction := λ a, a;
  propagate_on_container_copy_assignment := false;
  propagate_on_container_move_assignment := true;
  propagate_on_container_swap := false;
|}.

(** A debug build. *)
Global Instance debug_build : Build := {| NDEBUG := false |}.

(** [std::string]: copies are equal to their source, a moved-from string
    is empty, nothing throws. *)
Global Instance string_element : Element string := {|
  sizeof := 32;
  default_construct := Some EmptyString;
  copy_construct := λ s, Some s;
  move_construct := λ s, Some (s, EmptyString);
|}.

Global Instance string_regular : Regular string := {|
  copy_construct_ok := λ v, eq_refl;
  move_construct_ok := λ v, ex_intro _ EmptyString eq_refl;
|}.

(** An element type with an injected fault: a number, whose move
    constructor throws on the value 13 and otherwise leaves 0 behind. *)
Global Instance faulty_element : Element nat := {|
  sizeof := 8;
  default_construct := Some O;
  copy_construct := λ n, Some n;
  move_construct := λ n, if decide (n = 13%nat) then None else Some (n, O);
|}.

(** An element type whose copy constructor throws: an integer that
    cannot be copied when it is negative. *)
Global Instance fragile_element : Element Z := {|
  sizeof := 8;
  default_construct := Some 0%Z;
  copy_construct := λ z, if decide (z < 0)%Z then None else Some z;
  move_construct := λ z, Some (z, 0%Z);
|}.

(** ** The logic of computations *)

Section Logic.
Context {T : Type} `{ElementT : Element T}.
Context {A : Type} `{AllocatorA : Allocator A}.
Context `{BuildB : Build}.

Abbreviation M := (@M T A).
Abbreviation world := (world T A).
Abbreviation vec := (MyVector A).

Implicit Types (w : world) (v : vec) (this other : nat).
Implicit Types (body : N → M unit) (h : N → exn → M unit).

(** A computation after which, short of undefined behaviour, the members
    of every vector are sound if they were. *)
Definition keeps_sound {X} (m : M X) : Prop :=
  ∀ w, all_sound w → wp m w (λ r w', r ≠ Undefined → all_sound w').

(** A computation that neither throws nor changes the state. *)
Definition quiet {X} (m : M X) : Prop :=
  ∀ w, (m w).2 = w ∧ ∀ e, (m w).1 ≠ Throw e.

Lemma bind_unfold {X Y} (m : M X) (k : X → M Y) w :
  (m ≫= k) w =
  match m w with
  | (Ok x, w') => k x w'
  | (Throw e, w') => (Throw e, w')
  | (Undefined, w') => (Undefined, w')
  | (Abort, w') => (Abort, w')
  end.
Proof. reflexivity. Qed.

Lemma bind_ok {X Y} (m : M X) (k : X → M Y) w x w' :
  m w = (Ok x, w') → (m ≫= k) w = k x w'.
Proof. intros E. by rewrite bind_unfold, E. Qed.

Lemma wp_ret {X} (x : X) w Q : Q (Ok x) w → wp (mret x) w Q.
Proof. done. Qed.

Lemma wp_throw {X} e w (Q : outcome X → world → Prop) :
  Q (Throw e) w → wp (throw e) w Q.
Proof. done. Qed.

Lemma wp_bind {X Y} (m : M X) (k : X → M Y) w Q :
  wp m w (λ r w',
    match r with
    | Ok x => wp (k x) w' Q
    | Throw e => Q (Throw e) w'
    | Undefined => Q Undefined w'
    | Abort => Q Abort w'
    end) →
  wp (m ≫= k) w Q.
Proof.
  unfold wp. rewrite bind_unfold.
  destruct (m w) as [[x|e| |] w']; done.
Qed.

Lemma wp_catch {X} (m : M X) (h : exn → M X) w Q :
  wp m w (λ r w',
    match r with
    | Throw e => wp (h e) w' Q
    | _ => Q r w'
    end) →
  wp (catch m h) w Q.
Proof.
  unfold wp, catch. destruct (m w) as [[x|e| |] w']; done.
Qed.

Lemma wp_mono {X} (m : M X) w (Q Q' : outcome X → world → Prop) :
  wp m w Q → (∀ r w', Q r w' → Q' r w') → wp m w Q'.
Proof. unfold wp. auto. Qed.

Lemma wp_object this w Q :
  match objs w !! this with
  | Some v => Q (Ok v) w
  | None => Q Undefined w
  end →
  wp (object this) w Q.
Proof. unfold wp, object. by destruct (objs w !! this). Qed.

Lemma wp_field {X} (f : vec → X) this w Q :
  match objs w !! this with
  | Some v => Q (Ok (f v)) w
  | None => Q Undefined w
  end →
  wp (field f this) w Q.
Proof.
  intros HQ. apply wp_bind, wp_object.
  by destruct (objs w !! this).
Qed.

(** *** Computations that leave the objects alone *)

Lemma wp_keeps {X} (m : M X) w Q :
  keeps_objs m → (∀ r w', objs w' = objs w → Q r w') → wp m w Q.
Proof. unfold wp. auto. Qed.

Lemma keeps_lift {X} (f : memory T → outcome X * memory T) :
  keeps_objs (lift f : M X).
Proof. intros w. unfold lift. by destruct (f (mem w)). Qed.

Lemma keeps_ret {X} (x : X) : keeps_objs (mret x : M X).
Proof. done. Qed.

Lemma keeps_throw {X} e : keeps_objs (throw e : M X).
Proof. done. Qed.

Lemma keeps_undefined {X} : keeps_objs (undefined : M X).
Proof. done. Qed.

Lemma keeps_abort {X} : keeps_objs (abort : M X).
Proof. done. Qed.

Lemma keeps_bind {X Y} (m : M X) (k : X → M Y) :
  keeps_objs m → (∀ x, keeps_objs (k x)) → keeps_objs (m ≫= k).
Proof.
  intros Hm Hk w. rewrite bind_unfold. specialize (Hm w).
  destruct (m w) as [[x|e| |] w']; simpl in *; try done.
  by rewrite Hk.
Qed.

Lemma keeps_catch {X} (m : M X) (h : exn → M X) :
  keeps_objs m → (∀ e, keeps_objs (h e)) → keeps_objs (catch m h).
Proof.
  intros Hm Hh w. unfold catch. specialize (Hm w).
  destruct (m w) as [[x|e| |] w']; simpl in *; try done.
  by rewrite Hh.
Qed.

Lemma keeps_object this : keeps_objs (object this : M vec).
Proof. intros w. unfold object. by destruct (objs w !! this). Qed.

Lemma keeps_for_from body count :
  (∀ i, keeps_objs (body i)) → ∀ i, keeps_objs (for_from i count body).
Proof.
  intros Hb. induction count as [|c IH]; intros i; simpl.
  - apply keeps_ret.
  - apply keeps_bind; auto.
Qed.

Lemma keeps_for lo hi body :
  (∀ i, keeps_objs (body i)) → keeps_objs (for_ lo hi body).
Proof. intros. by apply keeps_for_from. Qed.

Lemma keeps_try_for_from body h count :
  (∀ i, keeps_objs (body i)) → (∀ i e, keeps_objs (h i e)) →
  ∀ i, keeps_objs (try_for_from i count body h).
Proof.
  intros Hb Hh. induction count as [|c IH]; intros i w; simpl; [done|].
  specialize (Hb i w).
  destruct (body i w) as [[x|e| |] w']; simpl in *; try done.
  - by rewrite IH.
  - by rewrite Hh.
Qed.

Lemma keeps_try_for lo hi body h :
  (∀ i, keeps_objs (body i)) → (∀ i e, keeps_objs (h i e)) →
  keeps_objs (try_for lo hi body h).
Proof. intros. by apply keeps_try_for_from. Qed.

Lemma keeps_if {X} (b : bool) (m1 m2 : M X) :
  keeps_objs m1 → keeps_objs m2 → keeps_objs (if b then m1 else m2).
Proof. by destruct b. Qed.

Lemma keeps_decide {X} (P : Prop) `{Decision P} (m1 m2 : M X) :
  keeps_objs m1 → keeps_objs m2 → keeps_objs (if decide P then m1 else m2).
Proof. by case_decide. Qed.

Lemma keeps_field {X} (f : vec → X) this : keeps_objs (field f this : M X).
Proof. apply keeps_bind; [apply keeps_object | intros; apply keeps_ret]. Qed.

Lemma keeps_ptr_add p n : keeps_objs (ptr_add p n : M ptr).
Proof. apply keeps_lift. Qed.
Lemma keeps_deref p : keeps_objs (deref p : M ptr).
Proof. apply keeps_lift. Qed.
Lemma keeps_load p : keeps_objs (load p : M T).
Proof. apply keeps_lift. Qed.
Lemma keeps_allocate (a : A) n : keeps_objs (allocate a n : M ptr).
Proof. apply keeps_lift. Qed.
Lemma keeps_deallocate (a : A) p n : keeps_objs (deallocate a p n : M unit).
Proof. apply keeps_lift. Qed.
Lemma keeps_emplace p made : keeps_objs (emplace p made : M unit).
Proof. apply keeps_lift. Qed.
Lemma keeps_construct_default (a : A) p :
  keeps_objs (construct_default a p : M unit).
Proof. apply keeps_lift. Qed.
Lemma keeps_construct_copy (a : A) p x :
  keeps_objs (construct_copy a p x : M unit).
Proof. apply keeps_lift. Qed.
Lemma keeps_construct_move (a : A) p x :
  keeps_objs (construct_move a p x : M unit).
Proof. apply keeps_lift. Qed.
Lemma keeps_construct_move_from (a : A) p q :
  keeps_objs (construct_move_from a p q : M unit).
Proof. apply keeps_lift. Qed.
Lemma keeps_destroy (a : A) p : keeps_objs (destroy a p : M unit).
Proof. apply keeps_lift. Qed.

Lemma keeps_data_plus this i : keeps_objs (data_plus this i : M ptr).
Proof.
  apply keeps_bind; [apply keeps_field | intros; apply keeps_ptr_add].
Qed.
Lemma keeps_data_at this i : keeps_objs (data_at this i : M ptr).
Proof.
  apply keeps_bind; [apply keeps_data_plus | intros; apply keeps_deref].
Qed.

Create HintDb keeps.
Hint Resolve keeps_ret keeps_throw keeps_undefined keeps_abort keeps_bind
  keeps_catch
  keeps_object keeps_field keeps_for keeps_try_for keeps_decide keeps_if
  keeps_ptr_add keeps_deref keeps_load keeps_allocate keeps_deallocate
  keeps_emplace keeps_construct_default keeps_construct_copy
  keeps_construct_move keeps_construct_move_from keeps_destroy
  keeps_data_plus keeps_data_at : keeps.

Ltac keeps := by eauto 40 with keeps.

(** A step that leaves the objects alone: carry on in the same objects
    when it returns, and settle the other outcomes at once. *)
Ltac wp_heap :=
  apply wp_bind; apply wp_keeps; [keeps|];
  let r := fresh "r" in let w' := fresh "w" in let Ho := fresh "Ho" in
  intros r w' Ho; simpl in Ho; destruct r as [?|?| |]; simpl.

(** *** The members of the object after each call *)

Lemma max_size_of_le (a : A) : max_size_of a ≤ PTRDIFF_MAX.
Proof.
  unfold max_size_of. etrans; [apply N.le_min_l|].
  apply N.Div0.div_le_upper_bound. unfold PTRDIFF_MAX. lia.
Qed.

(** The bound on allocations is what [max_size()] returns. *)
Lemma max_size_run this v w :
  objs w !! this = Some v →
  max_size this w = (Ok (max_size_of (alloc_ v)), w).
Proof.
  intros Hv. unfold max_size, field, object.
  by rewrite !bind_unfold, Hv.
Qed.

Lemma wp_allocate (a : A) n w Q :
  (∀ p m', n ≤ PTRDIFF_MAX → Q (Ok p) {| objs := objs w; mem := m' |}) →
  Q (Throw bad_alloc) w →
  wp (allocate a n) w Q.
Proof.
  intros HOk HT. unfold wp, allocate, lift. case_decide; simpl.
  - apply HOk. etrans; [done|apply max_size_of_le].
  - by destruct w.
Qed.

Lemma wp_set_data_ this p w v Q :
  objs w !! this = Some v →
  Q (Ok tt) {| objs := <[this := mk p (size_ v) (capacity_ v) (alloc_ v)]> (objs w);
               mem := mem w |} →
  wp (set_data_ this p) w Q.
Proof. intros Hv HQ. apply wp_bind, wp_object. by rewrite Hv. Qed.

Lemma wp_set_size_ this n w v Q :
  objs w !! this = Some v →
  Q (Ok tt) {| objs := <[this := mk (data_ v) n (capacity_ v) (alloc_ v)]> (objs w);
               mem := mem w |} →
  wp (set_size_ this n) w Q.
Proof. intros Hv HQ. apply wp_bind, wp_object. by rewrite Hv. Qed.

Lemma wp_set_capacity_ this n w v Q :
  objs w !! this = Some v →
  Q (Ok tt) {| objs := <[this := mk (data_ v) (size_ v) n (alloc_ v)]> (objs w);
               mem := mem w |} →
  wp (set_capacity_ this n) w Q.
Proof. intros Hv HQ. apply wp_bind, wp_object. by rewrite Hv. Qed.

Lemma wp_set_alloc_ this a w v Q :
  objs w !! this = Some v →
  Q (Ok tt) {| objs := <[this := mk (data_ v) (size_ v) (capacity_ v) a]> (objs w);
               mem := mem w |} →
  wp (set_alloc_ this a) w Q.
Proof. intros Hv HQ. apply wp_bind, wp_object. by rewrite Hv. Qed.

(** Looking an object up in the objects as they now are. *)
Ltac objs_now :=
  simpl;
  repeat match goal with
  | Ho : objs ?w' = _ |- context [objs ?w'] => rewrite !Ho
  end;
  repeat first
    [ rewrite lookup_insert_eq | rewrite lookup_insert_ne by done ];
  simpl.

Ltac objs_done := objs_now; rewrite ?insert_insert_eq; done.

Ltac lookup_now :=
  objs_now;
  match goal with
  | H : objs ?w !! ?x = Some _ |- context [objs ?w !! ?x] => rewrite !H
  | |- context [objs ?w !! ?x] =>
      let v := fresh "v" in let Hv := fresh "Hv" in
      destruct (objs w !! x) as [v|] eqn:Hv; [|done]
  | _ => idtac
  end; simpl.

(** Reading a member, and assigning to one. *)
Ltac wp_get :=
  apply wp_bind; first [apply wp_field | apply wp_object]; lookup_now.

Ltac wp_set_here :=
  first [eapply wp_set_data_ | eapply wp_set_size_
        | eapply wp_set_capacity_ | eapply wp_set_alloc_];
  [objs_now; first [eassumption|reflexivity]|]; simpl.

Ltac wp_set := first [wp_set_here | apply wp_bind; wp_set_here].

Lemma reallocate_objs this n w :
  wp (reallocate this n) w (λ r w',
    match r with
    | Ok _ => ∃ v p, objs w !! this = Some v ∧ n ≤ PTRDIFF_MAX ∧
        objs w' = <[this := mk p (size_ v) n (alloc_ v)]> (objs w)
    | Undefined => True
    | _ => objs w' = objs w
    end).
Proof.
  unfold reallocate.
  wp_get. apply wp_bind, wp_allocate; [|done]. intros new_data m' Hn.
  wp_get. wp_heap; try done. wp_get. wp_get. wp_heap; try by objs_now.
  wp_set. wp_set. eexists _, _. split_and!; [done..|]. objs_done.
Qed.

Lemma reserve_objs this n w :
  wp (reserve this n) w (λ r w',
    match r with
    | Ok _ => ∃ v p c, objs w !! this = Some v ∧ n ≤ c ∧ capacity_ v ≤ c ∧
        (capacity_ v ≤ PTRDIFF_MAX → c ≤ PTRDIFF_MAX) ∧
        objs w' = <[this := mk p (size_ v) c (alloc_ v)]> (objs w)
    | Undefined => True
    | _ => objs w' = objs w
    end).
Proof.
  unfold reserve. wp_get. case_decide.
  - apply wp_ret. exists v, (data_ v), (capacity_ v). split_and!; try done.
    destruct v. by rewrite insert_id.
  - eapply wp_mono; [apply reallocate_objs|]. intros [[]|e| |] w'; try done.
    intros (v' & p & Hv' & Hn & ->). simplify_eq.
    exists v, p, n. split_and!; try done. lia.
Qed.

Lemma clear_objs this w :
  wp (clear this) w (λ r w',
    match r with
    | Ok _ => ∃ v, objs w !! this = Some v ∧
        objs w' = <[this := mk (data_ v) 0 (capacity_ v) (alloc_ v)]> (objs w)
    | Undefined => True
    | _ => objs w' = objs w
    end).
Proof.
  unfold clear. wp_get. wp_get. wp_heap; try done.
  wp_set. eexists. split; [done|]. objs_done.
Qed.

(** *** [size <= capacity], call by call *)

Lemma PTRDIFF_MAX_eq : PTRDIFF_MAX = 9223372036854775807.
Proof. reflexivity. Qed.

Lemma size_t_small n : n ≤ 2 * PTRDIFF_MAX + 1 → size_t n = n.
Proof.
  rewrite PTRDIFF_MAX_eq. intros Hn. unfold size_t. apply N.mod_small.
  change (2 ^ 64) with 18446744073709551616. lia.
Qed.

Lemma all_sound_same w w' : objs w' = objs w → all_sound w → all_sound w'.
Proof. unfold all_sound. by intros ->. Qed.

Lemma all_sound_insert w w' this v :
  objs w' = <[this := v]> (objs w) → all_sound w → sound v → all_sound w'.
Proof.
  unfold all_sound. intros -> Hw Hv x v' Hx.
  destruct (decide (this = x)) as [->|Hne].
  - rewrite lookup_insert_eq in Hx. by simplify_eq.
  - rewrite lookup_insert_ne in Hx by done. eauto.
Qed.

Lemma all_sound_delete w w' this :
  objs w' = delete this (objs w) → all_sound w → all_sound w'.
Proof.
  unfold all_sound. intros -> Hw x v' Hx.
  apply lookup_delete_Some in Hx as [_ Hx]. eauto.
Qed.

Lemma grow_if_full_objs this w :
  wp (grow_if_full this) w (λ r w',
    match r with
    | Ok _ => ∃ v p c, objs w !! this = Some v ∧
        (sound v → size_ v < c ∧ c ≤ PTRDIFF_MAX) ∧
        objs w' = <[this := mk p (size_ v) c (alloc_ v)]> (objs w)
    | Undefined => True
    | _ => objs w' = objs w
    end).
Proof.
  unfold grow_if_full. wp_get. wp_get. case_decide as Hfull.
  - eapply wp_mono; [apply reserve_objs|]. intros [[]|e| |] w'; try done.
    intros (v' & p & c & Hv' & Hn & Hc & Hmax & ->). simplify_eq.
    exists v, p, c. split_and!; try done. intros [Hs Hcap].
    split; [|by auto]. case_decide as Hz; [|lia].
    rewrite size_t_small in Hn by lia. lia.
  - apply wp_ret. exists v, (data_ v), (capacity_ v). split_and!.
    + done.
    + intros [? ?]. split; [lia|done].
    + destruct v. by rewrite insert_id.
Qed.

Ltac sound_here :=
  match goal with
  | Hw : all_sound ?w |- all_sound ?w' =>
      first
        [ apply (all_sound_same w w'); [objs_done | exact Hw]
        | eapply (all_sound_insert w w');
          [ objs_done | exact Hw
          | unfold sound, mk; simpl; split; first [done | lia] ] ]
  end.

Ltac sound_now := intros _; sound_here.

Lemma push_back_sound this value : keeps_sound (push_back this value).
Proof.
  intros w Hw. unfold push_back. apply wp_bind.
  eapply wp_mono; [apply grow_if_full_objs|]. intros [[]|e| |] w1; try done.
  2,3: by intros Ho _; eapply all_sound_same.
  intros (v & p & c & Hv & Hc & Ho).
  destruct (Hc (Hw _ _ Hv)) as [Hlt Hmax].
  wp_get. wp_get. wp_heap; try done. 2,3: sound_now.
  wp_heap; try done. 2,3: sound_now.
  wp_set. rewrite size_t_small by lia. sound_now.
Qed.

Lemma push_back_move_sound this value : keeps_sound (push_back_move this value).
Proof.
  intros w Hw. unfold push_back_move. apply wp_bind.
  eapply wp_mono; [apply grow_if_full_objs|]. intros [[]|e| |] w1; try done.
  2,3: by intros Ho _; eapply all_sound_same.
  intros (v & p & c & Hv & Hc & Ho).
  destruct (Hc (Hw _ _ Hv)) as [Hlt Hmax].
  wp_get. wp_get. wp_heap; try done. 2,3: sound_now.
  wp_heap; try done. 2,3: sound_now.
  wp_set. rewrite size_t_small by lia. sound_now.
Qed.

Lemma pop_back_sound this : keeps_sound (pop_back this).
Proof.
  intros w Hw. unfold pop_back. wp_get. pose proof (Hw _ _ Hv) as [? ?].
  case_decide; [|by apply wp_ret].
  wp_get. do 3 (wp_heap; try done; [|sound_now..]).
  wp_set. sound_now.
Qed.

Lemma resize_sound this new_size w :
  all_sound w → within_contract (Resize this new_size) w →
  wp (resize this new_size) w (λ r w', r ≠ Undefined → all_sound w').
Proof.
  intros Hw Hc. unfold resize. wp_get. wp_get.
  pose proof (Hw _ _ Hv) as [? ?]. specialize (Hc _ Hv).
  wp_heap; try done; [|sound_now..].
  wp_set. sound_now.
Qed.

Lemma reserve_sound this n : keeps_sound (reserve this n).
Proof.
  intros w Hw. eapply wp_mono; [apply reserve_objs|].
  intros [[]|e| |] w'; try done.
  2,3: by intros Ho _; eapply all_sound_same.
  intros (v & p & c & Hv & Hn & Hc & Hmax & Ho).
  pose proof (Hw _ _ Hv) as [? ?]. specialize (Hmax ltac:(done)). sound_now.
Qed.

Lemma clear_sound this : keeps_sound (clear this).
Proof.
  intros w Hw. eapply wp_mono; [apply clear_objs|].
  intros [[]|e| |] w'; try done.
  2,3: by intros Ho _; eapply all_sound_same.
  intros (v & Hv & Ho). pose proof (Hw _ _ Hv) as [? ?]. sound_now.
Qed.


(** The objects after a call are sound when each of them is. *)
Ltac sound_by_cases :=
  let x := fresh "x" in let vx := fresh "vx" in let Hx := fresh "Hx" in
  intros _ x vx Hx; simpl in Hx;
  repeat match goal with
  | Ho : objs ?w' = _ |- _ => rewrite Ho in Hx; clear Ho
  end;
  repeat match type of Hx with
  | context [<[?k := _]> _ !! x] =>
      destruct (decide (k = x));
      [ subst; rewrite lookup_insert_eq in Hx
      | rewrite lookup_insert_ne in Hx by done ]
  end;
  simplify_eq; eauto; unfold sound, mk; simpl; split; first [done | lia].

Lemma swap_sound this other : keeps_sound (swap this other).
Proof.
  intros w Hw. unfold swap. wp_get. rename v into vt.
  destruct (decide (this = other)) as [->|Hne].
  - wp_get. pose proof (Hw _ _ Hv) as [? ?].
    wp_heap; try done; [|sound_now..].
    do 6 wp_set. destruct propagate_on_container_swap.
    + do 2 wp_set. sound_by_cases.
    + apply wp_ret. sound_by_cases.
  - wp_get. rename v into vo.
    pose proof (Hw _ _ Hv) as [? ?]. pose proof (Hw _ _ Hv0) as [? ?].
    wp_heap; try done; [|sound_now..].
    do 6 wp_set. destruct propagate_on_container_swap.
    + do 2 wp_set. sound_by_cases.
    + apply wp_ret. sound_by_cases.
Qed.

Lemma shrink_to_fit_sound this : keeps_sound (shrink_to_fit this).
Proof.
  intros w Hw. unfold shrink_to_fit. wp_get. wp_get.
  pose proof (Hw _ _ Hv) as [? ?].
  case_decide; [by apply wp_ret|].
  wp_get. do 3 (wp_heap; try done; [|sound_now..]).
  wp_get. wp_heap; try done; [|sound_now..].
  do 2 wp_set. sound_now.
Qed.

Lemma keeps_sound_ret {X} (x : X) : keeps_sound (mret x : M X).
Proof. by intros w Hw _. Qed.

Lemma keeps_sound_bind {X Y} (m : M X) (k : X → M Y) :
  keeps_sound m → (∀ x, keeps_sound (k x)) → keeps_sound (m ≫= k).
Proof.
  intros Hm Hk w Hw. apply wp_bind. eapply wp_mono; [by apply Hm|].
  intros [x|e| |] w' Hw'; simpl; auto. by apply Hk, Hw'.
Qed.

Lemma keeps_sound_for_from body count :
  (∀ i, keeps_sound (body i)) → ∀ i, keeps_sound (for_from i count body).
Proof.
  intros Hb. induction count as [|c IH]; intros i; simpl.
  - apply keeps_sound_ret.
  - apply keeps_sound_bind; auto.
Qed.

Lemma keeps_sound_for_each {X} (l : list X) (body : X → M unit) :
  (∀ x, keeps_sound (body x)) → keeps_sound (for_each l body).
Proof.
  intros Hb. induction l as [|x l IH]; simpl.
  - apply keeps_sound_ret.
  - apply keeps_sound_bind; auto.
Qed.

Lemma assing_sound this n val : keeps_sound (assing this n val).
Proof.
  apply keeps_sound_bind; [apply clear_sound|]. intros _.
  apply keeps_sound_for_from. intros _. apply push_back_sound.
Qed.

Lemma assing_list_sound this list : keeps_sound (assing_list this list).
Proof.
  apply keeps_sound_bind; [apply clear_sound|]. intros _.
  apply keeps_sound_for_each. intros x. apply push_back_sound.
Qed.

Lemma wp_object_begin this v w Q :
  Q Undefined w →
  (objs w !! this = None →
   Q (Ok tt) {| objs := <[this := v]> (objs w); mem := mem w |}) →
  wp (object_begin this v) w Q.
Proof.
  intros HU HOk. unfold wp, object_begin.
  destruct (objs w !! this); auto.
Qed.

Lemma wp_object_end this w Q :
  Q (Ok tt) {| objs := delete this (objs w); mem := mem w |} →
  wp (object_end this) w Q.
Proof. done. Qed.

Lemma constructing_sound this v0 (m : M unit) w :
  all_sound w → sound v0 →
  (∀ w1, objs w !! this = None → objs w1 = <[this := v0]> (objs w) →
         all_sound w1 → wp m w1 (λ r w', r ≠ Undefined → all_sound w')) →
  wp (constructing this v0 m) w (λ r w', r ≠ Undefined → all_sound w').
Proof.
  intros Hw Hv0 Hm. unfold constructing.
  apply wp_bind, wp_object_begin; [done|]. intros Hnew.
  apply wp_catch. eapply wp_mono.
  { apply Hm; [done..|]. by eapply all_sound_insert. }
  intros [[]|e| |] w'; simpl; try done. intros Hw'.
  apply wp_bind, wp_object_end, wp_throw. intros _.
  eapply all_sound_delete; [done|]. by apply Hw'.
Qed.

Lemma sound_member_defaults (a : A) : sound (member_defaults a).
Proof. split; simpl; [done|]. rewrite PTRDIFF_MAX_eq. lia. Qed.

(** What a lemma about the objects says once the objects are known. *)
Ltac objs_in H :=
  simpl in H;
  repeat match goal with
  | Ho : objs ?w' = _ |- _ =>
      match type of H with context [objs w'] => rewrite !Ho in H end
  end;
  repeat first
    [ rewrite lookup_insert_eq in H | rewrite lookup_insert_ne in H by done ];
  simpl in H.

Lemma MyVector_default_sound this : keeps_sound (MyVector_default this).
Proof.
  intros w Hw. apply constructing_sound; [done|apply sound_member_defaults|].
  intros w1 _ _ Hw1. by apply wp_ret.
Qed.

Lemma MyVector_fill_sound this n value :
  keeps_sound (MyVector_fill this n value).
Proof.
  intros w Hw. apply constructing_sound; [done|apply sound_member_defaults|].
  intros w1 _ Ho1 Hw1. apply wp_bind.
  eapply wp_mono; [apply reserve_objs|]. intros [[]|e| |] w2; try done.
  2,3: by intros Ho _; eapply all_sound_same.
  intros (v & p & c & Hv & Hn & Hc & Hmax & Ho).
  pose proof (Hw1 _ _ Hv) as [? ?]. specialize (Hmax ltac:(done)).
  wp_get. do 2 (wp_heap; try done; [|sound_now..]).
  wp_set. sound_now.
Qed.

Lemma MyVector_range_sound this range :
  keeps_sound (MyVector_range this range).
Proof.
  intros w Hw. apply constructing_sound; [done|apply sound_member_defaults|].
  intros w1 _ Ho1 Hw1. simpl. apply wp_bind.
  eapply wp_mono; [apply reserve_objs|]. intros [[]|e| |] w2; try done.
  2,3: by intros Ho _; eapply all_sound_same.
  intros (v & p & c & Hv & Hn & Hc & Hmax & Ho).
  pose proof (Hw1 _ _ Hv) as [? ?]. specialize (Hmax ltac:(done)).
  wp_get. apply wp_bind, wp_keeps.
  { apply keeps_for. intros i. destruct (range !! N.to_nat i); keeps. }
  intros [[]|e| |] w3 Ho3; simpl; try done; [|sound_now..].
  wp_set. sound_now.
Qed.

Lemma MyVector_copy_sound this other : keeps_sound (MyVector_copy this other).
Proof.
  intros w Hw. unfold MyVector_copy. wp_get. rename v into o, Hv into Hother.
  pose proof (Hw _ _ Hother) as [? ?].
  apply constructing_sound; [done|apply sound_member_defaults|].
  intros w1 Hnew Ho1 Hw1. assert (this ≠ other) by congruence.
  apply wp_bind.
  eapply wp_mono; [apply reserve_objs|]. intros [[]|e| |] w2; try done.
  2,3: by intros Ho _; eapply all_sound_same.
  intros (v & p & c & Hv & Hn & Hc & Hmax & Ho).
  pose proof (Hw1 _ _ Hv) as [? ?]. specialize (Hmax ltac:(done)).
  wp_get. wp_get. wp_heap; try done; [|sound_now..].
  wp_get. wp_set. sound_now.
Qed.

Lemma MyVector_move_sound this other : keeps_sound (MyVector_move this other).
Proof.
  intros w Hw. unfold MyVector_move. wp_get. rename v into o, Hv into Hother.
  pose proof (Hw _ _ Hother) as [? ?].
  apply wp_bind, wp_object_begin; [done|]. intros Hnew.
  assert (this ≠ other) by congruence.
  do 3 wp_set. rewrite PTRDIFF_MAX_eq in *. sound_by_cases.
Qed.

Lemma MyVector_destroy_sound this : keeps_sound (MyVector_destroy this).
Proof.
  intros w Hw. unfold MyVector_destroy. apply wp_bind.
  eapply wp_mono; [apply clear_objs|]. intros [[]|e| |] w1; try done.
  2,3: by intros Ho _; eapply all_sound_same.
  intros (v & Hv & Ho). pose proof (Hw _ _ Hv) as [? ?].
  wp_get. wp_heap; try done; [|sound_now..].
  apply wp_object_end. intros _.
  eapply (all_sound_delete w0); [done|]. sound_here.
Qed.

Lemma assign_copy_sound this other : keeps_sound (assign_copy this other).
Proof.
  intros w Hw. unfold assign_copy. case_decide as Hne; [|by apply wp_ret].
  apply wp_bind.
  eapply wp_mono; [apply clear_objs|]. intros [[]|e| |] w1; try done.
  2,3: by intros Ho _; eapply all_sound_same.
  intros (v & Hv & Ho1). pose proof (Hw _ _ Hv) as [? ?].
  assert (∃ a, wp
    (if propagate_on_container_copy_assignment
     then a ← field alloc_ other; set_alloc_ this a else mret tt) w1
    (λ r w2, match r with
             | Ok _ => objs w2 = <[this := mk (data_ v) 0 (capacity_ v) a]> (objs w)
             | Undefined => True
             | _ => all_sound w2
             end) ) as [a Hstep].
  { destruct propagate_on_container_copy_assignment.
    - destruct (objs w !! other) as [o|] eqn:Hother.
      + exists (alloc_ o). wp_get. wp_set. objs_done.
      + exists (alloc_ v). apply wp_bind, wp_field. objs_now. by rewrite Hother.
    - exists (alloc_ v). apply wp_ret. objs_done. }
  apply wp_bind. eapply wp_mono; [apply Hstep|]. clear Hstep.
  intros [[]|e| |] w2; simpl; try done. intros Ho2.
  wp_get. rename v0 into o, Hv0 into Hother.
  pose proof (Hw _ _ Hother) as [? ?].
  apply wp_bind.
  eapply wp_mono; [apply reserve_objs|]. intros [[]|e| |] w3; try done.
  2,3: intros Ho _; eapply (all_sound_insert w); [objs_done|done|];
       split; simpl; [lia|done].
  intros (v' & p & c & Hv' & Hn & Hc & Hmax & Ho3).
  objs_in Hv'. simplify_eq. simpl in *. specialize (Hmax ltac:(done)).
  wp_get. wp_get. wp_heap; try done; [|sound_now..].
  wp_get. wp_set. sound_now.
Qed.

Lemma assign_move_sound this other : keeps_sound (assign_move this other).
Proof.
  intros w Hw. unfold assign_move. case_decide as Hne; [|by apply wp_ret].
  apply wp_bind.
  eapply wp_mono; [apply clear_objs|]. intros [[]|e| |] w1; try done.
  2,3: by intros Ho _; eapply all_sound_same.
  intros (v & Hv & Ho1). pose proof (Hw _ _ Hv) as [? ?].
  wp_get. wp_heap; try done; [|sound_now..].
  wp_get. rename v0 into o. do 3 wp_set.
  rewrite PTRDIFF_MAX_eq in *.
  destruct propagate_on_container_move_assignment.
  - do 4 wp_set. sound_now.
  - apply wp_bind, wp_ret. do 3 wp_set. sound_now.
Qed.

Lemma exec_sound c w :
  all_sound w → within_contract c w →
  wp (exec c) w (λ r w', r ≠ Undefined → all_sound w').
Proof.
  intros Hw Hc. destruct c; simpl.
  - by apply MyVector_default_sound.
  - by apply MyVector_fill_sound.
  - by apply MyVector_range_sound.
  - by apply MyVector_copy_sound.
  - by apply MyVector_move_sound.
  - by apply MyVector_destroy_sound.
  - by apply assign_copy_sound.
  - by apply assign_move_sound.
  - by apply push_back_sound.
  - by apply push_back_move_sound.
  - by apply pop_back_sound.
  - by apply resize_sound.
  - by apply reserve_sound.
  - by apply clear_sound.
  - by apply swap_sound.
  - by apply shrink_to_fit_sound.
  - by apply assing_sound.
  - by apply assing_list_sound.
Qed.

Lemma reachable_within_contract_sound w :
  reachable_within_contract w → all_sound w.
Proof.
  induction 1 as [|c w Hr IH Hc Hdef].
  - intros this v Hv. unfold start in Hv. simpl in Hv.
    by rewrite lookup_empty in Hv.
  - by apply (exec_sound c w).
Qed.

(** *** Memory *)

Local Arguments set_slot : simpl never.
Local Arguments slot_at : simpl never.

Implicit Types (m : memory T) (blk : list (slot T)) (b : nat).

Lemma world_eta w : {| objs := objs w; mem := mem w |} = w.
Proof. by destruct w. Qed.

Lemma slot_at_index m b blk (k : nat) :
  blocks m !! b = Some blk → slot_at m (Loc b (Z.of_nat k)) = blk !! k.
Proof.
  intros Hb. unfold slot_at. rewrite decide_True by lia.
  rewrite Hb. simpl. by rewrite Nat2Z.id.
Qed.

Lemma blocks_set_slot m b blk (k : nat) s :
  blocks m !! b = Some blk →
  blocks (set_slot m (Loc b (Z.of_nat k)) s) !! b = Some (<[k := s]> blk).
Proof.
  intros Hb. unfold set_slot. simpl.
  rewrite lookup_alter_eq, Hb. simpl. by rewrite Nat2Z.id.
Qed.

Lemma blocks_set_slot_ne m b b' o s :
  b ≠ b' → blocks (set_slot m (Loc b o) s) !! b' = blocks m !! b'.
Proof. intros Hne. unfold set_slot. simpl. by rewrite lookup_alter_ne. Qed.

Lemma next_block_set_slot m p s :
  next_block (set_slot m p s) = next_block m.
Proof. by destruct p. Qed.

Lemma wp_ptr_add_null w Q :
  Q (Ok nullptr) w → wp (ptr_add nullptr 0) w Q.
Proof. unfold wp, ptr_add, lift. simpl. by rewrite world_eta. Qed.

Lemma wp_ptr_add b o n blk w Q :
  blocks (mem w) !! b = Some blk →
  (0 ≤ o + n ≤ Z.of_nat (length blk))%Z →
  Q (Ok (Loc b (o + n))) w →
  wp (ptr_add (Loc b o) n) w Q.
Proof.
  intros Hb Hn HQ. unfold wp, ptr_add, lift. rewrite Hb.
  rewrite decide_True by done. simpl. by rewrite world_eta.
Qed.

Lemma wp_deref p s w Q :
  slot_at (mem w) p = Some s → Q (Ok p) w → wp (deref p) w Q.
Proof.
  intros Hs HQ. unfold wp, deref, lift. rewrite Hs. simpl.
  by rewrite world_eta.
Qed.

Lemma wp_load p x w Q :
  slot_at (mem w) p = Some (Live x) → Q (Ok x) w → wp (load p) w Q.
Proof.
  intros Hs HQ. unfold wp, load, lift. rewrite Hs. simpl.
  by rewrite world_eta.
Qed.

Lemma wp_allocate_ok (a : A) n w Q :
  n ≤ max_size_of a →
  Q (Ok (Loc (next_block (mem w)) 0))
    {| objs := objs w;
       mem := {| blocks := <[next_block (mem w) := replicate (N.to_nat n) Raw]>
                             (blocks (mem w));
                 next_block := S (next_block (mem w));
                 destroyed := destroyed (mem w) |} |} →
  wp (allocate a n) w Q.
Proof.
  intros Hn HQ. unfold wp, allocate, lift. by rewrite decide_True by done.
Qed.

Lemma wp_deallocate (a : A) b blk n w Q :
  blocks (mem w) !! b = Some blk → N.of_nat (length blk) = n →
  Q (Ok tt) {| objs := objs w;
               mem := with_blocks (mem w) (delete b (blocks (mem w))) |} →
  wp (deallocate a (Loc b 0) n) w Q.
Proof.
  intros Hb Hn HQ. unfold wp, deallocate, lift. rewrite Hb.
  by rewrite decide_True by done.
Qed.

Lemma wp_construct_copy `{!Regular T} (a : A) p s x w Q :
  slot_at (mem w) p = Some s →
  Q (Ok tt) {| objs := objs w; mem := set_slot (mem w) p (Live x) |} →
  wp (construct_copy a p x) w Q.
Proof.
  intros Hs HQ. unfold wp, construct_copy, emplace, lift.
  by rewrite Hs, copy_construct_ok.
Qed.

Lemma wp_construct_move `{!Regular T} (a : A) p s x w Q :
  slot_at (mem w) p = Some s →
  Q (Ok tt) {| objs := objs w; mem := set_slot (mem w) p (Live x) |} →
  wp (construct_move a p x) w Q.
Proof.
  intros Hs HQ. unfold wp, construct_move, emplace, lift. rewrite Hs.
  by destruct (move_construct_ok x) as [r ->].
Qed.

Lemma wp_construct_move_from `{!Regular T} (a : A) p q s x w Q :
  slot_at (mem w) p = Some s → slot_at (mem w) q = Some (Live x) →
  (∀ r, Q (Ok tt)
     {| objs := objs w;
        mem := set_slot (set_slot (mem w) q (Live r)) p (Live x) |}) →
  wp (construct_move_from a p q) w Q.
Proof.
  intros Hp Hq HQ. unfold wp, construct_move_from, lift. rewrite Hp, Hq.
  destruct (move_construct_ok x) as [r ->]. apply HQ.
Qed.

Lemma wp_destroy (a : A) p x w Q :
  slot_at (mem w) p = Some (Live x) →
  Q (Ok tt)
    {| objs := objs w;
       mem := {| blocks := blocks (set_slot (mem w) p Raw);
                 next_block := next_block (mem w);
                 destroyed := destroyed (mem w) ++ [x] |} |} →
  wp (destroy a p) w Q.
Proof.
  intros Hs HQ. unfold wp, destroy, lift. rewrite Hs. simpl.
  by rewrite next_block_set_slot.
Qed.

(** *** The loops over a buffer *)

Lemma wp_ptr_add_base b (k : nat) blk w Q :
  blocks (mem w) !! b = Some blk → (k ≤ length blk)%nat →
  Q (Ok (Loc b (Z.of_nat k))) w →
  wp (ptr_add (Loc b 0) (Z.of_N (N.of_nat k))) w Q.
Proof.
  intros Hb Hk HQ. eapply wp_ptr_add; [done|lia|].
  by rewrite Z.add_0_l, nat_N_Z.
Qed.

Lemma wp_data_plus this v b (k : nat) blk w Q :
  objs w !! this = Some v → data_ v = Loc b 0 →
  blocks (mem w) !! b = Some blk → (k ≤ length blk)%nat →
  Q (Ok (Loc b (Z.of_nat k))) w →
  wp (data_plus this (N.of_nat k)) w Q.
Proof.
  intros Hv Hd Hb Hk HQ. unfold data_plus. wp_get. rewrite Hd.
  by eapply wp_ptr_add_base.
Qed.

Lemma wp_data_at this v b (k : nat) blk s w Q :
  objs w !! this = Some v → data_ v = Loc b 0 →
  blocks (mem w) !! b = Some blk → blk !! k = Some s →
  Q (Ok (Loc b (Z.of_nat k))) w →
  wp (data_at this (N.of_nat k)) w Q.
Proof.
  intros Hv Hd Hb Hk HQ. unfold data_at. apply wp_bind.
  eapply wp_data_plus; [done..| |].
  { apply lookup_lt_Some in Hk. lia. }
  eapply wp_deref; [|done]. by rewrite (slot_at_index _ _ _ _ Hb).
Qed.

Lemma length_buffer_of (l : list T) cap :
  N.of_nat (length l) ≤ cap → length (buffer_of l cap) = N.to_nat cap.
Proof.
  intros Hl. unfold buffer_of.
  rewrite length_app, length_fmap, length_replicate. lia.
Qed.

Lemma destroy_loop this v b (tail : list (slot T)) (rest : list T) :
  ∀ (k : nat) w,
  objs w !! this = Some v → data_ v = Loc b 0 →
  blocks (mem w) !! b = Some (replicate k Raw ++ (Live <$> rest) ++ tail) →
  wp (for_from (N.of_nat k) (length rest)
        (λ i, p ← data_plus this i; destroy (alloc_ v) p)) w
     (λ r w', r = Ok tt ∧ objs w' = objs w ∧
        next_block (mem w') = next_block (mem w) ∧
        blocks (mem w') !! b = Some (replicate (k + length rest) Raw ++ tail) ∧
        destroyed (mem w') = destroyed (mem w) ++ rest).
Proof.
  induction rest as [|x rest IH]; intros k w Hv Hd Hb; simpl.
  - apply wp_ret. rewrite Nat.add_0_r, app_nil_r. done.
  - do 2 apply wp_bind. eapply wp_data_plus; [done..| |].
    { rewrite !length_app, length_replicate. simpl. lia. }
    eapply wp_destroy.
    { rewrite (slot_at_index _ _ _ _ Hb).
      rewrite lookup_app_r by (rewrite length_replicate; lia).
      by rewrite length_replicate, Nat.sub_diag. }
    replace (N.of_nat k + 1) with (N.of_nat (S k)) by lia.
    eapply wp_mono.
    { apply IH; cbn [mem blocks objs]; [done..|].
      rewrite (blocks_set_slot _ _ _ _ _ Hb).
      rewrite insert_app_r_alt by (rewrite length_replicate; lia).
      rewrite length_replicate, Nat.sub_diag. simpl.
      by rewrite (app_comm_cons (replicate k Raw)), replicate_cons_app,
        <-app_assoc. }
    cbn [mem blocks objs next_block destroyed].
    intros r w' (-> & -> & -> & Hb' & ->). split_and!; try done.
    + rewrite Hb'. do 3 f_equal. lia.
    + by rewrite <-app_assoc.
Qed.

(** *** The calls on a vector that holds what the data model says *)

Lemma field_run {X} (f : vec → X) this v w :
  objs w !! this = Some v → field f this w = (Ok (f v), w).
Proof. intros Hv. unfold field, object. by rewrite bind_unfold, Hv. Qed.

Lemma clear_holds this a (l : list T) cap w :
  holds this a l cap w →
  wp (clear this) w (λ r w',
    r = Ok tt ∧ holds this a [] cap w' ∧
    field data_ this w' = (Ok (default nullptr (data_ <$> objs w !! this)), w') ∧
    destroyed (mem w') = destroyed (mem w) ++ l).
Proof.
  intros (v & Hv & Ha & Hsize & Hcap & Hle & Hmax & Hdata).
  unfold clear. wp_get. wp_get. unfold for_. apply wp_bind.
  rewrite Hsize, N.sub_0_r, Nat2N.id.
  destruct (data_ v) as [|b o] eqn:Hd.
  - assert (l = []) as -> by (destruct l; [done|simpl in *; lia]).
    simpl. wp_set. split_and!; try done.
    + eexists. split; [apply lookup_insert_eq|]. by rewrite Hd.
    + erewrite field_run by apply lookup_insert_eq. simpl. by rewrite Hd.
    + by rewrite app_nil_r.
  - destruct Hdata as (-> & Hlt & Hb).
    eapply wp_mono.
    { by apply (destroy_loop this v b (replicate (N.to_nat cap - length l) Raw)
                l 0 w Hv Hd). }
    cbn beta. intros r w' (-> & Ho & Hnext & Hb' & Hdes).
    wp_set. split_and!; try done.
    + eexists. split; [apply lookup_insert_eq|]. simpl.
      split_and!; try done; try lia. rewrite Hd. split_and!; try done; try lia.
      rewrite Hb'. unfold buffer_of. simpl. rewrite <-replicate_add.
      do 2 f_equal. lia.
    + erewrite field_run by apply lookup_insert_eq. simpl. by rewrite Hd.
Qed.

Lemma wp_try_for_step i c body h w Q :
  wp (body i) w (λ r w',
    match r with
    | Ok _ => wp (try_for_from (i + 1) c body h) w' Q
    | Throw e => wp (h i e) w' Q
    | Undefined => Q Undefined w'
    | Abort => Q Abort w'
    end) →
  wp (try_for_from i (S c) body h) w Q.
Proof.
  unfold wp. simpl. by destruct (body i w) as [[[]|e| |] w'].
Qed.

Lemma move_step_blocks m b nb (k : nat) blk nblk r x :
  b ≠ nb → blocks m !! b = Some blk → blocks m !! nb = Some nblk →
  let m' := set_slot (set_slot m (Loc b (Z.of_nat k)) (Live r))
              (Loc nb (Z.of_nat k)) (Live x) in
  blocks m' !! b = Some (<[k := Live r]> blk) ∧
  blocks m' !! nb = Some (<[k := Live x]> nblk).
Proof.
  intros Hne Hb Hnb. split.
  - rewrite blocks_set_slot_ne by done. by apply blocks_set_slot.
  - apply blocks_set_slot. by rewrite blocks_set_slot_ne by done.
Qed.

Lemma move_loop `{!Regular T} this v b nb h (tail : list (slot T))
    (rest : list T) :
  ∀ (moved : list T) (extra : nat) w,
  objs w !! this = Some v → data_ v = Loc b 0 → b ≠ nb →
  blocks (mem w) !! b =
    Some (replicate (length moved) Raw ++ (Live <$> rest) ++ tail) →
  blocks (mem w) !! nb =
    Some ((Live <$> moved) ++ replicate (length rest + extra) Raw) →
  wp (try_for_from (N.of_nat (length moved)) (length rest)
        (λ i,
           src ← data_at this i;
           dst ← ptr_add (Loc nb 0) (Z.of_N i);
           construct_move_from (alloc_ v) dst src;;
           p ← data_plus this i;
           destroy (alloc_ v) p) h) w
     (λ r w', r = Ok tt ∧ objs w' = objs w ∧
        next_block (mem w') = next_block (mem w) ∧
        blocks (mem w') !! b =
          Some (replicate (length moved + length rest) Raw ++ tail) ∧
        blocks (mem w') !! nb =
          Some ((Live <$> moved ++ rest) ++ replicate extra Raw)).
Proof.
  induction rest as [|x rest IH]; intros moved extra w Hv Hd Hne Hb Hnb.
  - apply wp_ret. rewrite Nat.add_0_r, app_nil_r. done.
  - cbn [length]. apply wp_try_for_step.
    set (k := length moved) in *.
    assert (Hbk : (replicate k Raw ++ (Live <$> x :: rest) ++ tail) !! k
                  = Some (Live x)).
    { rewrite lookup_app_r by (rewrite length_replicate; lia).
      by rewrite length_replicate, Nat.sub_diag. }
    assert (Hnbk : ((Live <$> moved) ++
                    replicate (length (x :: rest) + extra) (@Raw T)) !! k
                   = Some Raw).
    { rewrite lookup_app_r by (rewrite length_fmap; lia).
      rewrite length_fmap. subst k. by rewrite Nat.sub_diag. }
    apply wp_bind. eapply wp_data_at; [done..|].
    apply wp_bind. eapply wp_ptr_add_base; [done| |].
    { apply lookup_lt_Some in Hnbk. lia. }
    apply wp_bind. eapply wp_construct_move_from.
    { by rewrite (slot_at_index _ _ _ _ Hnb). }
    { by rewrite (slot_at_index _ _ _ _ Hb). }
    intros r.
    destruct (move_step_blocks (mem w) b nb k _ _ r x Hne Hb Hnb)
      as [Hb2 Hnb2].
    apply wp_bind. eapply wp_data_plus; [done..| |].
    { rewrite length_insert. apply lookup_lt_Some in Hbk. lia. }
    eapply wp_destroy.
    { cbn [mem]. rewrite (slot_at_index _ _ _ _ Hb2).
      apply list_lookup_insert_eq. by apply lookup_lt_Some in Hbk. }
    replace (N.of_nat k + 1) with (N.of_nat (length (moved ++ [x])))
      by (rewrite length_app; simpl; lia).
    eapply wp_mono.
    { apply (IH (moved ++ [x]) extra); cbn [mem blocks objs]; try done.
      - rewrite (blocks_set_slot _ _ _ _ _ Hb2). f_equal.
        rewrite list_insert_insert_eq.
        rewrite insert_app_r_alt by (rewrite length_replicate; lia).
        rewrite length_replicate, length_app. simpl.
        replace (k - k)%nat with 0%nat by lia. simpl.
        replace (length moved + 1)%nat with (S k) by (subst k; lia).
        by rewrite replicate_S_end, <-app_assoc.
      - rewrite blocks_set_slot_ne by done. rewrite Hnb2. f_equal.
        rewrite insert_app_r_alt by (rewrite length_fmap; lia).
        rewrite length_fmap. replace (k - length moved)%nat with 0%nat by lia.
        simpl. by rewrite fmap_app, <-app_assoc. }
    cbn [mem blocks objs next_block].
    intros r' w' (-> & -> & -> & Hb' & Hnb'). split_and!; try done.
    + rewrite Hb'. rewrite length_app. simpl. do 3 f_equal. lia.
    + rewrite Hnb'. by rewrite <-app_assoc.
Qed.

Lemma reallocate_holds `{!Regular T} this a (l : list T) cap n w :
  holds this a l cap w → N.of_nat (length l) ≤ n → n ≤ max_size_of a →
  wp (reallocate this n) w (λ r w',
    r = Ok tt ∧ holds this a l n w' ∧
    next_block (mem w') = S (next_block (mem w))).
Proof.
  intros (v & Hv & Ha & Hsize & Hcap & Hle & Hmax & Hdata) Hn Hna.
  assert (n ≤ PTRDIFF_MAX) by (etrans; [done|apply max_size_of_le]).
  unfold reallocate. wp_get. rewrite Ha.
  apply wp_bind. eapply wp_allocate_ok; [done|].
  set (nb := next_block (mem w)).
  wp_get. apply wp_bind. unfold try_for.
  rewrite Hsize, N.sub_0_r, Nat2N.id.
  destruct (data_ v) as [|b o] eqn:Hd.
  - assert (l = []) as -> by (destruct l; [done|simpl in *; lia]).
    apply wp_ret. wp_get. wp_get. rewrite Hd. rewrite decide_False by naive_solver.
    apply wp_bind, wp_ret. do 2 wp_set. split_and!; try done.
    eexists. split; [apply lookup_insert_eq|]. simpl. split_and!; try done.
    + lia.
    + rewrite lookup_insert_eq. unfold buffer_of. simpl. do 2 f_equal. lia.
  - destruct Hdata as (-> & Hlt & Hb).
    eapply wp_mono.
    { rewrite <-Ha.
      apply (move_loop this v b nb _ (replicate (N.to_nat cap - length l) Raw)
               l [] (N.to_nat n - length l)); cbn [mem blocks objs]; try done.
      - subst nb. lia.
      - rewrite lookup_insert_ne by (subst nb; lia). done.
      - rewrite lookup_insert_eq. simpl. do 2 f_equal. lia. }
    cbn [mem blocks objs next_block].
    intros r w' (-> & Ho & Hnext & Hb' & Hnb').
    wp_get. wp_get. rewrite Hd. rewrite decide_True by done.
    apply wp_bind. eapply wp_deallocate; [done| |].
    { rewrite length_app, !length_replicate. simpl. lia. }
    do 2 wp_set. split_and!; try done.
    eexists. split; [apply lookup_insert_eq|]. simpl. split_and!; try done.
    + rewrite Hnext. lia.
    + rewrite lookup_delete_ne by (subst nb; lia). by rewrite Hnb'.
Qed.

Lemma grow_if_full_holds `{!Regular T} this a (l : list T) cap w :
  holds this a l cap w →
  (cap ≤ N.of_nat (length l) →
   grown (N.of_nat (length l)) cap ≤ max_size_of a) →
  wp (grow_if_full this) w (λ r w',
    r = Ok tt ∧ holds this a l (grown (N.of_nat (length l)) cap) w' ∧
    (N.of_nat (length l) < cap → w' = w)).
Proof.
  intros Hh Hg. pose proof Hh as (v & Hv & Ha & Hsize & Hcap & Hle & Hmax & _).
  pose proof (max_size_of_le a). rewrite PTRDIFF_MAX_eq in *.
  unfold grow_if_full. wp_get. wp_get. unfold grown in *.
  rewrite Hsize, Hcap.
  destruct (decide (N.of_nat (length l) < cap)) as [Hroom|Hfull].
  - rewrite decide_False by lia. by apply wp_ret.
  - rewrite decide_True by lia.
    specialize (Hg ltac:(lia)).
    unfold reserve. wp_get. rewrite Hcap.
    assert ((if decide (cap ≠ 0) then size_t (cap * 2) else 1)
            = (if decide (cap = 0) then 1 else 2 * cap)) as ->.
    { repeat case_decide; try done.
      rewrite size_t_small by (rewrite PTRDIFF_MAX_eq; lia). lia. }
    rewrite decide_False by (case_decide; lia).
    eapply wp_mono; [apply (reallocate_holds this a l cap); try done|].
    + case_decide; lia.
    + cbn beta. intros r w' (-> & Hh' & _). split_and!; try done.
Qed.

Lemma buffer_of_snoc (l : list T) x cap :
  N.of_nat (length l) < cap →
  <[length l := Live x]> (buffer_of l cap) = buffer_of (l ++ [x]) cap.
Proof.
  intros Hlt. unfold buffer_of.
  rewrite insert_app_r_alt by (rewrite length_fmap; lia).
  rewrite length_fmap, Nat.sub_diag.
  destruct (N.to_nat cap - length l)%nat as [|k] eqn:Hk; [lia|].
  simpl. rewrite fmap_app, <-app_assoc. simpl. do 3 f_equal.
  rewrite length_app. simpl. lia.
Qed.

Lemma push_back_holds `{!Regular T} this a (l : list T) cap x w :
  holds this a l cap w →
  (cap ≤ N.of_nat (length l) →
   grown (N.of_nat (length l)) cap ≤ max_size_of a) →
  wp (push_back this x) w (λ r w',
    r = Ok tt ∧
    holds this a (l ++ [x]) (grown (N.of_nat (length l)) cap) w').
Proof.
  intros Hh Hg. unfold push_back. apply wp_bind.
  eapply wp_mono; [by apply grow_if_full_holds|].
  cbn beta. intros r w1 (-> & Hh1 & _).
  assert (N.of_nat (length l) < grown (N.of_nat (length l)) cap) as Hroom.
  { destruct Hh as (_ & _ & _ & _ & _ & ? & _). unfold grown.
    repeat case_decide; lia. }
  set (c := grown _ _) in *. clearbody c. clear Hh Hg w.
  destruct Hh1 as (v & Hv & Ha & Hsize & Hcap & Hle & Hmax & Hdata).
  destruct (data_ v) as [|b o] eqn:Hd; [lia|].
  destruct Hdata as (-> & Hlt & Hb).
  rewrite PTRDIFF_MAX_eq in *.
  wp_get. wp_get. rewrite Hsize.
  apply wp_bind. eapply wp_data_plus; [done..| |].
  { rewrite length_buffer_of by done. lia. }
  assert (is_Some (buffer_of l c !! length l)) as [s Hs].
  { apply lookup_lt_is_Some. rewrite length_buffer_of by done. lia. }
  apply wp_bind. eapply wp_construct_copy.
  { by rewrite (slot_at_index _ _ _ _ Hb). }
  wp_set. rewrite size_t_small by (rewrite PTRDIFF_MAX_eq; lia).
  split; [done|]. eexists. split; [apply lookup_insert_eq|]. simpl.
  rewrite length_app. simpl. split_and!; try done; try lia.
  rewrite Hd. split_and!; try done.
  rewrite lookup_alter_eq, Hb. simpl. by rewrite Nat2Z.id, buffer_of_snoc.
Qed.

Lemma push_back_move_holds `{!Regular T} this a (l : list T) cap x w :
  holds this a l cap w →
  (cap ≤ N.of_nat (length l) →
   grown (N.of_nat (length l)) cap ≤ max_size_of a) →
  wp (push_back_move this x) w (λ r w',
    r = Ok tt ∧
    holds this a (l ++ [x]) (grown (N.of_nat (length l)) cap) w').
Proof.
  intros Hh Hg. unfold push_back_move. apply wp_bind.
  eapply wp_mono; [by apply grow_if_full_holds|].
  cbn beta. intros r w1 (-> & Hh1 & _).
  assert (N.of_nat (length l) < grown (N.of_nat (length l)) cap) as Hroom.
  { destruct Hh as (_ & _ & _ & _ & _ & ? & _). unfold grown.
    repeat case_decide; lia. }
  set (c := grown _ _) in *. clearbody c. clear Hh Hg w.
  destruct Hh1 as (v & Hv & Ha & Hsize & Hcap & Hle & Hmax & Hdata).
  destruct (data_ v) as [|b o] eqn:Hd; [lia|].
  destruct Hdata as (-> & Hlt & Hb).
  rewrite PTRDIFF_MAX_eq in *.
  wp_get. wp_get. rewrite Hsize.
  apply wp_bind. eapply wp_data_plus; [done..| |].
  { rewrite length_buffer_of by done. lia. }
  assert (is_Some (buffer_of l c !! length l)) as [s Hs].
  { apply lookup_lt_is_Some. rewrite length_buffer_of by done. lia. }
  apply wp_bind. eapply wp_construct_move.
  { by rewrite (slot_at_index _ _ _ _ Hb). }
  wp_set. rewrite size_t_small by (rewrite PTRDIFF_MAX_eq; lia).
  split; [done|]. eexists. split; [apply lookup_insert_eq|]. simpl.
  rewrite length_app. simpl. split_and!; try done; try lia.
  rewrite Hd. split_and!; try done.
  rewrite lookup_alter_eq, Hb. simpl. by rewrite Nat2Z.id, buffer_of_snoc.
Qed.

Lemma wp_eq {X} (m : M X) w r0 w0 :
  wp m w (λ r w', r = r0 ∧ w' = w0) → m w = (r0, w0).
Proof. unfold wp. destruct (m w) as [r w']. simpl. by intros [-> ->]. Qed.

Lemma lookup_buffer_of (l : list T) cap k x :
  l !! k = Some x → buffer_of l cap !! k = Some (Live x).
Proof.
  intros Hk. unfold buffer_of.
  rewrite lookup_app_l by (rewrite length_fmap; by eapply lookup_lt_Some).
  by rewrite list_lookup_fmap, Hk.
Qed.

Lemma read_subscript_holds this a (l : list T) cap w k x :
  holds this a l cap w → l !! k = Some x →
  read_subscript this (N.of_nat k) w = (Ok x, w).
Proof.
  intros Hh Hk. apply wp_eq.
  destruct Hh as (v & Hv & Ha & Hsize & Hcap & Hle & Hmax & Hdata).
  destruct (data_ v) as [|b o] eqn:Hd.
  { destruct l; [done|]. simpl in *. lia. }
  destruct Hdata as (-> & Hlt & Hb).
  unfold read_subscript, subscript. apply wp_bind.
  eapply wp_data_at; [done..|by apply lookup_buffer_of|].
  eapply wp_load; [|done].
  rewrite (slot_at_index _ _ _ _ Hb). by apply lookup_buffer_of.
Qed.

Lemma collect_run b (rest : list T) :
  ∀ (pre tail : list (slot T)) fuel w,
  blocks (mem w) !! b = Some (pre ++ (Live <$> rest) ++ tail) →
  (length rest < fuel)%nat →
  wp (collect fuel {| ptr_ := Loc b (Z.of_nat (length pre)) |}
        {| ptr_ := Loc b (Z.of_nat (length pre + length rest)) |}) w
     (λ r w', r = Ok (Some rest) ∧ w' = w).
Proof.
  induction rest as [|x rest IH]; intros pre tail fuel w Hb Hfuel;
    (destruct fuel as [|fuel]; [simpl in Hfuel; lia|]).
  - simpl. unfold iter_ne. simpl. rewrite Nat.add_0_r.
    rewrite bool_decide_false by naive_solver. by apply wp_ret.
  - simpl. unfold iter_ne. simpl.
    rewrite bool_decide_true by (intros [=]; lia).
    assert ((pre ++ (Live <$> x :: rest) ++ tail) !! length pre
            = Some (Live x)) as Hx.
    { rewrite lookup_app_r by lia. by rewrite Nat.sub_diag. }
    apply wp_bind. unfold iter_star. simpl. eapply wp_deref.
    { by rewrite (slot_at_index _ _ _ _ Hb). }
    apply wp_bind. eapply wp_load.
    { by rewrite (slot_at_index _ _ _ _ Hb). }
    apply wp_bind. unfold iter_incr. simpl. apply wp_bind.
    eapply wp_ptr_add; [done| |].
    { apply lookup_lt_Some in Hx. lia. }
    apply wp_ret. apply wp_bind.
    replace (Z.of_nat (length pre) + 1)%Z
      with (Z.of_nat (length (pre ++ [Live x])))
      by (rewrite length_app; simpl; lia).
    replace (length pre + S (length rest))%nat
      with (length (pre ++ [Live x]) + length rest)%nat
      by (rewrite length_app; simpl; lia).
    eapply wp_mono.
    { apply (IH (pre ++ [Live x]) tail fuel w).
      - by rewrite <-app_assoc.
      - simpl in Hfuel. lia. }
    cbn beta. intros r w' [-> ->]. by apply wp_ret.
Qed.

Lemma traverse_holds this a (l : list T) cap w fuel :
  holds this a l cap w → (length l < fuel)%nat →
  traverse fuel this w = (Ok (Some l), w).
Proof.
  intros Hh Hfuel. apply wp_eq.
  destruct Hh as (v & Hv & Ha & Hsize & Hcap & Hle & Hmax & Hdata).
  unfold traverse, begin, end_. apply wp_bind. wp_get. apply wp_ret.
  apply wp_bind. wp_get. rewrite Hsize. apply wp_bind.
  destruct (data_ v) as [|b o] eqn:Hd.
  - assert (l = []) as -> by (destruct l; [done|simpl in *; lia]).
    unfold data_plus. wp_get. rewrite Hd.
    apply wp_ptr_add_null, wp_ret.
    destruct fuel as [|fuel]; [simpl in Hfuel; lia|]. by apply wp_ret.
  - destruct Hdata as (-> & Hlt & Hb).
    eapply wp_data_plus; [done..| |].
    { rewrite length_buffer_of by done. lia. }
    apply wp_ret.
    apply (collect_run b l [] (replicate (N.to_nat cap - length l) Raw)
             fuel w); done.
Qed.

(** *** Sequences of appends *)

Lemma grown_bound (l : list T) cap (n : nat) a :
  N.of_nat (length l) ≤ cap →
  2 * N.of_nat (length l + S n) ≤ max_size_of a →
  cap ≤ N.of_nat (length l) →
  grown (N.of_nat (length l)) cap ≤ max_size_of a.
Proof. intros Hle Hmax Hfull. unfold grown. repeat case_decide; lia. Qed.

Lemma holds_le this a (l : list T) cap w :
  holds this a l cap w → N.of_nat (length l) ≤ cap.
Proof. by intros (v & _ & _ & _ & _ & Hle & _). Qed.

Lemma holds_capacity this a (l : list T) cap w :
  holds this a l cap w → capacity this w = (Ok cap, w).
Proof.
  intros (v & Hv & _ & _ & Hcap & _). unfold capacity.
  by rewrite (field_run _ _ _ _ Hv), Hcap.
Qed.

Lemma holds_size this a (l : list T) cap w :
  holds this a l cap w → size this w = (Ok (N.of_nat (length l)), w).
Proof.
  intros (v & Hv & _ & Hsize & _). unfold size.
  by rewrite (field_run _ _ _ _ Hv), Hsize.
Qed.

Lemma push_back_as_holds `{!Regular T} rvalue this a (l : list T) cap x w :
  holds this a l cap w →
  (cap ≤ N.of_nat (length l) →
   grown (N.of_nat (length l)) cap ≤ max_size_of a) →
  wp (push_back_as rvalue this x) w (λ r w',
    r = Ok tt ∧
    holds this a (l ++ [x]) (grown (N.of_nat (length l)) cap) w').
Proof.
  destruct rvalue; [apply push_back_move_holds|apply push_back_holds].
Qed.

Lemma push_back_each_holds `{!Regular T} this a (appends : list (bool * T)) :
  ∀ (l : list T) cap w,
  holds this a l cap w →
  2 * N.of_nat (length l + length appends) ≤ max_size_of a →
  wp (push_back_each this appends) w (λ r w',
    r = Ok (capacities (N.of_nat (length l)) cap (length appends)) ∧
    ∃ cap', holds this a (l ++ appends.*2) cap' w').
Proof.
  induction appends as [|[rv x] appends IH]; intros l cap w Hh Hmax.
  - apply wp_ret. split; [done|]. exists cap. by rewrite app_nil_r.
  - simpl. apply wp_bind. eapply wp_mono.
    { apply push_back_as_holds; [done|].
      eapply grown_bound; [by eapply holds_le|done]. }
    cbn beta. intros r w1 (-> & Hh1). apply wp_bind.
    unfold wp at 1. rewrite (holds_capacity _ _ _ _ _ Hh1). simpl.
    apply wp_bind. eapply wp_mono.
    { apply (IH (l ++ [x]) _ w1 Hh1). rewrite length_app. simpl in *. lia. }
    cbn beta. intros r w' (-> & cap' & Hh'). apply wp_ret.
    rewrite <-app_assoc in Hh'. split; [|by exists cap'].
    rewrite length_app. simpl. do 3 f_equal. lia.
Qed.

Lemma for_each_push_back_holds `{!Regular T} this a
    (appends : list (bool * T)) :
  ∀ (l : list T) cap w,
  holds this a l cap w →
  2 * N.of_nat (length l + length appends) ≤ max_size_of a →
  wp (for_each appends (λ rx, push_back_as rx.1 this rx.2)) w (λ r w',
    r = Ok tt ∧ ∃ cap', holds this a (l ++ appends.*2) cap' w').
Proof.
  induction appends as [|[rv x] appends IH]; intros l cap w Hh Hmax.
  - apply wp_ret. split; [done|]. exists cap. by rewrite app_nil_r.
  - simpl. apply wp_bind. eapply wp_mono.
    { apply push_back_as_holds; [done|].
      eapply grown_bound; [by eapply holds_le|done]. }
    cbn beta. intros r w1 (-> & Hh1). eapply wp_mono.
    { apply (IH (l ++ [x]) _ w1 Hh1). rewrite length_app. simpl in *. lia. }
    cbn beta. intros r w' (-> & cap' & Hh').
    rewrite <-app_assoc in Hh'. split; [done|by exists cap'].
Qed.

Lemma for_from_push_back_holds `{!Regular T} this a x (count : nat) :
  ∀ i (l : list T) cap w,
  holds this a l cap w →
  2 * N.of_nat (length l + count) ≤ max_size_of a →
  wp (for_from i count (λ _, push_back this x)) w (λ r w',
    r = Ok tt ∧ ∃ cap', holds this a (l ++ replicate count x) cap' w').
Proof.
  induction count as [|count IH]; intros i l cap w Hh Hmax.
  - apply wp_ret. split; [done|]. exists cap. by rewrite app_nil_r.
  - simpl. apply wp_bind. eapply wp_mono.
    { apply push_back_holds; [done|].
      eapply grown_bound; [by eapply holds_le|done]. }
    cbn beta. intros r w1 (-> & Hh1). eapply wp_mono.
    { apply (IH (i + 1) (l ++ [x]) _ w1 Hh1). rewrite length_app. simpl. lia. }
    cbn beta. intros r w' (-> & cap' & Hh').
    rewrite <-app_assoc in Hh'. split; [done|by exists cap'].
Qed.

(** *** The doubling law, as arithmetic *)

Lemma pow2_pos (e : N) : 1 ≤ 2 ^ e.
Proof. pose proof (N.pow_nonzero 2 e). lia. Qed.

Lemma pow2_double (k : nat) :
  (1 ≤ k)%nat → 2 * 2 ^ N.of_nat (k - 1) = 2 ^ N.of_nat (k + 1 - 1).
Proof.
  intros Hk. replace (N.of_nat (k + 1 - 1)) with (N.succ (N.of_nat (k - 1)))
    by lia. by rewrite N.pow_succ_r'.
Qed.

Lemma capacities_law (n : nat) :
  ∀ len cap (k : nat),
  (cap = 0 ∧ k = 0%nat ∧ len = 0) ∨
  ((1 ≤ k)%nat ∧ cap = 2 ^ N.of_nat (k - 1) ∧ len ≤ cap) →
  ∀ j c, capacities len cap n !! j = Some c →
  (1 ≤ k + growth_events cap (take (S j) (capacities len cap n)))%nat ∧
  c = 2 ^ N.of_nat
        (k + growth_events cap (take (S j) (capacities len cap n)) - 1).
Proof.
  induction n as [|n IH]; intros len cap k Hinv j c Hj; [done|].
  cbn [capacities] in *.
  set (g := grown len cap) in *.
  set (e := if decide (g = cap) then 0%nat else 1%nat).
  assert ((1 ≤ k + e)%nat ∧ g = 2 ^ N.of_nat (k + e - 1) ∧ len + 1 ≤ g)
    as Hinv'.
  { subst g e. unfold grown.
    destruct Hinv as [(-> & -> & ->)|(Hk & -> & Hlen)].
    - repeat case_decide; try lia. simpl. split_and!; [lia|done|lia].
    - pose proof (pow2_pos (N.of_nat (k - 1))).
      pose proof (pow2_double k Hk).
      repeat case_decide; try lia.
      rewrite Nat.add_0_r. split_and!; [lia|done|lia]. }
  destruct j as [|j].
  - simpl in Hj. simplify_eq. cbn [take growth_events]. fold e.
    rewrite Nat.add_0_r. by destruct Hinv' as (? & ? & _).
  - simpl in Hj. cbn [take growth_events]. fold e.
    rewrite Nat.add_assoc. apply (IH (len + 1) g (k + e)%nat); [|done].
    by right.
Qed.

Lemma capacities_length len cap n : length (capacities len cap n) = n.
Proof.
  revert len cap. induction n as [|n IH]; intros len cap; simpl; [done|].
  by rewrite IH.
Qed.

Lemma capacities_doubling (n j : nat) c :
  capacities 0 0 n !! j = Some c →
  c = N.max 1
        (2 ^ N.of_nat (growth_events 0 (take (S j) (capacities 0 0 n)) - 1)).
Proof.
  intros Hj. destruct (capacities_law n 0 0 0%nat) with (j := j) (c := c)
    as [_ ->]; [by left|done|].
  simpl. pose proof (pow2_pos
    (N.of_nat (growth_events 0 (take (S j) (capacities 0 0 n)) - 1))).
  lia.
Qed.

(** *** A push_back with room to spare *)

Lemma grow_if_full_room this v w :
  objs w !! this = Some v → size_ v < capacity_ v →
  grow_if_full this w = (Ok tt, w).
Proof.
  intros Hv Hlt. unfold grow_if_full.
  rewrite (bind_ok _ _ _ _ _ (field_run _ _ _ _ Hv)).
  rewrite (bind_ok _ _ _ _ _ (field_run _ _ _ _ Hv)).
  by rewrite decide_False by lia.
Qed.

Lemma wp_ptr_add_any p n w Q :
  (∀ r, Q r w) → wp (ptr_add p n) w Q.
Proof.
  intros HQ. unfold wp, ptr_add, lift.
  destruct p as [|b o]; [case_decide|destruct (blocks (mem w) !! b);
    [case_decide|]]; simpl; rewrite world_eta; apply HQ.
Qed.

Lemma wp_emplace_any p made w Q :
  (∀ r, Q r w) →
  (∀ x, Q (Ok tt) {| objs := objs w; mem := set_slot (mem w) p (Live x) |}) →
  wp (emplace p made) w Q.
Proof.
  intros HQ HOk. unfold wp, emplace, lift.
  destruct (slot_at (mem w) p); [destruct made|]; simpl;
    try (rewrite world_eta; apply HQ). apply HOk.
Qed.

Lemma dom_set_slot m p s : dom (blocks (set_slot m p s)) = dom (blocks m).
Proof.
  destruct p as [|b o]; [done|]. unfold set_slot. simpl.
  apply set_eq. intros b'. rewrite !elem_of_dom.
  destruct (decide (b = b')) as [->|Hne].
  - rewrite lookup_alter_eq. by rewrite fmap_is_Some.
  - by rewrite lookup_alter_ne.
Qed.

Lemma push_back_room rvalue this v x w :
  objs w !! this = Some v → size_ v < capacity_ v →
  wp (push_back_as rvalue this x) w (λ r w',
    next_block (mem w') = next_block (mem w) ∧
    dom (blocks (mem w')) = dom (blocks (mem w)) ∧
    ∃ v', objs w' !! this = Some v' ∧ data_ v' = data_ v ∧
          capacity_ v' = capacity_ v).
Proof.
  intros Hv Hlt.
  assert (∀ w', objs w' !! this = Some v →
    ∃ v', objs w' !! this = Some v' ∧ data_ v' = data_ v ∧
          capacity_ v' = capacity_ v) as Hsame by eauto.
  destruct rvalue; simpl; [unfold push_back_move|unfold push_back];
    (apply wp_bind;
     unfold wp at 1; rewrite (grow_if_full_room _ _ _ Hv Hlt); simpl;
     wp_get; wp_get; apply wp_bind; unfold data_plus; wp_get;
     apply wp_ptr_add_any; intros [p|e| |]; try (by eauto);
     apply wp_bind; apply wp_emplace_any;
     [ intros [[]|e| |]; try (by eauto); wp_set; split_and!; try done;
       eexists; by rewrite lookup_insert_eq
     | intros x'; wp_set; rewrite next_block_set_slot, dom_set_slot;
       split_and!; try done; eexists; by rewrite lookup_insert_eq ]).
Qed.

(** *** Calls that neither throw nor change the state *)

Lemma quiet_ret {X} (x : X) : quiet (mret x : M X).
Proof. by intros w. Qed.

Lemma quiet_bind {X Y} (m : M X) (k : X → M Y) :
  quiet m → (∀ x, quiet (k x)) → quiet (m ≫= k).
Proof.
  intros Hm Hk w. rewrite bind_unfold. destruct (Hm w) as [Hw He].
  destruct (m w) as [[x|e| |] w']; simpl in *; subst; try done.
  - apply Hk.
  - by destruct (He e).
Qed.

Lemma quiet_object this : quiet (object this : M vec).
Proof. intros w. unfold object. by destruct (objs w !! this). Qed.

Lemma quiet_field {X} (f : vec → X) this : quiet (field f this : M X).
Proof. apply quiet_bind; [apply quiet_object|intros; apply quiet_ret]. Qed.

Lemma quiet_ptr_add p n : quiet (ptr_add p n : M ptr).
Proof.
  intros w. unfold ptr_add, lift.
  destruct p as [|b o]; [case_decide|destruct (blocks (mem w) !! b);
    [case_decide|]]; simpl; by rewrite world_eta.
Qed.

Lemma quiet_deref p : quiet (deref p : M ptr).
Proof.
  intros w. unfold deref, lift.
  destruct (slot_at (mem w) p); simpl; by rewrite world_eta.
Qed.

Lemma quiet_data_at this i : quiet (data_at this i : M ptr).
Proof.
  apply quiet_bind; [|intros; apply quiet_deref].
  apply quiet_bind; [apply quiet_field|intros; apply quiet_ptr_add].
Qed.

Lemma quiet_begin_star this :
  quiet (it ← begin this; iter_star it : M ptr).
Proof.
  apply quiet_bind; [|intros; apply quiet_deref].
  apply quiet_bind; [apply quiet_field|intros; apply quiet_ret].
Qed.

Lemma quiet_end_minus_star this :
  quiet (it ← end_ this; it' ← iter_minus it 1; iter_star it' : M ptr).
Proof.
  apply quiet_bind.
  { apply quiet_bind; [apply quiet_field|intros].
    apply quiet_bind; [|intros; apply quiet_ret].
    apply quiet_bind; [apply quiet_field|intros; apply quiet_ptr_add]. }
  intros it. apply quiet_bind; [|intros; apply quiet_deref].
  apply quiet_bind; [apply quiet_ptr_add|intros; apply quiet_ret].
Qed.

Lemma empty_run this v w :
  objs w !! this = Some v →
  empty this w = (Ok (bool_decide (size_ v = 0)), w).
Proof.
  intros Hv. unfold empty.
  by rewrite (bind_ok _ _ _ _ _ (field_run _ _ _ _ Hv)).
Qed.

(** *** The move assignment and the growing resize, for every vector *)

(** A move assignment between two distinct vectors returns with the
    members of [other] as they were and those of [this] reset. *)
Lemma assign_move_objs this other w :
  this ≠ other →
  wp (assign_move this other) w (λ r w',
    match r with
    | Ok _ => ∃ v o a, objs w !! this = Some v ∧ objs w !! other = Some o ∧
        objs w' !! other = Some o ∧
        objs w' = <[this := mk nullptr 0 0 a]> (objs w)
    | _ => True
    end).
Proof.
  intros Hne. unfold assign_move. rewrite decide_True by done.
  apply wp_bind.
  eapply wp_mono; [apply clear_objs|]. intros [[]|e| |] w1; try done.
  intros (v & Hv & Ho1).
  wp_get. wp_heap; try done. wp_get. rename v0 into o. do 3 wp_set.
  destruct propagate_on_container_move_assignment.
  - do 4 wp_set. exists v, o, (alloc_ o). split_and!; try done.
    + rewrite !insert_insert_eq, lookup_insert_ne by done. objs_done.
    + objs_done.
  - apply wp_bind, wp_ret. do 3 wp_set.
    exists v, o, (alloc_ v). split_and!; try done.
    + rewrite !insert_insert_eq, lookup_insert_ne by done. objs_done.
    + objs_done.
Qed.

(** [resize(new_size)] above the size returns with the new size and has
    touched neither the memory nor any other member. *)
Lemma resize_growth this v new_size w :
  objs w !! this = Some v → size_ v < new_size →
  resize this new_size w =
    (Ok tt, {| objs := <[this := mk (data_ v) new_size (capacity_ v)
                                    (alloc_ v)]> (objs w);
               mem := mem w |}).
Proof.
  intros Hv Hlt. unfold resize.
  rewrite (bind_ok _ _ _ _ _ (field_run _ _ _ _ Hv)).
  rewrite (bind_ok _ _ _ _ _ (field_run _ _ _ _ Hv)).
  rewrite decide_False by lia. rewrite decide_True by done.
  unfold for_. replace (size_ v - new_size) with 0 by lia. simpl.
  rewrite bind_unfold. unfold ret, set_size_.
  rewrite bind_unfold. unfold object. by rewrite Hv.
Qed.

(** ** The claims *)

(** C2, as amended.  In every state a program reaches whose calls of
    [resize] ask for no more than the capacity, every vector has
    [size <= capacity]. *)
Theorem size_le_capacity_within_contract w :
  reachable_within_contract w → size_le_capacity w.
Proof.
  intros Hr this v Hv.
  by destruct (reachable_within_contract_sound w Hr this v Hv).
Qed.

(** (C5 follows the lemmas on arguments inside the buffer, further down.) *)

(** C6.  Starting from an empty vector of capacity 0, after each
    [push_back] the capacity is [max(1, 2^(k-1))], where [k] counts the
    growth events so far; and a [push_back] that finds
    [size() < capacity()] allocates and releases no block and leaves the
    buffer and the capacity as they are. *)
Theorem growth_doubling `{!Regular T} this a (appends : list (bool * T)) w :
  holds this a [] 0 w →
  2 * N.of_nat (length appends) ≤ max_size_of a →
  (∃ history w',
     push_back_each this appends w = (Ok history, w') ∧
     length history = length appends ∧
     ∀ j c, history !! j = Some c →
       c = N.max 1
             (2 ^ N.of_nat (growth_events 0 (take (S j) history) - 1))) ∧
  (∀ rvalue w0 v x, objs w0 !! this = Some v → size_ v < capacity_ v →
     let w' := (push_back_as rvalue this x w0).2 in
     next_block (mem w') = next_block (mem w0) ∧
     dom (blocks (mem w')) = dom (blocks (mem w0)) ∧
     ∃ v', objs w' !! this = Some v' ∧ data_ v' = data_ v ∧
           capacity_ v' = capacity_ v).
Proof.
  intros Hh Hmax. split.
  - pose proof (push_back_each_holds this a appends [] 0 w Hh Hmax) as Hwp.
    unfold wp in Hwp. destruct (push_back_each this appends w) as [r w'].
    simpl in Hwp. destruct Hwp as [-> _].
    eexists _, _. split_and!; [done|apply capacities_length|].
    intros j c. apply capacities_doubling.
  - intros rvalue w0 v x Hv Hlt.
    apply (push_back_room rvalue this v x w0 Hv Hlt).
Qed.

(** C7.  [at(i)] throws [out_of_range] when [i >= size], in particular
    for [i = size()], and throws nothing when [i < size]; it never
    changes the state.  [front()] and [back()] throw [runtime_error]
    when the vector is empty and throw nothing otherwise.  [pop_back()]
    on an empty vector returns and changes nothing. *)
Theorem access_boundaries this v w index :
  objs w !! this = Some v →
  (size_ v ≤ index →
     at_ this index w = (Throw (out_of_range "Index out of range"), w)) ∧
  (index < size_ v → ∀ e, (at_ this index w).1 ≠ Throw e) ∧
  (at_ this index w).2 = w ∧
  at_ this (size_ v) w = (Throw (out_of_range "Index out of range"), w) ∧
  (size_ v = 0 →
     front this w =
       (Throw (runtime_error
          "Unable to get reference to last element. Vector is empty."), w) ∧
     back this w =
       (Throw (runtime_error
          "Unable to get reference to last element. Vector is empty."), w)) ∧
  (size_ v ≠ 0 →
     ∀ e, (front this w).1 ≠ Throw e ∧ (back this w).1 ≠ Throw e) ∧
  (size_ v = 0 → pop_back this w = (Ok tt, w)).
Proof.
  intros Hv.
  assert (∀ i, size_ v ≤ i →
    at_ this i w = (Throw (out_of_range "Index out of range"), w)) as Hat.
  { intros i Hi. unfold at_.
    rewrite (bind_ok _ _ _ _ _ (field_run _ _ _ _ Hv)).
    by rewrite decide_True by done. }
  assert (∀ i, i < size_ v → at_ this i w = data_at this i w) as Hin.
  { intros i Hi. unfold at_.
    rewrite (bind_ok _ _ _ _ _ (field_run _ _ _ _ Hv)).
    by rewrite decide_False by lia. }
  split_and!.
  - apply Hat.
  - intros Hi e. rewrite Hin by done. apply quiet_data_at.
  - destruct (decide (size_ v ≤ index)).
    + by rewrite Hat.
    + rewrite Hin by lia. apply quiet_data_at.
  - by apply Hat.
  - intros Hz. unfold front, back.
    rewrite !(bind_ok _ _ _ _ _ (empty_run _ _ _ Hv)).
    by rewrite bool_decide_true by done.
  - intros Hz e. unfold front, back.
    rewrite !(bind_ok _ _ _ _ _ (empty_run _ _ _ Hv)).
    rewrite bool_decide_false by done.
    split; [apply quiet_begin_star|apply quiet_end_minus_star].
  - intros Hz. unfold pop_back.
    rewrite (bind_ok _ _ _ _ _ (field_run _ _ _ _ Hv)).
    by rewrite decide_False by lia.
Qed.

(** C9, as amended.  [clear()] destroys all live elements, in order, and
    sets the size to 0; the capacity and the buffer are what they were;
    and [data()] then returns null, whatever the capacity. *)
Theorem clear_keeps_capacity this a (l : list T) cap w :
  holds this a l cap w →
  ∃ w', clear this w = (Ok tt, w') ∧
    holds this a [] cap w' ∧
    destroyed (mem w') = destroyed (mem w) ++ l ∧
    size this w' = (Ok 0, w') ∧
    capacity this w' = (Ok cap, w') ∧
    (field data_ this w').1 = (field data_ this w).1 ∧
    data this w' = (Ok nullptr, w').
Proof.
  intros Hh. pose proof (clear_holds this a l cap w Hh) as Hwp.
  unfold wp in Hwp. destruct (clear this w) as [r w']. simpl in Hwp.
  destruct Hwp as (-> & Hh' & Hdata & Hdes).
  exists w'. split_and!; try done.
  - by apply (holds_size _ _ _ _ _ Hh').
  - by eapply holds_capacity.
  - rewrite Hdata. destruct Hh as (v & Hv & _).
    by rewrite (field_run _ _ _ _ Hv), Hv.
  - destruct Hh' as (v' & Hv' & _ & Hsize' & _). unfold data.
    rewrite (bind_ok _ _ _ _ _ (empty_run _ _ _ Hv')).
    by rewrite bool_decide_true by done.
Qed.

(** C10.  [assing(n, val)] first runs [clear()], which destroys all
    current elements, and then appends [val] n times: afterwards
    [size()] is n and every [v[i]] with i below n reads [val]. *)
Theorem assing_fills `{!Regular T} this a (l : list T) cap (n : N) val w :
  holds this a l cap w →
  2 * n ≤ max_size_of a →
  ∃ w1 w' cap',
    clear this w = (Ok tt, w1) ∧
    holds this a [] cap w1 ∧
    destroyed (mem w1) = destroyed (mem w) ++ l ∧
    for_ 0 n (λ _, push_back this val) w1 = (Ok tt, w') ∧
    assing this n val w = (Ok tt, w') ∧
    holds this a (replicate (N.to_nat n) val) cap' w' ∧
    size this w' = (Ok n, w') ∧
    (∀ i, i < n → read_subscript this i w' = (Ok val, w')).
Proof.
  intros Hh Hmax.
  pose proof (clear_holds this a l cap w Hh) as Hcl. unfold wp in Hcl.
  destruct (clear this w) as [rc w1] eqn:Hclear. simpl in Hcl.
  destruct Hcl as (-> & Hh1 & _ & Hdes).
  assert (2 * N.of_nat (length (@nil T) + N.to_nat (n - 0)) ≤ max_size_of a)
    as Hbound by (simpl; lia).
  pose proof (for_from_push_back_holds this a val (N.to_nat (n - 0)) 0 []
                cap w1 Hh1 Hbound) as Hwp.
  unfold wp in Hwp. fold (for_ 0 n (λ _, push_back this val)) in Hwp.
  destruct (for_ 0 n (λ _ : N, push_back this val) w1) as [r w'] eqn:Hfor.
  simpl in Hwp. destruct Hwp as (-> & cap' & Hh').
  rewrite N.sub_0_r in Hh'.
  exists w1, w', cap'. split_and!; try done.
  - unfold assing. by rewrite (bind_ok _ _ _ _ _ Hclear).
  - rewrite (holds_size _ _ _ _ _ Hh'), length_replicate. by rewrite N2Nat.id.
  - intros i Hi. rewrite <-(N2Nat.id i).
    eapply read_subscript_holds; [done|].
    apply lookup_replicate_2. lia.
Qed.

(** ** Further properties of the code *)

(** *** reserve *)

Lemma reserve_holds `{!Regular T} this a (l : list T) cap n w :
  holds this a l cap w →
  (cap < n → n ≤ max_size_of a) →
  wp (reserve this n) w (λ r w',
    r = Ok tt ∧ holds this a l (N.max cap n) w' ∧ (n ≤ cap → w' = w)).
Proof.
  intros Hh Hn. pose proof Hh as (v & Hv & _ & _ & Hcap & Hle & _).
  unfold reserve. wp_get. rewrite Hcap. case_decide as Hc.
  - apply wp_ret. by rewrite N.max_l by done.
  - rewrite N.max_r by lia.
    eapply wp_mono; [apply (reallocate_holds this a l cap n w Hh); lia|].
    cbn beta. intros r w' (-> & Hh' & _). split_and!; [done..|lia].
Qed.

Lemma reserve_refused this v n w :
  objs w !! this = Some v → capacity_ v < n → max_size_of (alloc_ v) < n →
  reserve this n w = (Throw bad_alloc, w).
Proof.
  intros Hv Hc Hn. unfold reserve.
  rewrite (bind_ok _ _ _ _ _ (field_run _ _ _ _ Hv)).
  rewrite decide_False by lia. unfold reallocate.
  rewrite (bind_ok _ _ _ _ _ (field_run alloc_ this v w Hv)).
  rewrite bind_unfold. unfold allocate, lift.
  rewrite decide_False by lia. by rewrite world_eta.
Qed.

(** X1.  [reserve(n)], for elements that move without throwing, has two
    outcomes.  Either it returns, and the vector holds the same elements
    in the same order with capacity [max(capacity, n)]; or the
    allocation throws [bad_alloc], which can only be when
    [n > capacity], and the whole state is as before the call.  With
    [n <= capacity] it returns and changes nothing at all. *)
Theorem reserve_keeps_elements `{!Regular T} this a (l : list T) cap n w :
  holds this a l cap w →
  (n ≤ cap → reserve this n w = (Ok tt, w)) ∧
  ((∃ w', reserve this n w = (Ok tt, w') ∧
      holds this a l (N.max cap n) w' ∧
      size this w' = (Ok (N.of_nat (length l)), w') ∧
      capacity this w' = (Ok (N.max cap n), w') ∧
      traverse (S (length l)) this w' = (Ok (Some l), w')) ∨
   (cap < n ∧ reserve this n w = (Throw bad_alloc, w))).
Proof.
  intros Hh. split.
  - intros Hn.
    pose proof (reserve_holds this a l cap n w Hh ltac:(lia)) as Hwp.
    unfold wp in Hwp. destruct (reserve this n w) as [r w']. simpl in Hwp.
    destruct Hwp as (-> & _ & Hsame). by rewrite Hsame.
  - destruct (decide (cap < n ∧ max_size_of a < n)) as [[Hcap Hmax]|Hn].
    + right. split; [done|].
      destruct Hh as (v & Hv & <- & _ & <- & _).
      by apply (reserve_refused this v).
    + left.
      pose proof (reserve_holds this a l cap n w Hh ltac:(lia)) as Hwp.
      unfold wp in Hwp. destruct (reserve this n w) as [r w']. simpl in Hwp.
      destruct Hwp as (-> & Hh' & _). exists w'. split_and!; try done.
      * by eapply holds_size.
      * by eapply holds_capacity.
      * eapply traverse_holds; [done|lia].
Qed.

(** X2.  [reserve(n)] above the capacity and above [max_size()] throws
    [bad_alloc] and changes nothing; so does a [push_back] on a full
    vector whose doubled capacity is above [max_size()]. *)
Theorem growth_refused this v n x rvalue w :
  objs w !! this = Some v →
  (capacity_ v < n → max_size_of (alloc_ v) < n →
     reserve this n w = (Throw bad_alloc, w)) ∧
  (capacity_ v ≤ size_ v →
   let c := if decide (capacity_ v ≠ 0) then size_t (capacity_ v * 2) else 1 in
   capacity_ v < c → max_size_of (alloc_ v) < c →
     push_back_as rvalue this x w = (Throw bad_alloc, w)).
Proof.
  intros Hv. split.
  - by apply reserve_refused.
  - intros Hfull c Hc Hmax.
    assert (grow_if_full this w = (Throw bad_alloc, w)) as Hg.
    { unfold grow_if_full.
      rewrite !(bind_ok _ _ _ _ _ (field_run _ _ _ _ Hv)).
      rewrite decide_True by done. by apply (reserve_refused this v). }
    destruct rvalue; simpl; unfold push_back_move, push_back;
      by rewrite bind_unfold, Hg.
Qed.

(** *** Destroying a range of a buffer *)

Lemma destroy_range this v b (tail : list (slot T)) (rest : list T) :
  ∀ (pre : list (slot T)) w,
  objs w !! this = Some v → data_ v = Loc b 0 →
  blocks (mem w) !! b = Some (pre ++ (Live <$> rest) ++ tail) →
  wp (for_from (N.of_nat (length pre)) (length rest)
        (λ i, p ← data_plus this i; destroy (alloc_ v) p)) w
     (λ r w', r = Ok tt ∧ objs w' = objs w ∧
        next_block (mem w') = next_block (mem w) ∧
        blocks (mem w') !! b =
          Some (pre ++ replicate (length rest) Raw ++ tail) ∧
        (∀ b', b' ≠ b → blocks (mem w') !! b' = blocks (mem w) !! b') ∧
        destroyed (mem w') = destroyed (mem w) ++ rest).
Proof.
  induction rest as [|x rest IH]; intros pre w Hv Hd Hb; simpl.
  - apply wp_ret. by rewrite app_nil_r.
  - do 2 apply wp_bind. eapply wp_data_plus; [done..| |].
    { rewrite !length_app. simpl. lia. }
    eapply wp_destroy.
    { rewrite (slot_at_index _ _ _ _ Hb).
      rewrite lookup_app_r by lia. by rewrite Nat.sub_diag. }
    replace (N.of_nat (length pre) + 1) with (N.of_nat (length (pre ++ [Raw])))
      by (rewrite length_app; simpl; lia).
    eapply wp_mono.
    { apply (IH (pre ++ [Raw])); cbn [mem blocks objs]; [done..|].
      rewrite (blocks_set_slot _ _ _ _ _ Hb).
      rewrite insert_app_r_alt by lia. rewrite Nat.sub_diag. simpl.
      by rewrite <-app_assoc. }
    cbn [mem blocks objs next_block destroyed].
    intros r w' (-> & -> & -> & Hb' & Hframe & ->). split_and!; try done.
    + rewrite Hb'. by rewrite <-app_assoc.
    + intros b' Hne. rewrite Hframe by done.
      by rewrite blocks_set_slot_ne.
    + by rewrite <-app_assoc.
Qed.

Lemma buffer_of_split (l : list T) cap (n : nat) :
  (n ≤ length l)%nat →
  buffer_of l cap =
    (Live <$> take n l) ++ (Live <$> drop n l) ++
    replicate (N.to_nat cap - length l) Raw.
Proof.
  intros Hn. unfold buffer_of.
  by rewrite <-(take_drop n l) at 1; rewrite fmap_app, <-app_assoc.
Qed.

Lemma buffer_of_take (l : list T) cap (n : nat) :
  (n ≤ length l)%nat → N.of_nat (length l) ≤ cap →
  (Live <$> take n l) ++ replicate (length (drop n l)) Raw ++
    replicate (N.to_nat cap - length l) Raw
  = buffer_of (take n l) cap.
Proof.
  intros Hn Hle. unfold buffer_of. f_equal. rewrite <-replicate_add.
  f_equal. rewrite length_drop, length_take. lia.
Qed.

(** *** pop_back and the shrinking resize *)

Lemma resize_shrink_holds this a (l : list T) cap (n : nat) w :
  holds this a l cap w → (n ≤ length l)%nat →
  wp (resize this (N.of_nat n)) w (λ r w',
    r = Ok tt ∧ holds this a (take n l) cap w' ∧
    destroyed (mem w') = destroyed (mem w) ++ drop n l).
Proof.
  intros (v & Hv & Ha & Hsize & Hcap & Hle & Hmax & Hdata) Hn.
  unfold resize. wp_get. wp_get. rewrite Hsize. apply wp_bind.
  destruct (decide (n = length l)) as [->|Hne].
  - rewrite decide_False by lia. rewrite decide_False by lia.
    apply wp_ret. wp_set. rewrite firstn_all, drop_all, app_nil_r.
    split_and!; try done. eexists. split; [apply lookup_insert_eq|]. done.
  - rewrite decide_True by lia.
    destruct (data_ v) as [|b o] eqn:Hd.
    { destruct l; simpl in *; lia. }
    destruct Hdata as (-> & Hlt & Hb).
    rewrite (buffer_of_split l cap n) in Hb by done.
    unfold for_.
    replace (N.to_nat (N.of_nat (length l) - N.of_nat n))
      with (length (drop n l)) by (rewrite length_drop; lia).
    replace (N.of_nat n) with (N.of_nat (length (Live <$> take n l)))
      by (rewrite length_fmap, length_take; lia).
    eapply wp_mono.
    { by apply (destroy_range this v b
                  (replicate (N.to_nat cap - length l) Raw) (drop n l)
                  (Live <$> take n l) w). }
    cbn beta. intros r w' (-> & Ho & Hnext & Hb' & _ & Hdes).
    wp_set. split_and!; try done.
    eexists. split; [apply lookup_insert_eq|]. simpl.
    rewrite length_fmap, !length_take. split_and!; try done; try lia.
    rewrite Hd. split_and!; try done; try lia.
    rewrite Hb'. f_equal. by apply buffer_of_take.
Qed.

Lemma pop_back_holds this a (l : list T) x cap w :
  holds this a (l ++ [x]) cap w →
  wp (pop_back this) w (λ r w',
    r = Ok tt ∧ holds this a l cap w' ∧
    destroyed (mem w') = destroyed (mem w) ++ [x]).
Proof.
  intros (v & Hv & Ha & Hsize & Hcap & Hle & Hmax & Hdata).
  rewrite length_app in *. simpl in *.
  unfold pop_back. wp_get. rewrite decide_True by lia. wp_get.
  destruct (data_ v) as [|b o] eqn:Hd; [lia|].
  destruct Hdata as (-> & Hlt & Hb).
  assert (length (buffer_of (l ++ [x]) cap) = N.to_nat cap) as Hlen.
  { apply length_buffer_of. rewrite length_app. simpl. lia. }
  rewrite Hsize. apply wp_bind. eapply wp_data_plus; [done..|lia|].
  apply wp_bind. eapply wp_ptr_add; [done|lia|].
  replace (Z.of_nat (length l + 1) + -1)%Z with (Z.of_nat (length l)) by lia.
  apply wp_bind. eapply wp_destroy.
  { rewrite (slot_at_index _ _ _ _ Hb). apply lookup_buffer_of.
    rewrite lookup_app_r by lia. by rewrite Nat.sub_diag. }
  wp_set. split_and!; try done.
  eexists. split; [apply lookup_insert_eq|]. simpl.
  split_and!; try done; try lia. rewrite Hd. split_and!; try done.
  rewrite lookup_alter_eq, Hb. simpl. rewrite Nat2Z.id. f_equal.
  rewrite <-buffer_of_snoc by lia. rewrite list_insert_insert_eq.
  apply list_insert_id. unfold buffer_of.
  rewrite lookup_app_r by (rewrite length_fmap; lia).
  rewrite length_fmap, Nat.sub_diag. apply lookup_replicate_2. lia.
Qed.

(** [pop_back] and [resize] leave the pointer to the buffer alone. *)
Lemma pop_back_data this v w :
  objs w !! this = Some v →
  wp (pop_back this) w (λ r w',
    r = Ok tt → field data_ this w' = (Ok (data_ v), w')).
Proof.
  intros Hv. unfold pop_back. wp_get.
  case_decide; [|apply wp_ret; intros _; by rewrite (field_run data_ this v w)].
  wp_get. do 3 (wp_heap; try done).
  wp_set. intros _. by erewrite field_run by apply lookup_insert_eq.
Qed.

Lemma resize_data this v new_size w :
  objs w !! this = Some v →
  wp (resize this new_size) w (λ r w',
    r = Ok tt → field data_ this w' = (Ok (data_ v), w')).
Proof.
  intros Hv. unfold resize. wp_get. wp_get.
  wp_heap; try done.
  wp_set. intros _. by erewrite field_run by apply lookup_insert_eq.
Qed.

(** X3.  [pop_back()] on a vector that is not empty destroys the last element
    and nothing else: the others, the capacity and the buffer stay. *)
Theorem pop_back_removes_last this a (l : list T) x cap w :
  holds this a (l ++ [x]) cap w →
  ∃ w', pop_back this w = (Ok tt, w') ∧
    holds this a l cap w' ∧
    destroyed (mem w') = destroyed (mem w) ++ [x] ∧
    size this w' = (Ok (N.of_nat (length l)), w') ∧
    capacity this w' = (Ok cap, w') ∧
    traverse (S (length l)) this w' = (Ok (Some l), w') ∧
    (field data_ this w').1 = (field data_ this w).1.
Proof.
  intros Hh. pose proof (pop_back_holds this a l x cap w Hh) as Hwp.
  pose proof Hh as (v & Hv & _).
  pose proof (pop_back_data this v w Hv) as Hdata.
  unfold wp in Hwp, Hdata.
  destruct (pop_back this w) as [r w']. simpl in Hwp, Hdata.
  destruct Hwp as (-> & Hh' & Hdes). exists w'. split_and!; try done.
  - by eapply holds_size.
  - by eapply holds_capacity.
  - eapply traverse_holds; [done|lia].
  - by rewrite Hdata, (field_run data_ this v w Hv).
Qed.

(** X4.  [resize(n)] with [n <= size()] destroys exactly the elements from
    position [n] on, in order, and keeps the first [n], the capacity and
    the buffer. *)
Theorem resize_shrink_destroys_tail this a (l : list T) cap (n : nat) w :
  holds this a l cap w → (n ≤ length l)%nat →
  ∃ w', resize this (N.of_nat n) w = (Ok tt, w') ∧
    holds this a (take n l) cap w' ∧
    destroyed (mem w') = destroyed (mem w) ++ drop n l ∧
    size this w' = (Ok (N.of_nat n), w') ∧
    capacity this w' = (Ok cap, w') ∧
    traverse (S n) this w' = (Ok (Some (take n l)), w') ∧
    (field data_ this w').1 = (field data_ this w).1.
Proof.
  intros Hh Hn. pose proof (resize_shrink_holds this a l cap n w Hh Hn) as Hwp.
  pose proof Hh as (v & Hv & _).
  pose proof (resize_data this v (N.of_nat n) w Hv) as Hdata.
  unfold wp in Hwp, Hdata. destruct (resize this (N.of_nat n) w) as [r w'].
  simpl in Hwp, Hdata. destruct Hwp as (-> & Hh' & Hdes).
  exists w'. split_and!; try done.
  - rewrite (holds_size _ _ _ _ _ Hh'), length_take. do 3 f_equal. lia.
  - by eapply holds_capacity.
  - eapply traverse_holds; [done|]. rewrite length_take. lia.
  - by rewrite Hdata, (field_run data_ this v w Hv).
Qed.

(** X5.  [push_back(x)] followed by [pop_back()] gives back the elements there
    were; only the capacity may have grown. *)
Theorem push_back_pop_back `{!Regular T} rvalue this a (l : list T) cap x w :
  holds this a l cap w →
  (cap ≤ N.of_nat (length l) →
   grown (N.of_nat (length l)) cap ≤ max_size_of a) →
  ∃ w', (push_back_as rvalue this x;; pop_back this) w = (Ok tt, w') ∧
    holds this a l (grown (N.of_nat (length l)) cap) w' ∧
    size this w' = (Ok (N.of_nat (length l)), w') ∧
    traverse (S (length l)) this w' = (Ok (Some l), w').
Proof.
  intros Hh Hg.
  pose proof (push_back_as_holds rvalue this a l cap x w Hh Hg) as Hwp.
  unfold wp in Hwp.
  destruct (push_back_as rvalue this x w) as [r w1] eqn:Hpush.
  simpl in Hwp. destruct Hwp as (-> & Hh1).
  pose proof (pop_back_holds this a l x _ w1 Hh1) as Hwp.
  unfold wp in Hwp. destruct (pop_back this w1) as [r w'] eqn:Hpop.
  simpl in Hwp. destruct Hwp as (-> & Hh' & _).
  exists w'. split_and!; try done.
  - by rewrite (bind_ok _ _ _ _ _ Hpush).
  - by eapply holds_size.
  - eapply traverse_holds; [done|lia].
Qed.

(** *** The destructor *)

Lemma MyVector_destroy_holds this a (l : list T) cap w :
  holds this a l cap w →
  wp (MyVector_destroy this) w (λ r w',
    r = Ok tt ∧ objs w' = delete this (objs w) ∧
    destroyed (mem w') = destroyed (mem w) ++ l ∧
    next_block (mem w') = next_block (mem w) ∧
    ∀ v, objs w !! this = Some v →
      match data_ v with
      | nullptr => blocks (mem w') = blocks (mem w)
      | Loc b _ =>
          blocks (mem w') !! b = None ∧
          ∀ b', b' ≠ b → blocks (mem w') !! b' = blocks (mem w) !! b'
      end).
Proof.
  intros (v & Hv & Ha & Hsize & Hcap & Hle & Hmax & Hdata).
  unfold MyVector_destroy, clear. apply wp_bind. wp_get. wp_get.
  rewrite Hsize. unfold for_. rewrite N.sub_0_r, Nat2N.id. apply wp_bind.
  destruct (data_ v) as [|b o] eqn:Hd.
  - assert (l = []) as -> by (destruct l; [done|simpl in *; lia]).
    apply wp_ret. wp_set. wp_get. rewrite Hd.
    rewrite decide_False by naive_solver. apply wp_bind, wp_ret.
    apply wp_object_end. simpl. split_and!; try done.
    + by rewrite delete_insert_eq.
    + by rewrite app_nil_r.
    + intros v' [= <-]. by rewrite Hd.
  - destruct Hdata as (-> & Hlt & Hb).
    eapply wp_mono.
    { by apply (destroy_range this v b
                  (replicate (N.to_nat cap - length l) Raw) l [] w). }
    cbn beta. intros r w1 (-> & Ho & Hnext & Hb' & Hframe & Hdes).
    wp_set. wp_get. rewrite Hd. rewrite decide_True by done.
    apply wp_bind. eapply wp_deallocate; [done| |].
    { simpl. rewrite length_app, !length_replicate. lia. }
    apply wp_object_end. simpl. split_and!; try done.
    + by rewrite delete_insert_eq.
    + intros v' [= <-]. rewrite Hd. split.
      * apply lookup_delete_eq.
      * intros b' Hne. rewrite lookup_delete_ne by done. by apply Hframe.
Qed.

(** X6.  The destructor destroys every element, in order, releases the
    buffer and nothing else, and the object is gone. *)
Theorem destructor_releases_everything this a (l : list T) cap w :
  holds this a l cap w →
  ∃ w', MyVector_destroy this w = (Ok tt, w') ∧
    objs w' = delete this (objs w) ∧
    destroyed (mem w') = destroyed (mem w) ++ l ∧
    ∀ v, objs w !! this = Some v →
      match data_ v with
      | nullptr => blocks (mem w') = blocks (mem w)
      | Loc b _ =>
          blocks (mem w') !! b = None ∧
          ∀ b', b' ≠ b → blocks (mem w') !! b' = blocks (mem w) !! b'
      end.
Proof.
  intros Hh. pose proof (MyVector_destroy_holds this a l cap w Hh) as Hwp.
  unfold wp in Hwp. destruct (MyVector_destroy this w) as [r w'].
  simpl in Hwp. destruct Hwp as (-> & Ho & Hdes & _ & Hb).
  by exists w'.
Qed.

(** *** The move constructor and [swap] *)

Lemma holds_transfer this other a (l : list T) cap w w' v :
  holds other a l cap w → objs w !! other = Some v →
  objs w' !! this = Some v → mem w' = mem w →
  holds this a l cap w'.
Proof.
  intros (v' & Hv' & Hrest) Hv Hthis Hmem.
  assert (v' = v) as -> by congruence.
  exists v. rewrite Hmem. by split.
Qed.

Lemma MyVector_move_objs this other o w :
  objs w !! other = Some o → objs w !! this = None →
  wp (MyVector_move this other) w (λ r w',
    r = Ok tt ∧ mem w' = mem w ∧
    objs w' !! this = Some o ∧
    objs w' !! other = Some (mk nullptr 0 0 (alloc_ o)) ∧
    ∀ x, x ≠ this → x ≠ other → objs w' !! x = objs w !! x).
Proof.
  intros Hother Hnew. assert (this ≠ other) by congruence.
  unfold MyVector_move. wp_get.
  apply wp_bind. unfold wp at 1, object_begin. rewrite Hnew. simpl.
  do 3 wp_set. split_and!; try done.
  - rewrite !insert_insert_eq, lookup_insert_ne, lookup_insert_eq by done.
    by destruct o.
  - by rewrite !insert_insert_eq, lookup_insert_eq.
  - intros x ? ?. by rewrite !insert_insert_eq, !lookup_insert_ne.
Qed.

(** X7.  The move constructor hands the buffer of [other] over as it is: no
    allocation, no element constructed or destroyed.  The new vector
    holds what [other] held and [other] is left empty with capacity 0. *)
Theorem move_constructor_takes_buffer this other o w :
  objs w !! other = Some o → objs w !! this = None →
  ∃ w', MyVector_move this other w = (Ok tt, w') ∧
    mem w' = mem w ∧
    objs w' !! this = Some o ∧
    objs w' !! other = Some (mk nullptr 0 0 (alloc_ o)) ∧
    (∀ x, x ≠ this → x ≠ other → objs w' !! x = objs w !! x) ∧
    ∀ a (l : list T) cap, holds other a l cap w →
      holds this a l cap w' ∧ holds other a [] 0 w' ∧
      traverse (S (length l)) this w' = (Ok (Some l), w').
Proof.
  intros Hother Hnew.
  pose proof (MyVector_move_objs this other o w Hother Hnew) as Hwp.
  unfold wp in Hwp. destruct (MyVector_move this other w) as [r w'].
  simpl in Hwp. destruct Hwp as (-> & Hmem & Hthis & Ho & Hframe).
  exists w'. split_and!; try done. intros a l cap Hh.
  assert (holds this a l cap w') as Hh' by by eapply holds_transfer.
  split_and!; [done| |eapply traverse_holds; [done|lia]].
  destruct Hh as (v & Hv & Ha & _). assert (v = o) as -> by congruence.
  eexists. split; [done|]. simpl. split_and!; done.
Qed.

Lemma swap_objs this other vt vo w :
  objs w !! this = Some vt → objs w !! other = Some vo → this ≠ other →
  NDEBUG = true ∨ alloc_eqb (alloc_ vt) (alloc_ vo) = true →
  wp (swap this other) w (λ r w',
    r = Ok tt ∧ mem w' = mem w ∧
    objs w' !! this =
      Some (mk (data_ vo) (size_ vo) (capacity_ vo)
              (if propagate_on_container_swap then alloc_ vo else alloc_ vt)) ∧
    objs w' !! other =
      Some (mk (data_ vt) (size_ vt) (capacity_ vt)
              (if propagate_on_container_swap then alloc_ vt else alloc_ vo)) ∧
    ∀ x, x ≠ this → x ≠ other → objs w' !! x = objs w !! x).
Proof.
  intros Hvt Hvo Hne Hdbg. unfold swap. wp_get. wp_get.
  apply wp_bind.
  assert ((if NDEBUG then mret tt
           else if alloc_eqb (alloc_ vt) (alloc_ vo) then mret tt else abort)
          = (mret tt : M unit)) as ->.
  { destruct Hdbg as [-> | ->]; [done|]. by destruct NDEBUG. }
  apply wp_ret. do 6 wp_set.
  destruct propagate_on_container_swap;
    first [do 2 wp_set | apply wp_ret]; cbn [objs mem];
    split_and!; try done.
  all: try by rewrite lookup_insert_ne, lookup_insert_eq by done.
  all: try by rewrite lookup_insert_eq.
  all: intros x ? ?; by rewrite !lookup_insert_ne.
Qed.

(** X8.  [swap] of two vectors whose allocators compare equal (or in a build
    with [NDEBUG]) exchanges buffers, sizes and capacities without
    touching the memory: each vector then holds what the other held. *)
Theorem swap_exchanges_contents this other a a' (l l' : list T) cap cap' w :
  holds this a l cap w → holds other a' l' cap' w → this ≠ other →
  NDEBUG = true ∨ alloc_eqb a a' = true →
  ∃ w', swap this other w = (Ok tt, w') ∧
    mem w' = mem w ∧
    holds this (if propagate_on_container_swap then a' else a) l' cap' w' ∧
    holds other (if propagate_on_container_swap then a else a') l cap w' ∧
    (∀ x, x ≠ this → x ≠ other → objs w' !! x = objs w !! x) ∧
    traverse (S (length l')) this w' = (Ok (Some l'), w') ∧
    traverse (S (length l)) other w' = (Ok (Some l), w') ∧
    (field data_ this w').1 = (field data_ other w).1 ∧
    (field data_ other w').1 = (field data_ this w).1.
Proof.
  intros Hh Hh' Hne Hdbg.
  pose proof Hh as (vt & Hvt & Ha & Hrest).
  pose proof Hh' as (vo & Hvo & Ha' & Hrest').
  rewrite <-Ha, <-Ha' in Hdbg.
  pose proof (swap_objs this other vt vo w Hvt Hvo Hne Hdbg) as Hwp.
  unfold wp in Hwp. destruct (swap this other w) as [r w'].
  simpl in Hwp. destruct Hwp as (-> & Hmem & Hthis & Hother & Hframe).
  assert (holds this (if propagate_on_container_swap then a' else a)
            l' cap' w') as H1.
  { eexists. split; [done|]. rewrite Hmem. simpl.
    split; [by destruct propagate_on_container_swap|done]. }
  assert (holds other (if propagate_on_container_swap then a else a')
            l cap w') as H2.
  { eexists. split; [done|]. rewrite Hmem. simpl.
    split; [by destruct propagate_on_container_swap|done]. }
  exists w'. split_and!; try done;
    try (eapply traverse_holds; [done|lia]).
  - by rewrite (field_run data_ this _ w' Hthis),
      (field_run data_ other vo w Hvo).
  - by rewrite (field_run data_ other _ w' Hother),
      (field_run data_ this vt w Hvt).
Qed.

(** X9.  Swapping twice puts every vector and the memory back as they were. *)
Theorem swap_twice_restores this other vt vo w :
  objs w !! this = Some vt → objs w !! other = Some vo → this ≠ other →
  NDEBUG = true ∨
    (alloc_eqb (alloc_ vt) (alloc_ vo) = true ∧
     alloc_eqb (alloc_ vo) (alloc_ vt) = true) →
  (swap this other;; swap this other) w = (Ok tt, w).
Proof.
  intros Hvt Hvo Hne Hdbg.
  assert (NDEBUG = true ∨ alloc_eqb (alloc_ vt) (alloc_ vo) = true) as Hd1
    by (destruct Hdbg as [?|[? ?]]; auto).
  pose proof (swap_objs this other vt vo w Hvt Hvo Hne Hd1) as Hwp.
  unfold wp in Hwp. destruct (swap this other w) as [r w1] eqn:Hs1.
  simpl in Hwp. destruct Hwp as (-> & Hmem & Hthis & Hother & Hframe).
  rewrite (bind_ok _ _ _ _ _ Hs1).
  pose proof (swap_objs this other _ _ w1 Hthis Hother Hne) as Hwp.
  unfold wp in Hwp. destruct (swap this other w1) as [r w2] eqn:Hs2.
  simpl in Hwp. destruct Hwp as (-> & Hmem2 & Hthis2 & Hother2 & Hframe2).
  { destruct Hdbg as [?|[? ?]]; [by left|right].
    by destruct propagate_on_container_swap. }
  f_equal. destruct w as [ow mw], w2 as [o2 m2]. simpl in *. f_equal.
  - apply map_eq. intros x.
    destruct (decide (x = this)) as [->|?].
    { rewrite Hthis2, Hvt. destruct vt.
      by destruct propagate_on_container_swap. }
    destruct (decide (x = other)) as [->|?].
    { rewrite Hother2, Hvo. destruct vo.
      by destruct propagate_on_container_swap. }
    rewrite Hframe2, Hframe by done. done.
  - congruence.
Qed.

(** *** Element access and iterators on a vector that holds elements *)

Lemma wp_run {X} (m : M X) w r w' Q : m w = (r, w') → Q r w' → wp m w Q.
Proof. intros E HQ. unfold wp. by rewrite E. Qed.

(** A vector with capacity has a buffer. *)
Lemma holds_block this a (l : list T) cap w :
  holds this a l cap w → 0 < cap →
  ∃ v b, objs w !! this = Some v ∧ data_ v = Loc b 0 ∧ alloc_ v = a ∧
    size_ v = N.of_nat (length l) ∧ capacity_ v = cap ∧
    N.of_nat (length l) ≤ cap ∧ cap ≤ PTRDIFF_MAX ∧
    (b < next_block (mem w))%nat ∧
    blocks (mem w) !! b = Some (buffer_of l cap) ∧
    length (buffer_of l cap) = N.to_nat cap.
Proof.
  intros (v & Hv & Ha & Hsize & Hcap & Hle & Hmax & Hdata) Hpos.
  destruct (data_ v) as [|b o] eqn:Hd; [lia|].
  destruct Hdata as (-> & Hlt & Hb).
  exists v, b. split_and!; try done. by apply length_buffer_of.
Qed.

Lemma holds_nonempty this a (l : list T) cap w k x :
  holds this a l cap w → l !! k = Some x → 0 < cap.
Proof.
  intros (v & _ & _ & _ & _ & Hle & _) Hk.
  apply lookup_lt_Some in Hk. lia.
Qed.

Lemma element_at_holds this a (l : list T) cap w k x :
  holds this a l cap w → l !! k = Some x →
  ∃ b, field data_ this w = (Ok (Loc b 0), w) ∧
    slot_at (mem w) (Loc b (Z.of_nat k)) = Some (Live x) ∧
    data_at this (N.of_nat k) w = (Ok (Loc b (Z.of_nat k)), w) ∧
    at_ this (N.of_nat k) w = (Ok (Loc b (Z.of_nat k)), w) ∧
    load (Loc b (Z.of_nat k)) w = (Ok x, w).
Proof.
  intros Hh Hk. pose proof (holds_nonempty _ _ _ _ _ _ _ Hh Hk) as Hpos.
  destruct (holds_block _ _ _ _ _ Hh Hpos)
    as (v & b & Hv & Hd & Ha & Hsize & Hcap & Hle & Hmax & Hlt & Hb & Hlen).
  pose proof (lookup_buffer_of l cap k x Hk) as Hx.
  assert (slot_at (mem w) (Loc b (Z.of_nat k)) = Some (Live x)) as Hs
    by by rewrite (slot_at_index _ _ _ _ Hb).
  assert (data_at this (N.of_nat k) w = (Ok (Loc b (Z.of_nat k)), w)) as Hat.
  { apply wp_eq. by eapply wp_data_at. }
  exists b. split_and!; try done.
  - by rewrite (field_run data_ this v w Hv), Hd.
  - unfold at_. rewrite (bind_ok _ _ _ _ _ (field_run size_ this v w Hv)).
    apply lookup_lt_Some in Hk. by rewrite decide_False by lia.
  - apply wp_eq. by eapply wp_load.
Qed.

(** X10.  On a vector that holds [l]: [v[k]] and [v.at(k)] are the same
    reference, to element [k] of [l], for every [k < size()];
    [front()], [data()] and [v[0]] are the same reference, to the first
    element; [back()] is [v[size() - 1]], a reference to the last. *)
Theorem element_access this a (l : list T) cap w :
  holds this a l cap w →
  (∀ k x, l !! k = Some x →
     ∃ p, subscript this (N.of_nat k) w = (Ok p, w) ∧
          at_ this (N.of_nat k) w = (Ok p, w) ∧
          load p w = (Ok x, w)) ∧
  (∀ x, head l = Some x →
     ∃ p, front this w = (Ok p, w) ∧
          data this w = (Ok p, w) ∧
          subscript this 0 w = (Ok p, w) ∧
          load p w = (Ok x, w)) ∧
  (∀ x, last l = Some x →
     ∃ p, back this w = (Ok p, w) ∧
          subscript this (N.of_nat (length l - 1)) w = (Ok p, w) ∧
          load p w = (Ok x, w)).
Proof.
  intros Hh. split_and!.
  - intros k x Hk.
    destruct (element_at_holds _ _ _ _ _ _ _ Hh Hk)
      as (b & _ & _ & Hat & Hat' & Hload).
    by exists (Loc b (Z.of_nat k)).
  - intros x Hx. assert (l !! 0%nat = Some x) as Hk by by destruct l.
    destruct (element_at_holds _ _ _ _ _ _ _ Hh Hk)
      as (b & Hdata & Hs & Hat & _ & Hload).
    destruct Hh as (v & Hv & _ & Hsize & _).
    assert (size_ v ≠ 0) by (destruct l; simpl in *; [done|lia]).
    exists (Loc b 0). split_and!; try done.
    + unfold front. rewrite (bind_ok _ _ _ _ _ (empty_run _ _ _ Hv)).
      rewrite bool_decide_false by done. unfold begin.
      rewrite (bind_ok _ _ _ _ _ (bind_ok _ _ _ _ _ Hdata)).
      apply wp_eq. by eapply wp_deref.
    + unfold data. rewrite (bind_ok _ _ _ _ _ (empty_run _ _ _ Hv)).
      rewrite bool_decide_false by done. unfold begin.
      by rewrite (bind_ok _ _ _ _ _ (bind_ok _ _ _ _ _ Hdata)).
  - intros x Hx. apply last_Some in Hx as [l' ->].
    assert ((l' ++ [x]) !! length l' = Some x) as Hk.
    { rewrite lookup_app_r by lia. by rewrite Nat.sub_diag. }
    destruct (element_at_holds _ _ _ _ _ _ _ Hh Hk)
      as (b & Hdata & Hs & Hat & _ & Hload).
    pose proof (holds_nonempty _ _ _ _ _ _ _ Hh Hk) as Hpos.
    destruct (holds_block _ _ _ _ _ Hh Hpos)
      as (v & b' & Hv & Hd & Ha & Hsize & Hcap & Hle & Hmax & Hlt & Hb & Hlen).
    rewrite (field_run data_ this v w Hv), Hd in Hdata.
    injection Hdata as <-.
    rewrite length_app in *. simpl in *.
    replace (length l' + 1 - 1)%nat with (length l') by lia.
    exists (Loc b' (Z.of_nat (length l'))). split_and!; try done.
    unfold back. rewrite (bind_ok _ _ _ _ _ (empty_run _ _ _ Hv)).
    rewrite bool_decide_false by lia. apply wp_eq.
    apply wp_bind. unfold end_. wp_get. rewrite Hsize.
    apply wp_bind. eapply wp_data_plus; [done..|lia|].
    apply wp_ret. apply wp_bind. unfold iter_minus. simpl.
    apply wp_bind. eapply wp_ptr_add; [done|lia|].
    replace (Z.of_nat (length l' + 1) + - (1))%Z
      with (Z.of_nat (length l')) by lia.
    apply wp_ret. unfold iter_star. simpl. by eapply wp_deref.
Qed.

(** X11.  On a vector that holds [l]: [end() - begin()] is [size()];
    [begin() == end()] exactly when the vector is empty; [begin() + k]
    and [end() - (size() - k)] are the same iterator for [k <= size()],
    at distance [k] from [begin()]; and [begin()[k]] refers to element
    [k] of [l]. *)
Theorem iterator_span this a (l : list T) cap w :
  holds this a l cap w →
  ∃ first last,
    begin this w = (Ok first, w) ∧ end_ this w = (Ok last, w) ∧
    iter_diff last first w = (Ok (Z.of_nat (length l)), w) ∧
    (iter_eq first last = true ↔ l = []) ∧
    (∀ k, (k ≤ length l)%nat →
       ∃ it, iter_plus first (Z.of_nat k) w = (Ok it, w) ∧
             iter_minus last (Z.of_nat (length l - k)) w = (Ok it, w) ∧
             iter_diff it first w = (Ok (Z.of_nat k), w)) ∧
    (∀ k x, l !! k = Some x →
       ∃ p, iter_index first (Z.of_nat k) w = (Ok p, w) ∧
            load p w = (Ok x, w)).
Proof.
  intros Hh. pose proof Hh as (v & Hv & Ha & Hsize & Hcap & Hle & Hmax & Hdata).
  destruct (data_ v) as [|b o] eqn:Hd.
  - assert (l = []) as -> by (destruct l; [done|simpl in *; lia]).
    exists {| ptr_ := nullptr |}, {| ptr_ := nullptr |}. split_and!.
    + unfold begin. by rewrite (bind_ok _ _ _ _ _ (field_run data_ _ _ _ Hv)), Hd.
    + apply wp_eq. unfold end_, data_plus. wp_get. apply wp_bind. wp_get.
      rewrite Hd, Hsize. by apply wp_ptr_add_null, wp_ret.
    + done.
    + done.
    + intros k Hk. simpl in Hk. assert (k = 0%nat) as -> by lia.
      exists {| ptr_ := nullptr |}. split_and!; [| |done].
      * apply wp_eq. unfold iter_plus. simpl. apply wp_bind.
        by apply wp_ptr_add_null, wp_ret.
      * apply wp_eq. unfold iter_minus. simpl. apply wp_bind.
        by apply wp_ptr_add_null, wp_ret.
    + intros k x Hk. done.
  - destruct Hdata as (-> & Hlt & Hb).
    pose proof (length_buffer_of l cap Hle) as Hlen.
    exists {| ptr_ := Loc b 0 |}, {| ptr_ := Loc b (Z.of_nat (length l)) |}.
    split_and!.
    + unfold begin. by rewrite (bind_ok _ _ _ _ _ (field_run data_ _ _ _ Hv)), Hd.
    + apply wp_eq. unfold end_. wp_get. rewrite Hsize. apply wp_bind.
      eapply wp_data_plus; [done..|lia|]. by apply wp_ret.
    + unfold iter_diff. simpl. rewrite decide_True by done.
      by rewrite Z.sub_0_r.
    + unfold iter_eq. simpl. rewrite bool_decide_eq_true. split.
      * intros [= Hz]. destruct l; [done|simpl in Hz; lia].
      * by intros ->.
    + intros k Hk. exists {| ptr_ := Loc b (Z.of_nat k) |}. split_and!.
      * apply wp_eq. unfold iter_plus. simpl. apply wp_bind.
        eapply wp_ptr_add; [done|lia|]. by apply wp_ret.
      * apply wp_eq. unfold iter_minus. simpl. apply wp_bind.
        eapply wp_ptr_add; [done|lia|]. apply wp_ret.
        split; [|done]. do 3 f_equal. lia.
      * unfold iter_diff. simpl. rewrite decide_True by done.
        by rewrite Z.sub_0_r.
    + intros k x Hk. exists (Loc b (Z.of_nat k)).
      pose proof (lookup_buffer_of l cap k x Hk) as Hx.
      assert (slot_at (mem w) (Loc b (Z.of_nat k)) = Some (Live x)) as Hs
        by by rewrite (slot_at_index _ _ _ _ Hb).
      split.
      * apply wp_eq. unfold iter_index. simpl. apply wp_bind.
        eapply wp_ptr_add; [done| |].
        { apply lookup_lt_Some in Hx. lia. }
        by eapply wp_deref.
      * apply wp_eq. by eapply wp_load.
Qed.

(** *** A constructor that throws in [push_back] *)

Lemma wp_emplace_throw (p : ptr) (s : slot T) w
    (Q : outcome unit → world → Prop) :
  slot_at (mem w) p = Some s → Q (Throw element_error) w →
  wp (emplace p None) w Q.
Proof.
  intros Hs HQ. unfold wp, emplace, lift. rewrite Hs. simpl.
  by rewrite world_eta.
Qed.

(** X12.  [push_back(x)] on a vector with spare capacity, when the constructor
    of the new element throws: the exception leaves the call and the
    vector and the memory are exactly as before. *)
Theorem push_back_throw_keeps_state (rvalue : bool) this a (l : list T) cap
    (x : T) w :
  holds this a l cap w → N.of_nat (length l) < cap →
  (if rvalue then fst <$> move_construct x else copy_construct x) = None →
  push_back_as rvalue this x w = (Throw element_error, w).
Proof.
  intros Hh Hroom Hthrow.
  destruct (holds_block _ _ _ _ _ Hh ltac:(lia))
    as (v & b & Hv & Hd & Ha & Hsize & Hcap & Hle & Hmax & Hlt & Hb & Hlen).
  assert (is_Some (buffer_of l cap !! length l)) as [s Hs].
  { apply lookup_lt_is_Some. lia. }
  assert (grow_if_full this w = (Ok tt, w)) as Hg.
  { apply (grow_if_full_room this v); [done|lia]. }
  apply wp_eq. destruct rvalue; simpl.
  - unfold push_back_move. apply wp_bind.
    eapply wp_run; [done|]. wp_get. wp_get. rewrite Hsize.
    apply wp_bind. eapply wp_data_plus; [done..|lia|].
    apply wp_bind. unfold construct_move. rewrite Hthrow.
    eapply wp_emplace_throw; [|done].
    by rewrite (slot_at_index _ _ _ _ Hb).
  - unfold push_back. apply wp_bind.
    eapply wp_run; [done|]. wp_get. wp_get. rewrite Hsize.
    apply wp_bind. eapply wp_data_plus; [done..|lia|].
    apply wp_bind. unfold construct_copy. rewrite Hthrow.
    eapply wp_emplace_throw; [|done].
    by rewrite (slot_at_index _ _ _ _ Hb).
Qed.

(** *** Arguments that refer into the vector's own buffer *)

Lemma wp_construct_copy_from `{!Regular T} (a : A) (p q : ptr) (s : slot T)
    (x : T) w (Q : outcome unit → world → Prop) :
  slot_at (mem w) p = Some s → slot_at (mem w) q = Some (Live x) →
  Q (Ok tt) {| objs := objs w; mem := set_slot (mem w) p (Live x) |} →
  wp (construct_copy_from a p q) w Q.
Proof.
  intros Hp Hq HQ. unfold wp, construct_copy_from, lift.
  by rewrite Hp, Hq, copy_construct_ok.
Qed.

(** A reallocation releases the buffer the vector had. *)
Lemma reallocate_releases `{!Regular T} this a (l : list T) cap n w :
  holds this a l cap w → N.of_nat (length l) ≤ n → n ≤ max_size_of a →
  wp (reallocate this n) w (λ r w',
    r = Ok tt ∧ holds this a l n w' ∧
    (∀ v b o, objs w !! this = Some v → data_ v = Loc b o →
       blocks (mem w') !! b = None) ∧
    field data_ this w' = (Ok (Loc (next_block (mem w)) 0), w') ∧
    next_block (mem w') = S (next_block (mem w))).
Proof.
  intros (v & Hv & Ha & Hsize & Hcap & Hle & Hmax & Hdata) Hn Hna.
  assert (n ≤ PTRDIFF_MAX) by (etrans; [done|apply max_size_of_le]).
  unfold reallocate. wp_get. rewrite Ha.
  apply wp_bind. eapply wp_allocate_ok; [done|].
  set (nb := next_block (mem w)).
  wp_get. apply wp_bind. unfold try_for.
  rewrite Hsize, N.sub_0_r, Nat2N.id.
  destruct (data_ v) as [|b o] eqn:Hd.
  - assert (l = []) as -> by (destruct l; [done|simpl in *; lia]).
    apply wp_ret. wp_get. wp_get. rewrite Hd. rewrite decide_False by naive_solver.
    apply wp_bind, wp_ret. do 2 wp_set. split_and!; try done.
    + eexists. split; [apply lookup_insert_eq|]. simpl. split_and!; try done.
      * lia.
      * rewrite lookup_insert_eq. unfold buffer_of. simpl. do 2 f_equal. lia.
    + intros v' b o [= <-]. by rewrite Hd.
    + by erewrite field_run by apply lookup_insert_eq.
  - destruct Hdata as (-> & Hlt & Hb).
    eapply wp_mono.
    { rewrite <-Ha.
      apply (move_loop this v b nb _ (replicate (N.to_nat cap - length l) Raw)
               l [] (N.to_nat n - length l)); cbn [mem blocks objs]; try done.
      - subst nb. lia.
      - rewrite lookup_insert_ne by (subst nb; lia). done.
      - rewrite lookup_insert_eq. simpl. do 2 f_equal. lia. }
    cbn [mem blocks objs next_block].
    intros r w' (-> & Ho & Hnext & Hb' & Hnb').
    wp_get. wp_get. rewrite Hd. rewrite decide_True by done.
    apply wp_bind. eapply wp_deallocate; [done| |].
    { rewrite length_app, !length_replicate. simpl. lia. }
    do 2 wp_set. split_and!; try done.
    + eexists. split; [apply lookup_insert_eq|]. simpl. split_and!; try done.
      * rewrite Hnext. lia.
      * rewrite lookup_delete_ne by (subst nb; lia). by rewrite Hnb'.
    + intros v' b' o' [= <-]. rewrite Hd. intros [= <- <-].
      apply lookup_delete_eq.
    + by erewrite field_run by apply lookup_insert_eq.
Qed.

Lemma grow_if_full_releases `{!Regular T} this a (l : list T) cap w :
  holds this a l cap w → N.of_nat (length l) = cap → 0 < cap →
  2 * cap ≤ max_size_of a →
  wp (grow_if_full this) w (λ r w',
    r = Ok tt ∧ holds this a l (2 * cap) w' ∧
    (∀ v b o, objs w !! this = Some v → data_ v = Loc b o →
       blocks (mem w') !! b = None) ∧
    field data_ this w' = (Ok (Loc (next_block (mem w)) 0), w') ∧
    next_block (mem w') = S (next_block (mem w))).
Proof.
  intros Hh Hfull Hpos Hg.
  pose proof Hh as (v & Hv & Ha & Hsize & Hcap & Hle & Hmax & _).
  pose proof (max_size_of_le a). rewrite PTRDIFF_MAX_eq in *.
  unfold grow_if_full. wp_get. wp_get.
  rewrite Hsize, Hcap. rewrite decide_True by lia.
  unfold reserve. wp_get. rewrite Hcap.
  rewrite (decide_True (P := cap ≠ 0)) by lia.
  rewrite size_t_small by (rewrite PTRDIFF_MAX_eq; lia).
  rewrite decide_False by lia.
  replace (cap * 2) with (2 * cap) by lia.
  eapply wp_mono; [apply (reallocate_releases this a l cap); [done|lia|done]|].
  cbn beta. intros r w' (-> & Hh' & Hgone & Hdata & Hnext).
  split_and!; try done.
  intros v' b o [= <-] Hd. by eapply Hgone.
Qed.

(** X13.  [v.push_back(v[k])], the argument being a reference to an element of
    the vector itself.  With spare capacity a copy of the element is
    appended.  On a full vector the buffer is reallocated and released
    before the argument is read: the reference dangles and the
    behaviour is undefined. *)
Theorem push_back_own_element `{!Regular T} this a (l : list T) cap k x w :
  holds this a l cap w → l !! k = Some x →
  ∃ p, subscript this (N.of_nat k) w = (Ok p, w) ∧
    load p w = (Ok x, w) ∧
    (N.of_nat (length l) < cap →
       ∃ w', push_back_ref this p w = (Ok tt, w') ∧
             holds this a (l ++ [x]) cap w') ∧
    (N.of_nat (length l) = cap → 2 * cap ≤ max_size_of a →
       (push_back_ref this p w).1 = Undefined).
Proof.
  intros Hh Hk.
  destruct (element_at_holds _ _ _ _ _ _ _ Hh Hk)
    as (b & Hdata & Hs & Hat & _ & Hload).
  pose proof (holds_nonempty _ _ _ _ _ _ _ Hh Hk) as Hpos.
  destruct (holds_block _ _ _ _ _ Hh Hpos)
    as (v & b' & Hv & Hd & Ha & Hsize & Hcap & Hle & Hmax & Hlt & Hb & Hlen).
  rewrite (field_run data_ this v w Hv), Hd in Hdata. injection Hdata as <-.
  exists (Loc b' (Z.of_nat k)). split_and!; try done.
  - intros Hroom.
    assert (wp (push_back_ref this (Loc b' (Z.of_nat k))) w (λ r w',
              r = Ok tt ∧ holds this a (l ++ [x]) cap w')) as Hwp.
    { unfold push_back_ref. apply wp_bind.
      eapply wp_run; [apply (grow_if_full_room this v); [done|lia]|].
      wp_get. wp_get. rewrite Hsize.
      apply wp_bind. eapply wp_data_plus; [done..|lia|].
      assert (is_Some (buffer_of l cap !! length l)) as [s Hsl].
      { apply lookup_lt_is_Some. lia. }
      apply wp_bind. eapply wp_construct_copy_from; [|done|].
      { by rewrite (slot_at_index _ _ _ _ Hb). }
      rewrite PTRDIFF_MAX_eq in *.
      wp_set. rewrite size_t_small by (rewrite PTRDIFF_MAX_eq; lia).
      split; [done|]. eexists. split; [apply lookup_insert_eq|]. simpl.
      rewrite length_app. simpl. split_and!; try done; try lia.
      rewrite Hd. split_and!; try done.
      rewrite lookup_alter_eq, Hb. simpl.
      by rewrite Nat2Z.id, buffer_of_snoc. }
    unfold wp in Hwp.
    destruct (push_back_ref this (Loc b' (Z.of_nat k)) w) as [r w'].
    simpl in Hwp. destruct Hwp as [-> Hh']. by exists w'.
  - intros Hfull Hg.
    change ((push_back_ref this (Loc b' (Z.of_nat k)) w).1 = Undefined)
      with (wp (push_back_ref this (Loc b' (Z.of_nat k))) w
              (λ r _, r = Undefined)).
    unfold push_back_ref. apply wp_bind.
    eapply wp_mono; [by apply (grow_if_full_releases this a l cap)|].
    cbn beta. intros r w1 (-> & Hh1 & Hgone & _).
    specialize (Hgone v b' 0%Z Hv Hd).
    destruct (holds_block _ _ _ _ _ Hh1 ltac:(lia))
      as (v1 & b1 & Hv1 & Hd1 & Ha1 & Hsize1 & Hcap1 & Hle1 & Hmax1 & Hlt1
          & Hb1 & Hlen1).
    wp_get. wp_get. rewrite Hsize1.
    apply wp_bind. eapply wp_data_plus; [done..|lia|].
    apply wp_bind. unfold wp, construct_copy_from, lift.
    assert (slot_at (mem w1) (Loc b' (Z.of_nat k)) = None) as ->.
    { unfold slot_at. rewrite decide_True by lia. by rewrite Hgone. }
    by destruct (slot_at (mem w1) (Loc b1 (Z.of_nat (length l)))).
Qed.

(** X14.  [v.assing(v.begin(), v.end())] on a vector that is not empty:
    [clear()] destroys the elements of the range before the loop moves
    from the first of them, so the behaviour is undefined. *)
Theorem assing_own_range_undefined this a (x : T) (l : list T) cap fuel w :
  holds this a (x :: l) cap w →
  ∃ first last,
    begin this w = (Ok first, w) ∧ end_ this w = (Ok last, w) ∧
    (assing_range (S fuel) this first last w).1 = Undefined.
Proof.
  intros Hh.
  assert (0 < cap) as Hpos.
  { destruct Hh as (? & _ & _ & _ & _ & Hle & _). simpl in Hle. lia. }
  destruct (holds_block _ _ _ _ _ Hh Hpos)
    as (v & b & Hv & Hd & Ha & Hsize & Hcap & Hle & Hmax & Hlt & Hb & Hlen).
  exists {| ptr_ := Loc b 0 |},
         {| ptr_ := Loc b (Z.of_nat (length (x :: l))) |}.
  split_and!.
  - unfold begin. by rewrite (bind_ok _ _ _ _ _ (field_run data_ _ _ _ Hv)), Hd.
  - apply wp_eq. unfold end_. wp_get. rewrite Hsize. apply wp_bind.
    eapply wp_data_plus; [done..|lia|]. by apply wp_ret.
  - change (wp (assing_range (S fuel) this {| ptr_ := Loc b 0 |}
                  {| ptr_ := Loc b (Z.of_nat (length (x :: l))) |}) w
              (λ r _, r = Undefined)).
    unfold assing_range. apply wp_bind.
    eapply wp_mono; [by apply (clear_holds this a (x :: l) cap)|].
    cbn beta. intros r w1 (-> & Hh1 & Hdata1 & _).
    rewrite Hv in Hdata1. simpl in Hdata1. rewrite Hd in Hdata1.
    destruct (holds_block _ _ _ _ _ Hh1 Hpos)
      as (v1 & b1 & Hv1 & Hd1 & Ha1 & Hsize1 & Hcap1 & Hle1 & Hmax1 & Hlt1
          & Hb1 & Hlen1).
    rewrite (field_run data_ this v1 w1 Hv1), Hd1 in Hdata1.
    injection Hdata1 as ->.
    assert (slot_at (mem w1) (Loc b 0) = Some Raw) as Hraw.
    { change (Loc b 0) with (Loc b (Z.of_nat 0)).
      rewrite (slot_at_index _ _ _ 0 Hb1). unfold buffer_of. simpl.
      apply lookup_replicate_2. lia. }
    simpl. unfold iter_ne. simpl.
    rewrite bool_decide_true by (intros [=]).
    apply wp_bind. unfold iter_star. simpl. eapply wp_deref; [done|].
    apply wp_bind. unfold push_back_move_ref. apply wp_bind.
    eapply wp_run.
    { apply (grow_if_full_room this v1); [done|]. rewrite Hsize1. simpl. lia. }
    wp_get. wp_get. rewrite Hsize1. simpl.
    apply wp_bind. unfold data_plus. wp_get. rewrite Hd1.
    eapply (wp_ptr_add b 0 0); [done|lia|].
    apply wp_bind. unfold wp, construct_move_from, lift.
    change (0 + 0)%Z with 0%Z. by rewrite !Hraw.
Qed.

(** *** Sequences of appends, with arguments of either kind *)

Lemma push_back_own_holds `{!Regular T} this a (l : list T) cap (k : N) x w :
  holds this a l cap w → l !! N.to_nat k = Some x →
  N.of_nat (length l) < cap →
  wp (push_back_with this (Own k)) w (λ r w',
    r = Ok tt ∧ holds this a (l ++ [x]) cap w').
Proof.
  intros Hh Hk Hroom.
  destruct (element_at_holds _ _ _ _ _ _ _ Hh Hk)
    as (b & Hdata & Hs & Hat & _ & Hload).
  destruct (holds_block _ _ _ _ _ Hh ltac:(lia))
    as (v & b' & Hv & Hd & Ha & Hsize & Hcap & Hle & Hmax & Hlt & Hb & Hlen).
  rewrite (field_run data_ this v w Hv), Hd in Hdata. injection Hdata as <-.
  rewrite N2Nat.id in Hat.
  unfold push_back_with, subscript. apply wp_bind.
  eapply wp_run; [exact Hat|].
  unfold push_back_ref. apply wp_bind.
  eapply wp_run; [apply (grow_if_full_room this v); [done|lia]|].
  wp_get. wp_get. rewrite Hsize.
  apply wp_bind. eapply wp_data_plus; [done..|lia|].
  assert (is_Some (buffer_of l cap !! length l)) as [s Hsl].
  { apply lookup_lt_is_Some. lia. }
  apply wp_bind. eapply wp_construct_copy_from; [|done|].
  { by rewrite (slot_at_index _ _ _ _ Hb). }
  rewrite PTRDIFF_MAX_eq in *.
  wp_set. rewrite size_t_small by (rewrite PTRDIFF_MAX_eq; lia).
  split; [done|]. eexists. split; [apply lookup_insert_eq|]. simpl.
  rewrite length_app. simpl. split_and!; try done; try lia.
  rewrite Hd. split_and!; try done.
  rewrite lookup_alter_eq, Hb. simpl.
  by rewrite Nat2Z.id, buffer_of_snoc.
Qed.

Lemma push_back_with_each_holds `{!Regular T} this a (args : list argument) :
  ∀ (l vs : list T) cap w,
  holds this a l cap w →
  2 * N.of_nat (length l + length args) ≤ max_size_of a →
  contents l cap args = Some vs →
  wp (for_each args (push_back_with this)) w (λ r w',
    r = Ok tt ∧ ∃ cap', holds this a vs cap' w').
Proof.
  induction args as [|[rvalue x|k] args IH]; intros l vs cap w Hh Hmax Hvs;
    simpl in *.
  - injection Hvs as <-. apply wp_ret. eauto.
  - apply wp_bind. eapply wp_mono.
    { apply (push_back_as_holds rvalue this a l cap x w Hh).
      apply (grown_bound l cap (length args)); [by eapply holds_le|done]. }
    cbn beta. intros r w1 (-> & Hh1).
    eapply IH; [done| |done]. rewrite length_app. simpl.
    by replace (length l + 1 + length args)%nat
      with (length l + S (length args))%nat by lia.
  - destruct (decide (N.of_nat (length l) < cap)) as [Hroom|]; [|done].
    destruct (l !! N.to_nat k) as [x|] eqn:Hk; [|done]. simpl in Hvs.
    apply wp_bind. eapply wp_mono.
    { by apply (push_back_own_holds this a l cap k x w). }
    cbn beta. intros r w1 (-> & Hh1).
    eapply IH; [done| |done]. rewrite length_app. simpl.
    by replace (length l + 1 + length args)%nat
      with (length l + S (length args))%nat by lia.
Qed.

(** What [contents] is: the elements there were, then one value for each
    argument; the given value for an object of the caller's, and for an
    element of the vector the value it has. *)
Lemma contents_values (args : list argument) :
  ∀ (l vs : list T) cap,
  contents l cap args = Some vs →
  (∃ new, vs = l ++ new ∧ length new = length args) ∧
  (∀ i rvalue x, args !! i = Some (Outside rvalue x) →
     vs !! (length l + i)%nat = Some x) ∧
  (∀ i k, args !! i = Some (Own k) →
     (N.to_nat k < length l + i)%nat ∧
     vs !! (length l + i)%nat = vs !! N.to_nat k).
Proof.
  induction args as [|arg args IH]; intros l vs cap Hvs.
  - simpl in Hvs. injection Hvs as <-. split_and!; try done.
    exists []. by rewrite app_nil_r.
  - assert (∃ y cap', contents (l ++ [y]) cap' args = Some vs ∧
              match arg with
              | Outside _ x => y = x
              | Own k => l !! N.to_nat k = Some y
              end) as (y & cap' & Hrest & Hy).
    { simpl in Hvs. destruct arg as [rvalue x|k].
      - by exists x, (grown (N.of_nat (length l)) cap).
      - destruct (decide (N.of_nat (length l) < cap)); [|done].
        destruct (l !! N.to_nat k) as [y|] eqn:Hk; [|done].
        by exists y, cap. }
    destruct (IH _ _ _ Hrest) as ((new & -> & Hlen) & Hout & Hown).
    rewrite length_app in Hout, Hown. simpl in Hout, Hown.
    assert (((l ++ [y]) ++ new) !! length l = Some y) as Hhead.
    { rewrite <-app_assoc. rewrite lookup_app_r by lia.
      by rewrite Nat.sub_diag. }
    split_and!.
    + exists (y :: new). split; [by rewrite <-app_assoc|simpl; lia].
    + intros [|i] rvalue x Hi; simpl in Hi.
      * injection Hi as ->. subst y. by rewrite Nat.add_0_r.
      * replace (length l + S i)%nat with (length l + 1 + i)%nat by lia.
        by eapply Hout.
    + intros [|i] k Hi; simpl in Hi.
      * injection Hi as ->. rewrite Nat.add_0_r.
        pose proof (lookup_lt_Some _ _ _ Hy). split; [done|].
        rewrite Hhead. rewrite <-app_assoc.
        by rewrite lookup_app_l by lia.
      * replace (length l + S i)%nat with (length l + 1 + i)%nat by lia.
        by eapply Hown.
Qed.

(** C5, as amended.  After a sequence of N calls of [push_back] on an
    empty vector, each given an object outside the vector's buffer (as
    an lvalue or an rvalue) or, while [size() < capacity()], one of the
    vector's own elements as an lvalue: [size()] is N, [v[i]] reads the
    value the i-th call was given, for every i below N, and iterating
    from [begin()] to [end()] reads them all in order.  ([contents]
    gives the values, and has none when an own element is given to a
    call that finds the vector full.) *)
Theorem push_back_retrievable `{!Regular T} this a
    (args : list argument) cap (vs : list T) w :
  holds this a [] cap w →
  2 * N.of_nat (length args) ≤ max_size_of a →
  contents [] cap args = Some vs →
  ∃ w',
    for_each args (push_back_with this) w = (Ok tt, w') ∧
    size this w' = (Ok (N.of_nat (length args)), w') ∧
    length vs = length args ∧
    (∀ i rvalue x, args !! i = Some (Outside rvalue x) → vs !! i = Some x) ∧
    (∀ i k, args !! i = Some (Own k) →
       (N.to_nat k < i)%nat ∧ vs !! i = vs !! N.to_nat k) ∧
    (∀ i x, vs !! i = Some x →
       read_subscript this (N.of_nat i) w' = (Ok x, w')) ∧
    traverse (S (length args)) this w' = (Ok (Some vs), w').
Proof.
  intros Hh Hmax Hvs.
  pose proof (push_back_with_each_holds this a args [] vs cap w Hh Hmax Hvs)
    as Hwp.
  destruct (contents_values args [] vs cap Hvs)
    as ((new & Hnew & Hlen) & Hout & Hown).
  simpl in Hnew. subst new.
  unfold wp in Hwp.
  destruct (for_each args _ w) as [r w']. simpl in Hwp.
  destruct Hwp as (-> & cap' & Hh').
  exists w'. split_and!; try done.
  - rewrite (holds_size _ _ _ _ _ Hh'). by rewrite Hlen.
  - intros i x Hi. by eapply read_subscript_holds.
  - eapply traverse_holds; [done|lia].
Qed.

(** *** The constructors that build elements *)

Lemma wp_same {X} (m m' : M X) w (Q : outcome X → world → Prop) :
  m w = m' w → wp m' w Q → wp m w Q.
Proof. unfold wp. by intros ->. Qed.

Lemma blocks_set_slot_insert m b blk (k : nat) (s : slot T) :
  blocks m !! b = Some blk →
  blocks (set_slot m (Loc b (Z.of_nat k)) s) = <[b := <[k := s]> blk]> (blocks m).
Proof.
  intros Hb. unfold set_slot, with_blocks. simpl. rewrite Nat2Z.id.
  by apply alter_alt_Some.
Qed.

Lemma wp_construct_copy_ok (a : A) (p : ptr) (s : slot T) (x : T) w
    (Q : outcome unit → world → Prop) :
  slot_at (mem w) p = Some s → copy_construct x = Some x →
  Q (Ok tt) {| objs := objs w; mem := set_slot (mem w) p (Live x) |} →
  wp (construct_copy a p x) w Q.
Proof.
  intros Hs Hx HQ. unfold wp, construct_copy, emplace, lift.
  by rewrite Hs, Hx.
Qed.

(** A loop that copy-constructs the values [xs] into consecutive raw
    slots of the buffer, whatever else its body reads on the way, as
    long as what it reads ([P]) is not in the buffer. *)
Lemma construct_range this v b body (P : world → Prop) (xs : list T) :
  (∀ w (k : Z) (s : slot T),
     P w → P {| objs := objs w; mem := set_slot (mem w) (Loc b k) s |}) →
  ∀ (pre tail : list (slot T)) w,
  P w → objs w !! this = Some v → data_ v = Loc b 0 →
  blocks (mem w) !! b = Some (pre ++ replicate (length xs) Raw ++ tail) →
  Forall (λ x, copy_construct x = Some x) xs →
  (∀ (j : nat) x w0, xs !! j = Some x → P w0 → objs w0 = objs w →
     body (N.of_nat (length pre + j)) w0 =
       (p ← data_plus this (N.of_nat (length pre + j));
        construct_copy (alloc_ v) p x) w0) →
  wp (for_from (N.of_nat (length pre)) (length xs) body) w
     (λ r w', r = Ok tt ∧ objs w' = objs w ∧
        next_block (mem w') = next_block (mem w) ∧
        blocks (mem w') =
          <[b := pre ++ (Live <$> xs) ++ tail]> (blocks (mem w)) ∧
        destroyed (mem w') = destroyed (mem w)).
Proof.
  intros HP. induction xs as [|x xs IH];
    intros pre tail w HPw Hv Hd Hb Hok Hbody; simpl.
  - apply wp_ret. split_and!; try done. symmetry. by apply insert_id.
  - apply Forall_cons in Hok as [Hx Hok].
    pose proof (Hbody 0%nat x w eq_refl HPw eq_refl) as E.
    rewrite Nat.add_0_r in E.
    apply wp_bind. eapply wp_same; [exact E|]. clear E.
    apply wp_bind. eapply wp_data_plus; [done..| |].
    { rewrite !length_app. simpl. lia. }
    eapply wp_construct_copy_ok; [|done|].
    { rewrite (slot_at_index _ _ _ _ Hb).
      rewrite lookup_app_r by lia. by rewrite Nat.sub_diag. }
    replace (N.of_nat (length pre) + 1)
      with (N.of_nat (length (pre ++ [Live x])))
      by (rewrite length_app; simpl; lia).
    eapply wp_mono.
    { apply (IH (pre ++ [Live x]) tail); cbn [mem blocks objs];
        [by apply HP|done|done| |done|].
      - rewrite (blocks_set_slot _ _ _ _ _ Hb).
        rewrite insert_app_r_alt by lia. rewrite Nat.sub_diag. simpl.
        by rewrite <-app_assoc.
      - intros j y w0 Hj HP0 Ho0. rewrite length_app. simpl.
        replace (length pre + 1 + j)%nat with (length pre + S j)%nat by lia.
        by apply Hbody. }
    cbn [mem blocks objs next_block destroyed].
    intros r w' (-> & -> & -> & Hb' & ->). split_and!; try done.
    rewrite Hb', (blocks_set_slot_insert _ _ _ _ _ Hb), insert_insert_eq.
    by rewrite <-app_assoc.
Qed.

(** The same loop when the copy constructor throws for the value after
    [xs]: the copies made so far stay where they are. *)
Lemma construct_range_throws this v b body (xs : list T) (x : T) :
  ∀ (pre tail : list (slot T)) (count : nat) w,
  objs w !! this = Some v → data_ v = Loc b 0 →
  blocks (mem w) !! b =
    Some (pre ++ replicate (length xs) Raw ++ Raw :: tail) →
  Forall (λ y, copy_construct y = Some y) xs → copy_construct x = None →
  (∀ (j : nat) y w0, (xs ++ [x]) !! j = Some y →
     body (N.of_nat (length pre + j)) w0 =
       (p ← data_plus this (N.of_nat (length pre + j));
        construct_copy (alloc_ v) p y) w0) →
  (length xs < count)%nat →
  wp (for_from (N.of_nat (length pre)) count body) w
     (λ r w', r = Throw element_error ∧ objs w' = objs w ∧
        next_block (mem w') = next_block (mem w) ∧
        blocks (mem w') =
          <[b := pre ++ (Live <$> xs) ++ Raw :: tail]> (blocks (mem w)) ∧
        destroyed (mem w') = destroyed (mem w)).
Proof.
  induction xs as [|y xs IH];
    intros pre tail count w Hv Hd Hb Hok Hx Hbody Hcount;
    (destruct count as [|count]; [simpl in Hcount; lia|]); simpl.
  - pose proof (Hbody 0%nat x w eq_refl) as E. rewrite Nat.add_0_r in E.
    apply wp_bind. eapply wp_same; [exact E|]. clear E.
    apply wp_bind. eapply wp_data_plus; [done..| |].
    { rewrite !length_app. simpl. lia. }
    unfold construct_copy. rewrite Hx. eapply wp_emplace_throw.
    { rewrite (slot_at_index _ _ _ _ Hb).
      rewrite lookup_app_r by lia. by rewrite Nat.sub_diag. }
    split_and!; try done. symmetry. by apply insert_id.
  - apply Forall_cons in Hok as [Hy Hok].
    pose proof (Hbody 0%nat y w eq_refl) as E. rewrite Nat.add_0_r in E.
    apply wp_bind. eapply wp_same; [exact E|]. clear E.
    apply wp_bind. eapply wp_data_plus; [done..| |].
    { rewrite !length_app. simpl. lia. }
    eapply wp_construct_copy_ok; [|done|].
    { rewrite (slot_at_index _ _ _ _ Hb).
      rewrite lookup_app_r by lia. by rewrite Nat.sub_diag. }
    replace (N.of_nat (length pre) + 1)
      with (N.of_nat (length (pre ++ [Live y])))
      by (rewrite length_app; simpl; lia).
    eapply wp_mono.
    { apply (IH (pre ++ [Live y]) tail count); cbn [mem blocks objs];
        [done|done| |done|done| |simpl in Hcount; lia].
      - rewrite (blocks_set_slot _ _ _ _ _ Hb).
        rewrite insert_app_r_alt by lia. rewrite Nat.sub_diag. simpl.
        by rewrite <-app_assoc.
      - intros j z w0 Hj. rewrite length_app. simpl.
        replace (length pre + 1 + j)%nat with (length pre + S j)%nat by lia.
        by apply Hbody. }
    cbn [mem blocks objs next_block destroyed].
    intros r w' (-> & -> & -> & Hb' & ->). split_and!; try done.
    rewrite Hb', (blocks_set_slot_insert _ _ _ _ _ Hb), insert_insert_eq.
    by rewrite <-app_assoc.
Qed.

(** [reallocate] on a vector without elements and without a buffer. *)
Lemma reallocate_empty this v n w :
  objs w !! this = Some v → size_ v = 0 → data_ v = nullptr →
  n ≤ max_size_of (alloc_ v) →
  reallocate this n w =
    (Ok tt,
     {| objs := <[this := mk (Loc (next_block (mem w)) 0) 0 n (alloc_ v)]>
                  (objs w);
        mem := {| blocks := <[next_block (mem w) := replicate (N.to_nat n) Raw]>
                              (blocks (mem w));
                  next_block := S (next_block (mem w));
                  destroyed := destroyed (mem w) |} |}).
Proof.
  intros Hv Hsize Hd Hn. apply wp_eq.
  unfold reallocate. wp_get.
  apply wp_bind. eapply wp_allocate_ok; [done|].
  wp_get. apply wp_bind. unfold try_for. rewrite Hsize. simpl.
  apply wp_ret. wp_get. wp_get. rewrite Hd.
  rewrite decide_False by naive_solver.
  apply wp_bind, wp_ret. do 2 wp_set. split; [done|].
  by rewrite insert_insert_eq, Hsize.
Qed.

Lemma MyVector_range_holds this (range : list T) w :
  objs w !! this = None →
  N.of_nat (length range) ≤ max_size_of alloc_default →
  Forall (λ x, copy_construct x = Some x) range →
  wp (MyVector_range this range) w (λ r w',
    r = Ok tt ∧
    holds this alloc_default range (N.of_nat (length range)) w' ∧
    (∀ x, x ≠ this → objs w' !! x = objs w !! x) ∧
    (∀ b, b ≠ next_block (mem w) →
       blocks (mem w') !! b = blocks (mem w) !! b) ∧
    destroyed (mem w') = destroyed (mem w)).
Proof.
  intros Hnew Hmax Hok.
  pose proof (max_size_of_le (alloc_default : A)) as Hpd.
  unfold MyVector_range, constructing.
  apply wp_bind. unfold wp at 1, object_begin. rewrite Hnew. simpl.
  apply wp_catch.
  rewrite size_t_small by (rewrite PTRDIFF_MAX_eq in *; lia).
  apply wp_bind. unfold reserve. wp_get.
  destruct (decide (range = [])) as [->|Hne].
  - simpl. apply wp_ret. wp_get. apply wp_bind. unfold for_. simpl.
    apply wp_ret. wp_set. split_and!; try done.
    + eexists. split; [apply lookup_insert_eq|]. simpl.
      split_and!; done.
    + intros x ?. by rewrite insert_insert_eq, lookup_insert_ne.
  - assert (0 < N.of_nat (length range)) as Hpos
      by (destruct range; [done|simpl; lia]).
    rewrite decide_False by lia.
    eapply wp_run.
    { apply (reallocate_empty this (member_defaults alloc_default));
        [apply lookup_insert_eq|done..]. }
    set (nb := next_block (mem w)).
    wp_get. apply wp_bind. unfold for_.
    rewrite N.sub_0_r, Nat2N.id.
    eapply wp_mono.
    { apply (construct_range this
               (mk (Loc nb 0) 0 (N.of_nat (length range)) alloc_default)
               nb _ (λ _, True) range ltac:(done) [] []);
        cbn [mem blocks objs]; [done| |done| |done|].
      - by rewrite insert_insert_eq, lookup_insert_eq.
      - rewrite lookup_insert_eq. simpl. by rewrite app_nil_r.
      - intros j x w0 Hj _ _. simpl. by rewrite Nat2N.id, Hj. }
    cbn [mem blocks objs next_block destroyed].
    intros r w' (-> & Ho & Hnext & Hb & Hdes).
    wp_set. split_and!; try done.
    + eexists. split; [apply lookup_insert_eq|]. simpl.
      split_and!; try done; try lia.
      rewrite Hb, lookup_insert_eq. simpl. unfold buffer_of.
        rewrite app_nil_r.
        replace (N.to_nat (N.of_nat (length range)) - length range)%nat
          with 0%nat by lia.
        simpl. by rewrite app_nil_r.
    + intros x ?. rewrite lookup_insert_ne, Ho by done.
      by rewrite !lookup_insert_ne.
    + intros b ?. rewrite Hb. subst nb. by rewrite !lookup_insert_ne.
Qed.


(** X15.  The constructor from a range, and so the one from an initializer
    list, builds a vector that holds copies of the range in order, with
    capacity equal to its size, in one new block; nothing else is
    touched. *)
Theorem range_constructor_builds this (range : list T) w :
  objs w !! this = None →
  N.of_nat (length range) ≤ max_size_of alloc_default →
  Forall (λ x, copy_construct x = Some x) range →
  ∃ w', MyVector_range this range w = (Ok tt, w') ∧
    holds this alloc_default range (N.of_nat (length range)) w' ∧
    (∀ x, x ≠ this → objs w' !! x = objs w !! x) ∧
    (∀ b, b ≠ next_block (mem w) →
       blocks (mem w') !! b = blocks (mem w) !! b) ∧
    destroyed (mem w') = destroyed (mem w) ∧
    size this w' = (Ok (N.of_nat (length range)), w') ∧
    capacity this w' = (Ok (N.of_nat (length range)), w') ∧
    traverse (S (length range)) this w' = (Ok (Some range), w').
Proof.
  intros Hnew Hmax Hok.
  pose proof (MyVector_range_holds this range w Hnew Hmax Hok) as Hwp.
  unfold wp in Hwp. destruct (MyVector_range this range w) as [r w'].
  simpl in Hwp. destruct Hwp as (-> & Hh & Hobjs & Hblocks & Hdes).
  exists w'. split_and!; try done.
  - by eapply holds_size.
  - by eapply holds_capacity.
  - eapply traverse_holds; [done|lia].
Qed.

(** X16.  When the copy constructor throws for an element of the range, the
    exception leaves the constructor with the buffer still allocated and
    the copies made so far still alive in it: no destructor has run, and
    there is no vector object left that could release them. *)
Theorem range_constructor_failure_leaks this (pre post : list T) (x : T) w :
  objs w !! this = None →
  N.of_nat (length (pre ++ x :: post)) ≤ max_size_of alloc_default →
  Forall (λ y, copy_construct y = Some y) pre → copy_construct x = None →
  ∃ w', MyVector_range this (pre ++ x :: post) w = (Throw element_error, w') ∧
    objs w' = objs w ∧
    blocks (mem w') !! next_block (mem w) =
      Some ((Live <$> pre) ++ replicate (S (length post)) Raw) ∧
    next_block (mem w') = S (next_block (mem w)) ∧
    (∀ b, b ≠ next_block (mem w) →
       blocks (mem w') !! b = blocks (mem w) !! b) ∧
    destroyed (mem w') = destroyed (mem w).
Proof.
  intros Hnew Hmax Hok Hx.
  pose proof (max_size_of_le (alloc_default : A)) as Hpd.
  set (range := pre ++ x :: post) in *.
  assert (length range = (length pre + S (length post))%nat) as Hlen
    by (unfold range; rewrite length_app; done).
  assert (wp (MyVector_range this range) w (λ r w',
    r = Throw element_error ∧ objs w' = objs w ∧
    blocks (mem w') !! next_block (mem w) =
      Some ((Live <$> pre) ++ replicate (S (length post)) Raw) ∧
    next_block (mem w') = S (next_block (mem w)) ∧
    (∀ b, b ≠ next_block (mem w) →
       blocks (mem w') !! b = blocks (mem w) !! b) ∧
    destroyed (mem w') = destroyed (mem w))) as Hwp.
  { unfold MyVector_range, constructing.
    apply wp_bind. unfold wp at 1, object_begin. rewrite Hnew. simpl.
    apply wp_catch.
    rewrite size_t_small by (rewrite PTRDIFF_MAX_eq in *; lia).
    apply wp_bind. unfold reserve. wp_get.
    rewrite decide_False by lia.
    eapply wp_run.
    { apply (reallocate_empty this (member_defaults alloc_default));
        [apply lookup_insert_eq|done..]. }
    set (nb := next_block (mem w)).
    wp_get. apply wp_bind. unfold for_.
    rewrite N.sub_0_r, Nat2N.id.
    eapply wp_mono.
    { apply (construct_range_throws this
               (mk (Loc nb 0) 0 (N.of_nat (length range)) alloc_default)
               nb _ pre x [] (replicate (length post) Raw) (length range));
        cbn [mem blocks objs]; [|done| |done|done| |lia].
      - by rewrite insert_insert_eq, lookup_insert_eq.
      - rewrite lookup_insert_eq. simpl. rewrite ?Nat2N.id, Hlen.
        by rewrite replicate_add.
      - intros j y w0 Hj. simpl. rewrite Nat2N.id. unfold range.
        rewrite cons_middle, app_assoc.
        by rewrite (lookup_app_l_Some _ _ _ _ Hj). }
    cbn [mem blocks objs next_block destroyed].
    intros r w' (-> & Ho & Hnext & Hb & Hdes).
    apply wp_bind, wp_object_end, wp_throw. cbn [mem objs].
    split_and!; try done.
    - rewrite Ho, !delete_insert_eq. by apply delete_id.
    - rewrite Hb, lookup_insert_eq. by simpl.
    - intros b ?. rewrite Hb. subst nb. by rewrite !lookup_insert_ne. }
  unfold wp in Hwp. destruct (MyVector_range this range w) as [r w'].
  simpl in Hwp. destruct Hwp as (-> & ?). by exists w'.
Qed.

Lemma MyVector_fill_holds this n (value : T) w :
  objs w !! this = None → n ≤ max_size_of alloc_default →
  copy_construct value = Some value →
  wp (MyVector_fill this n value) w (λ r w',
    r = Ok tt ∧
    holds this alloc_default (replicate (N.to_nat n) value) n w' ∧
    (∀ x, x ≠ this → objs w' !! x = objs w !! x) ∧
    destroyed (mem w') = destroyed (mem w) ∧
    ∃ b, (next_block (mem w) ≤ b)%nat ∧
      blocks (mem w') !! b = Some (replicate (N.to_nat n) Raw) ∧
      ∀ v, objs w' !! this = Some v → data_ v ≠ Loc b 0).
Proof.
  intros Hnew Hmax Hcopy.
  pose proof (max_size_of_le (alloc_default : A)) as Hpd.
  unfold MyVector_fill, constructing.
  apply wp_bind. unfold wp at 1, object_begin. rewrite Hnew. simpl.
  apply wp_catch.
  apply wp_bind. unfold reserve. wp_get.
  destruct (decide (n = 0)) as [->|Hne].
  - simpl. apply wp_ret. wp_get.
    apply wp_bind. eapply wp_allocate_ok; [done|].
    apply wp_bind. unfold for_. simpl. apply wp_ret.
    wp_set. split_and!; try done.
    + eexists. split; [apply lookup_insert_eq|]. simpl.
      split_and!; done.
    + intros x ?. by rewrite insert_insert_eq, lookup_insert_ne.
    + exists (next_block (mem w)). split_and!; [done| |].
      * by rewrite lookup_insert_eq.
      * intros v. rewrite lookup_insert_eq. by intros [= <-].
  - rewrite decide_False by lia.
    eapply wp_run.
    { apply (reallocate_empty this (member_defaults alloc_default));
        [apply lookup_insert_eq|done..]. }
    set (nb := next_block (mem w)).
    wp_get. apply wp_bind. eapply wp_allocate_ok; [done|].
    cbn [mem blocks objs next_block destroyed].
    apply wp_bind. unfold for_.
    replace (N.to_nat (n - 0))
      with (length (replicate (N.to_nat n) value))
      by (rewrite length_replicate; lia).
    eapply wp_mono.
    { apply (construct_range this (mk (Loc nb 0) 0 n alloc_default)
               nb _ (λ _, True) (replicate (N.to_nat n) value)
               ltac:(done) [] []);
        cbn [mem blocks objs]; [done| |done| | |].
      - by rewrite insert_insert_eq, lookup_insert_eq.
      - rewrite lookup_insert_ne by lia. rewrite lookup_insert_eq. simpl.
        by rewrite app_nil_r, length_replicate.
      - by apply Forall_replicate.
      - intros j x w0 Hj _ _. simpl.
        by apply lookup_replicate_1 in Hj as [-> _]. }
    cbn [mem blocks objs next_block destroyed].
    intros r w' (-> & Ho & Hnext & Hb & Hdes).
    wp_set. split_and!; try done.
    + eexists. split; [apply lookup_insert_eq|]. simpl.
      rewrite length_replicate, N2Nat.id.
      split_and!; try done; try lia.
      rewrite Hb, lookup_insert_eq. simpl. unfold buffer_of.
      rewrite app_nil_r, length_replicate, Nat.sub_diag. simpl.
      by rewrite app_nil_r.
    + intros x ?. rewrite lookup_insert_ne, Ho by done.
      by rewrite !lookup_insert_ne.
    + exists (S nb). split_and!; [lia| |].
      * rewrite Hb. rewrite lookup_insert_ne by lia.
        by rewrite lookup_insert_eq.
      * intros v. rewrite lookup_insert_eq. intros [= <-]. simpl.
        intros [=]. lia.
Qed.

(** X17.  [MyVector(n, value)] builds a vector of [n] copies of [value], with
    capacity [n]. *)
Theorem sized_constructor_fills this n (value : T) w :
  objs w !! this = None → n ≤ max_size_of alloc_default →
  copy_construct value = Some value →
  ∃ w', MyVector_fill this n value w = (Ok tt, w') ∧
    holds this alloc_default (replicate (N.to_nat n) value) n w' ∧
    (∀ x, x ≠ this → objs w' !! x = objs w !! x) ∧
    size this w' = (Ok n, w') ∧
    capacity this w' = (Ok n, w') ∧
    (∀ i, i < n → read_subscript this i w' = (Ok value, w')) ∧
    traverse (S (N.to_nat n)) this w' =
      (Ok (Some (replicate (N.to_nat n) value)), w').
Proof.
  intros Hnew Hmax Hcopy.
  pose proof (MyVector_fill_holds this n value w Hnew Hmax Hcopy) as Hwp.
  unfold wp in Hwp. destruct (MyVector_fill this n value w) as [r w'].
  simpl in Hwp. destruct Hwp as (-> & Hh & Hobjs & _).
  exists w'. split_and!; try done.
  - rewrite (holds_size _ _ _ _ _ Hh), length_replicate. by rewrite N2Nat.id.
  - by eapply holds_capacity.
  - intros i Hi. rewrite <-(N2Nat.id i).
    eapply read_subscript_holds; [done|].
    apply lookup_replicate_2. lia.
  - eapply traverse_holds; [done|]. rewrite length_replicate. lia.
Qed.

(** X18.  [MyVector(n, value)] allocates a second block of [n] elements,
    beside the buffer, that nothing refers to: after the vector has
    been destroyed again that block is still allocated. *)
Theorem sized_constructor_leaks this n (value : T) w :
  objs w !! this = None → n ≤ max_size_of alloc_default →
  copy_construct value = Some value →
  ∃ w' w'' b,
    MyVector_fill this n value w = (Ok tt, w') ∧
    MyVector_destroy this w' = (Ok tt, w'') ∧
    objs w'' = objs w ∧
    destroyed (mem w'') = destroyed (mem w) ++ replicate (N.to_nat n) value ∧
    (next_block (mem w) ≤ b)%nat ∧
    blocks (mem w'') !! b = Some (replicate (N.to_nat n) Raw).
Proof.
  intros Hnew Hmax Hcopy.
  pose proof (MyVector_fill_holds this n value w Hnew Hmax Hcopy) as Hwp.
  unfold wp in Hwp. destruct (MyVector_fill this n value w) as [r w'].
  simpl in Hwp.
  destruct Hwp as (-> & Hh & Hobjs & Hdes & b & Hfresh & Hb & Hdata).
  pose proof (MyVector_destroy_holds this _ _ _ w' Hh) as Hwp.
  unfold wp in Hwp. destruct (MyVector_destroy this w') as [r w''] eqn:Hrun.
  simpl in Hwp. destruct Hwp as (-> & Ho & Hdes' & _ & Hframe).
  exists w', w'', b. split_and!; try done.
  - rewrite Ho. apply map_eq. intros x.
    destruct (decide (x = this)) as [->|Hx].
    + by rewrite lookup_delete_eq.
    + rewrite lookup_delete_ne by done. by apply Hobjs.
  - by rewrite Hdes', Hdes.
  - destruct Hh as (v & Hv & _ & _ & _ & _ & _ & Hdv).
    specialize (Hframe v Hv). specialize (Hdata v Hv).
    destruct (data_ v) as [|b0 o] eqn:Hd.
    + by rewrite Hframe.
    + destruct Hframe as [_ Hframe]. destruct Hdv as (-> & _).
      rewrite Hframe; [done|]. by intros ->.
Qed.


(** *** [assing] from an initializer list *)

Lemma for_each_fmap {X Y} (f : X → Y) (xs : list X) (step : Y → M unit) :
  for_each (f <$> xs) step = for_each xs (λ x, step (f x)).
Proof.
  induction xs as [|x xs IH]; [done|].
  rewrite fmap_cons. cbn [for_each]. by rewrite IH.
Qed.

(** X19.  [assing({x1, ..., xn})] replaces whatever the vector held by copies
    of the listed values, in order. *)
Theorem assing_list_replaces `{!Regular T} this a (l il : list T) cap w :
  holds this a l cap w →
  2 * N.of_nat (length il) ≤ max_size_of a →
  ∃ w' cap', assing_list this il w = (Ok tt, w') ∧
    holds this a il cap' w' ∧
    size this w' = (Ok (N.of_nat (length il)), w') ∧
    (∀ i x, il !! i = Some x →
       read_subscript this (N.of_nat i) w' = (Ok x, w')) ∧
    traverse (S (length il)) this w' = (Ok (Some il), w').
Proof.
  intros Hh Hmax.
  assert (wp (assing_list this il) w (λ r w',
            r = Ok tt ∧ ∃ cap', holds this a il cap' w')) as Hwp.
  { unfold assing_list. apply wp_bind.
    eapply wp_mono; [by apply (clear_holds this a l cap)|].
    cbn beta. intros r w1 (-> & Hh1 & _).
    pose proof (for_each_push_back_holds this a ((λ x, (false, x)) <$> il)
                  [] cap w1 Hh1) as Hloop.
    rewrite length_fmap in Hloop. specialize (Hloop Hmax).
    rewrite for_each_fmap in Hloop. simpl in Hloop.
    rewrite <-list_fmap_compose in Hloop.
    by rewrite list_fmap_id in Hloop. }
  unfold wp in Hwp. destruct (assing_list this il w) as [r w'].
  simpl in Hwp. destruct Hwp as (-> & cap' & Hh').
  exists w', cap'. split_and!; try done.
  - by eapply holds_size.
  - intros i x Hi. by eapply read_subscript_holds.
  - eapply traverse_holds; [done|lia].
Qed.

(** *** [shrink_to_fit] *)

(** The loop of [shrink_to_fit]: the elements are moved into the new
    block and their moved-from remains stay in the old one. *)
Lemma move_only_loop `{!Regular T} this v b nb (tail : list (slot T))
    (rest : list T) :
  ∀ (left moved : list T) (extra : nat) w,
  objs w !! this = Some v → data_ v = Loc b 0 → b ≠ nb →
  length left = length moved →
  blocks (mem w) !! b = Some ((Live <$> left) ++ (Live <$> rest) ++ tail) →
  blocks (mem w) !! nb =
    Some ((Live <$> moved) ++ replicate (length rest + extra) Raw) →
  wp (for_from (N.of_nat (length moved)) (length rest)
        (λ i,
           src ← data_at this i;
           dst ← ptr_add (Loc nb 0) (Z.of_N i);
           construct_move_from (alloc_ v) dst src)) w
     (λ r w', r = Ok tt ∧ objs w' = objs w ∧
        next_block (mem w') = next_block (mem w) ∧
        destroyed (mem w') = destroyed (mem w) ∧
        (∀ b', b' ≠ b → b' ≠ nb →
           blocks (mem w') !! b' = blocks (mem w) !! b') ∧
        (∃ residues, length residues = length rest ∧
           blocks (mem w') !! b =
             Some ((Live <$> left ++ residues) ++ tail)) ∧
        blocks (mem w') !! nb =
          Some ((Live <$> moved ++ rest) ++ replicate extra Raw)).
Proof.
  induction rest as [|x rest IH];
    intros left moved extra w Hv Hd Hne Hlen Hb Hnb.
  - apply wp_ret. split_and!; try done.
    + exists []. by rewrite app_nil_r.
    + by rewrite app_nil_r.
  - cbn [length for_from]. apply wp_bind.
    set (k := length moved) in *.
    assert (Hbk : ((Live <$> left) ++ (Live <$> x :: rest) ++ tail) !! k
                  = Some (Live x)).
    { rewrite lookup_app_r by (rewrite length_fmap; lia).
      by rewrite length_fmap, Hlen, Nat.sub_diag. }
    assert (Hnbk : ((Live <$> moved) ++
                    replicate (length (x :: rest) + extra) (@Raw T)) !! k
                   = Some Raw).
    { rewrite lookup_app_r by (rewrite length_fmap; lia).
      rewrite length_fmap. subst k. by rewrite Nat.sub_diag. }
    apply wp_bind. eapply wp_data_at; [done..|].
    apply wp_bind. eapply wp_ptr_add_base; [done| |].
    { apply lookup_lt_Some in Hnbk. lia. }
    eapply wp_construct_move_from.
    { by rewrite (slot_at_index _ _ _ _ Hnb). }
    { by rewrite (slot_at_index _ _ _ _ Hb). }
    intros r.
    destruct (move_step_blocks (mem w) b nb k _ _ r x Hne Hb Hnb)
      as [Hb2 Hnb2].
    replace (N.of_nat k + 1) with (N.of_nat (length (moved ++ [x])))
      by (rewrite length_app; simpl; lia).
    eapply wp_mono.
    { apply (IH (left ++ [r]) (moved ++ [x]) extra);
        cbn [mem blocks objs]; try done.
      - rewrite !length_app. simpl. lia.
      - rewrite Hb2. f_equal.
        rewrite insert_app_r_alt by (rewrite length_fmap; lia).
        rewrite length_fmap. replace (k - length left)%nat with 0%nat by lia.
        simpl. by rewrite fmap_app, <-app_assoc.
      - rewrite Hnb2. f_equal.
        rewrite insert_app_r_alt by (rewrite length_fmap; lia).
        rewrite length_fmap. replace (k - length moved)%nat with 0%nat by lia.
        simpl. by rewrite fmap_app, <-app_assoc. }
    cbn [mem blocks objs next_block destroyed].
    intros r' w' (-> & -> & -> & -> & Hframe & (res & Hres & Hb') & Hnb').
    split_and!; try done.
    + intros b' ? ?. rewrite Hframe by done.
      by rewrite !blocks_set_slot_ne.
    + exists (r :: res). split; [simpl; lia|].
      rewrite Hb'. by rewrite <-app_assoc.
    + rewrite Hnb'. by rewrite <-app_assoc.
Qed.

Lemma shrink_to_fit_holds `{!Regular T} this a (l : list T) cap w :
  holds this a l cap w →
  (cap ≠ N.of_nat (length l) → N.of_nat (length l) ≤ max_size_of a) →
  wp (shrink_to_fit this) w (λ r w',
    r = Ok tt ∧ holds this a l (N.of_nat (length l)) w' ∧
    (cap = N.of_nat (length l) → w' = w) ∧
    (cap ≠ N.of_nat (length l) →
       next_block (mem w') = S (next_block (mem w)) ∧
       ∃ residues, length residues = length l ∧
         destroyed (mem w') = destroyed (mem w) ++ residues)).
Proof.
  intros Hh Hmaxa.
  pose proof Hh as (v & Hv & Ha & Hsize & Hcap & Hle & Hmax & Hdata).
  unfold shrink_to_fit. wp_get. wp_get. rewrite Hcap, Hsize.
  destruct (decide (cap = N.of_nat (length l))) as [Heq|Hne].
  { apply wp_ret. split_and!; try done. by rewrite <-Heq. }
  specialize (Hmaxa Hne).
  destruct (data_ v) as [|b o] eqn:Hd; [lia|].
  destruct Hdata as (-> & Hlt & Hb).
  wp_get. rewrite Ha. apply wp_bind. eapply wp_allocate_ok; [done|].
  set (nb := next_block (mem w)).
  assert (b ≠ nb) by lia.
  apply wp_bind. apply wp_catch. unfold for_.
  rewrite N.sub_0_r, Nat2N.id.
  eapply wp_mono.
  { rewrite <-Ha.
    apply (move_only_loop this v b nb
             (replicate (N.to_nat cap - length l) Raw) l [] [] 0);
      cbn [mem blocks objs]; try done.
    - by rewrite lookup_insert_ne.
    - rewrite lookup_insert_eq. simpl. by rewrite Nat.add_0_r. }
  cbn [mem blocks objs next_block destroyed].
  intros r w1 (-> & Ho1 & Hnext1 & Hdes1 & Hframe1 & (res & Hres & Hb1) & Hnb1).
  simpl in Hb1, Hnb1. rewrite app_nil_r in Hnb1.
  apply wp_bind. rewrite <-Hres.
  eapply wp_mono.
  { rewrite <-Ha.
    apply (destroy_range this v b (replicate (N.to_nat cap - length l) Raw)
             res [] w1); [by rewrite Ho1|done|done]. }
  cbn beta. intros r w2 (-> & Ho2 & Hnext2 & Hb2 & Hframe2 & Hdes2).
  wp_get. rewrite Hd. apply wp_bind. eapply wp_deallocate; [done| |].
  { simpl. rewrite length_app, !length_replicate. lia. }
  do 2 wp_set. split_and!; try done.
  - eexists. split; [apply lookup_insert_eq|]. simpl.
    split_and!; try done; try lia.
    rewrite ?Hres. rewrite lookup_delete_ne by done.
    rewrite Hframe2 by done. rewrite Hnb1. unfold buffer_of.
    replace (N.to_nat (N.of_nat (length l)) - length l)%nat
      with 0%nat by lia.
    simpl. by rewrite app_nil_r.
  - rewrite Hres. by intros ?.
  - intros _. split; [by rewrite Hnext2, Hnext1|].
    exists res. split; [done|]. by rewrite Hdes2, Hdes1.
Qed.

(** X20.  [shrink_to_fit()] keeps the elements and makes the capacity equal to
    the size; a second call then changes nothing. *)
Theorem shrink_to_fit_fits `{!Regular T} this a (l : list T) cap w :
  holds this a l cap w →
  (cap ≠ N.of_nat (length l) → N.of_nat (length l) ≤ max_size_of a) →
  ∃ w', shrink_to_fit this w = (Ok tt, w') ∧
    holds this a l (N.of_nat (length l)) w' ∧
    (cap = N.of_nat (length l) → w' = w) ∧
    size this w' = (Ok (N.of_nat (length l)), w') ∧
    capacity this w' = (Ok (N.of_nat (length l)), w') ∧
    traverse (S (length l)) this w' = (Ok (Some l), w') ∧
    shrink_to_fit this w' = (Ok tt, w').
Proof.
  intros Hh Hmax.
  pose proof (shrink_to_fit_holds this a l cap w Hh Hmax) as Hwp.
  unfold wp in Hwp. destruct (shrink_to_fit this w) as [r w'].
  simpl in Hwp. destruct Hwp as (-> & Hh' & Hsame & _).
  exists w'. split_and!; try done.
  - by eapply holds_size.
  - by eapply holds_capacity.
  - eapply traverse_holds; [done|lia].
  - pose proof (shrink_to_fit_holds this a l _ w' Hh' ltac:(done)) as Hwp.
    unfold wp in Hwp. destruct (shrink_to_fit this w') as [r w''].
    simpl in Hwp. destruct Hwp as (-> & _ & -> & _); done.
Qed.


(** *** The copy constructor *)

Lemma MyVector_copy_holds this other a (l : list T) cap w :
  holds other a l cap w → objs w !! this = None →
  cap ≤ max_size_of (select_on_container_copy_construction a) →
  Forall (λ x, copy_construct x = Some x) l →
  wp (MyVector_copy this other) w (λ r w',
    r = Ok tt ∧
    holds this (select_on_container_copy_construction a) l cap w' ∧
    holds other a l cap w' ∧
    field data_ this w' =
      (Ok (if decide (cap = 0) then nullptr
           else Loc (next_block (mem w)) 0), w') ∧
    (∀ x, x ≠ this → objs w' !! x = objs w !! x) ∧
    (∀ b, b ≠ next_block (mem w) →
       blocks (mem w') !! b = blocks (mem w) !! b) ∧
    destroyed (mem w') = destroyed (mem w)).
Proof.
  intros Hh Hnew Hmaxa Hok.
  pose proof Hh as (o & Ho & Ha & Hsize & Hcap & Hle & Hmax & Hdata).
  assert (this ≠ other) as Hne by congruence.
  set (a' := select_on_container_copy_construction a) in *.
  unfold MyVector_copy, constructing. wp_get. rewrite Ha. fold a'.
  apply wp_bind. unfold wp at 1, object_begin. rewrite Hnew. simpl.
  apply wp_catch.
  apply wp_bind. unfold reserve. wp_get. rewrite Hcap.
  destruct (decide (cap = 0)) as [->|Hpos].
  - assert (l = []) as -> by (destruct l; [done|simpl in *; lia]).
    simpl. apply wp_ret. wp_get. wp_get. rewrite Hsize.
    apply wp_bind. unfold for_. simpl. apply wp_ret.
    wp_get. wp_set. split_and!; try done.
    + eexists. split; [apply lookup_insert_eq|]. simpl. by rewrite Hsize.
    + exists o. split; [|done]. cbn [objs].
      by rewrite insert_insert_eq, lookup_insert_ne.
    + erewrite field_run by apply lookup_insert_eq. done.
    + intros x ?. by rewrite insert_insert_eq, lookup_insert_ne.
  - rewrite decide_False by lia.
    destruct (data_ o) as [|ob oo] eqn:Hd; [done|].
    destruct Hdata as (-> & Hlt & Hb).
    eapply wp_run.
    { apply (reallocate_empty this (member_defaults a'));
        [apply lookup_insert_eq|done..]. }
    set (nb := next_block (mem w)).
    assert (ob ≠ nb) by lia.
    wp_get. wp_get. rewrite Hsize.
    apply wp_bind. unfold for_. rewrite N.sub_0_r, Nat2N.id.
    assert (∀ (w0 : world) (k : Z) (s : slot T),
              blocks (mem w0) !! ob = Some (buffer_of l cap) →
              blocks (mem {| objs := objs w0;
                             mem := set_slot (mem w0) (Loc nb k) s |}) !! ob
              = Some (buffer_of l cap)) as Hpres.
    { intros w0 k s HP. cbn [mem]. by rewrite blocks_set_slot_ne. }
    eapply wp_mono.
    { apply (construct_range this (mk (Loc nb 0) 0 cap a') nb _
               (λ w0, blocks (mem w0) !! ob = Some (buffer_of l cap)) l
               Hpres [] (replicate (N.to_nat cap - length l) Raw));
        cbn [mem blocks objs].
      - by rewrite lookup_insert_ne.
      - by rewrite insert_insert_eq, lookup_insert_eq.
      - done.
      - rewrite lookup_insert_eq. simpl. rewrite <-replicate_add.
        do 2 f_equal. lia.
      - done.
      - intros j x w0 Hj HP Ho0. simpl.
        assert (data_at other (N.of_nat j) w0
                = (Ok (Loc ob (Z.of_nat j)), w0)) as Hat.
        { apply wp_eq. eapply wp_data_at; [|done|done| |done].
          - rewrite Ho0, insert_insert_eq. by rewrite lookup_insert_ne.
          - by apply lookup_buffer_of. }
        assert (load (Loc ob (Z.of_nat j)) w0 = (Ok x, w0)) as Hload.
        { apply wp_eq. eapply wp_load; [|done].
          rewrite (slot_at_index _ _ _ _ HP). by apply lookup_buffer_of. }
        rewrite (bind_ok _ _ _ _ _ Hat).
        by rewrite (bind_ok _ _ _ _ _ Hload). }
    cbn [mem blocks objs next_block destroyed].
    intros r w' (-> & Ho' & Hnext & Hb' & Hdes).
    wp_get. wp_set. split_and!; try done.
    + eexists. split; [apply lookup_insert_eq|]. simpl.
      split_and!; try done; try lia.
      rewrite Hb', lookup_insert_eq. by simpl.
    + exists o. rewrite Hd. cbn [objs mem blocks next_block].
      split_and!; try done; try lia.
      * rewrite lookup_insert_ne, Ho' by done.
        by rewrite !lookup_insert_ne.
      * rewrite Hb'. by rewrite !lookup_insert_ne.
    + erewrite field_run by apply lookup_insert_eq. done.
    + intros x ?. rewrite lookup_insert_ne, Ho' by done.
      by rewrite !lookup_insert_ne.
    + intros b ?. rewrite Hb'. subst nb. by rewrite !lookup_insert_ne.
Qed.

(** X21.  The copy constructor makes a deep copy: the new vector holds copies
    of the elements of [other], in a buffer of its own, with the
    capacity of [other] whatever its size; [other] and everything else
    are untouched. *)
Theorem copy_constructor_copies this other a (l : list T) cap w :
  holds other a l cap w → objs w !! this = None →
  cap ≤ max_size_of (select_on_container_copy_construction a) →
  Forall (λ x, copy_construct x = Some x) l →
  ∃ w', MyVector_copy this other w = (Ok tt, w') ∧
    holds this (select_on_container_copy_construction a) l cap w' ∧
    holds other a l cap w' ∧
    field data_ this w' =
      (Ok (if decide (cap = 0) then nullptr
           else Loc (next_block (mem w)) 0), w') ∧
    (∀ x, x ≠ this → objs w' !! x = objs w !! x) ∧
    (∀ b, b ≠ next_block (mem w) →
       blocks (mem w') !! b = blocks (mem w) !! b) ∧
    destroyed (mem w') = destroyed (mem w) ∧
    capacity this w' = (Ok cap, w') ∧
    traverse (S (length l)) this w' = (Ok (Some l), w') ∧
    traverse (S (length l)) other w' = (Ok (Some l), w').
Proof.
  intros Hh Hnew Hmax Hok.
  pose proof (MyVector_copy_holds this other a l cap w Hh Hnew Hmax Hok)
    as Hwp.
  unfold wp in Hwp. destruct (MyVector_copy this other w) as [r w'].
  simpl in Hwp.
  destruct Hwp as (-> & Hthis & Hother & Hdata & Hobjs & Hblocks & Hdes).
  exists w'. split_and!; try done.
  - by eapply holds_capacity.
  - eapply traverse_holds; [done|lia].
  - eapply traverse_holds; [done|lia].
Qed.


(** *** The copy assignment *)

Lemma clear_frame this a (l : list T) cap w :
  holds this a l cap w →
  wp (clear this) w (λ r w',
    r = Ok tt ∧ holds this a [] cap w' ∧
    next_block (mem w') = next_block (mem w) ∧
    destroyed (mem w') = destroyed (mem w) ++ l ∧
    ∃ v, objs w !! this = Some v ∧
      objs w' = <[this := mk (data_ v) 0 (capacity_ v) (alloc_ v)]> (objs w) ∧
      ∀ b, (∀ o, data_ v ≠ Loc b o) →
        blocks (mem w') !! b = blocks (mem w) !! b).
Proof.
  intros (v & Hv & Ha & Hsize & Hcap & Hle & Hmax & Hdata).
  unfold clear. wp_get. wp_get. unfold for_. apply wp_bind.
  rewrite Hsize, N.sub_0_r, Nat2N.id.
  destruct (data_ v) as [|b o] eqn:Hd.
  - assert (l = []) as -> by (destruct l; [done|simpl in *; lia]).
    simpl. wp_set. split_and!; try done.
    + eexists. split; [apply lookup_insert_eq|]. by rewrite Hd.
    + by rewrite app_nil_r.
    + exists v. by rewrite Hd.
  - destruct Hdata as (-> & Hlt & Hb).
    eapply wp_mono.
    { by apply (destroy_range this v b
                  (replicate (N.to_nat cap - length l) Raw) l [] w Hv Hd). }
    cbn beta. intros r w' (-> & Ho & Hnext & Hb' & Hframe & Hdes).
    wp_set. split_and!; try done.
    + eexists. split; [apply lookup_insert_eq|]. simpl.
      split_and!; try done; try lia. rewrite Hd. split_and!; try done; try lia.
      rewrite Hb'. unfold buffer_of. simpl. rewrite <-replicate_add.
      do 2 f_equal. lia.
    + exists v. rewrite Hd, Ho. split_and!; try done.
      intros b' Hb'ne. apply Hframe. intros ->. by eapply Hb'ne.
Qed.

(** A vector is what it was when its members and its buffer are. *)
Lemma holds_kept this a (l : list T) cap w w' :
  holds this a l cap w →
  objs w' !! this = objs w !! this →
  (next_block (mem w) ≤ next_block (mem w'))%nat →
  (∀ v b o, objs w !! this = Some v → data_ v = Loc b o →
     blocks (mem w') !! b = blocks (mem w) !! b) →
  holds this a l cap w'.
Proof.
  intros (v & Hv & Ha & Hsize & Hcap & Hle & Hmax & Hdata) Ho Hnext Hb.
  exists v. rewrite Ho. split_and!; try done.
  destruct (data_ v) as [|b o] eqn:Hd; [done|].
  destruct Hdata as (-> & Hlt & Hblk). split_and!; [done|lia|].
  by rewrite (Hb v b 0%Z Hv Hd).
Qed.

(** The loop of the copy constructor and the copy assignment, into a
    vector without elements whose capacity suffices. *)
Lemma copy_loop_holds this other a a' (l' : list T) c cap' w :
  holds this a [] c w → holds other a' l' cap' w →
  this ≠ other → apart this other w →
  N.of_nat (length l') ≤ c →
  Forall (λ x, copy_construct x = Some x) l' →
  wp (a ← field alloc_ this;
      other_size ← field size_ other;
      for_ 0 other_size (λ i,
        src ← data_at other i;
        x ← load src;
        p ← data_plus this i;
        construct_copy a p x);;
      other_size ← field size_ other;
      set_size_ this other_size) w
     (λ r w', r = Ok tt ∧ holds this a l' c w' ∧ holds other a' l' cap' w' ∧
        destroyed (mem w') = destroyed (mem w)).
Proof.
  intros Hh Hh' Hne Hapart Hlen Hok.
  pose proof Hh as (v & Hv & Ha & Hsize & Hcap & Hle & Hmax & Hdata).
  pose proof Hh' as (o & Ho & Ha' & Hsize' & Hcap' & Hle' & Hmax' & Hdata').
  wp_get. wp_get. rewrite Hsize', Ha.
  apply wp_bind. unfold for_. rewrite N.sub_0_r, Nat2N.id.
  destruct (decide (l' = [])) as [->|Hne'].
  - simpl. apply wp_ret. wp_get. rewrite Hsize'. wp_set.
    split_and!; try done.
    + exists (mk (data_ v) 0 (capacity_ v) (alloc_ v)).
      split; [apply lookup_insert_eq|]. simpl. split_and!; try done.
    + eapply holds_kept; [done|..]; cbn [objs mem]; try done.
      by rewrite lookup_insert_ne.
  - assert (0 < N.of_nat (length l'))
      by (destruct l'; [done|simpl; lia]).
    destruct (data_ v) as [|b ?] eqn:Hd; [lia|].
    destruct Hdata as (-> & Hlt & Hb).
    destruct (data_ o) as [|ob ?] eqn:Hd'; [lia|].
    destruct Hdata' as (-> & Hlt' & Hb').
    assert (ob ≠ b) as Hbne.
    { intros ->. by eapply (Hapart v o b). }
    assert (∀ (w0 : world) (k : Z) (s : slot T),
              blocks (mem w0) !! ob = Some (buffer_of l' cap') →
              blocks (mem {| objs := objs w0;
                             mem := set_slot (mem w0) (Loc b k) s |}) !! ob
              = Some (buffer_of l' cap')) as Hpres.
    { intros w0 k s HP. cbn [mem]. by rewrite blocks_set_slot_ne. }
    eapply wp_mono.
    { rewrite <-Ha.
      apply (construct_range this v b _
               (λ w0, blocks (mem w0) !! ob = Some (buffer_of l' cap')) l'
               Hpres [] (replicate (N.to_nat c - length l') Raw));
        try done.
      - rewrite Hb. unfold buffer_of. simpl. rewrite <-replicate_add.
        do 2 f_equal. lia.
      - intros j x w0 Hj HP Ho0. simpl.
        assert (data_at other (N.of_nat j) w0
                = (Ok (Loc ob (Z.of_nat j)), w0)) as Hat.
        { apply wp_eq. eapply wp_data_at; [|done|done| |done].
          - by rewrite Ho0.
          - by apply lookup_buffer_of. }
        assert (load (Loc ob (Z.of_nat j)) w0 = (Ok x, w0)) as Hload.
        { apply wp_eq. eapply wp_load; [|done].
          rewrite (slot_at_index _ _ _ _ HP). by apply lookup_buffer_of. }
        rewrite (bind_ok _ _ _ _ _ Hat).
        by rewrite (bind_ok _ _ _ _ _ Hload). }
    cbn beta. intros r w' (-> & Ho' & Hnext & Hblocks & Hdes).
    wp_get. rewrite Hsize'. wp_set. split_and!; try done.
    + eexists. split; [apply lookup_insert_eq|]. simpl.
      split_and!; try done; try lia. rewrite Hd.
      split_and!; try done; try lia.
      rewrite Hblocks, lookup_insert_eq. by simpl.
    + eapply holds_kept; [done|..]; cbn [objs mem].
      * rewrite lookup_insert_ne by done. by rewrite Ho'.
      * lia.
      * intros vo b' o' Hvo Hdo. rewrite Hblocks.
        rewrite lookup_insert_ne; [done|].
        intros <-. by eapply (Hapart v vo b).
Qed.

(** [reserve] on a vector without elements. *)
Lemma reserve_no_elements this other a c n w :
  holds this a [] c w → this ≠ other → apart this other w →
  (c < n → n ≤ max_size_of a) →
  (∀ vo b o, objs w !! other = Some vo → data_ vo = Loc b o →
     (b < next_block (mem w))%nat) →
  wp (reserve this n) w (λ r w',
    r = Ok tt ∧ holds this a [] (N.max c n) w' ∧
    objs w' !! other = objs w !! other ∧
    (next_block (mem w) ≤ next_block (mem w'))%nat ∧
    (∀ vo b o, objs w !! other = Some vo → data_ vo = Loc b o →
       blocks (mem w') !! b = blocks (mem w) !! b) ∧
    apart this other w' ∧
    destroyed (mem w') = destroyed (mem w)).
Proof.
  intros Hh Hne Hapart Hn Hfresh.
  pose proof Hh as (v & Hv & Ha & Hsize & Hcap & Hle & Hmax & Hdata).
  unfold reserve. wp_get. rewrite Hcap.
  destruct (decide (n ≤ c)) as [Hc|Hc].
  { apply wp_ret. rewrite N.max_l by done. split_and!; done. }
  rewrite N.max_r by lia. specialize (Hn ltac:(lia)).
  assert (n ≤ PTRDIFF_MAX) by (etrans; [done|apply max_size_of_le]).
  unfold reallocate. wp_get. rewrite Ha.
  apply wp_bind. eapply wp_allocate_ok; [done|].
  set (nb := next_block (mem w)).
  wp_get. apply wp_bind. unfold try_for. rewrite Hsize. simpl.
  apply wp_ret. wp_get. wp_get.
  assert (∀ (bs : gmap nat (list (slot T))),
    apart this other
      {| objs := <[this := mk (Loc nb 0) (size_ v) n (alloc_ v)]> (objs w);
         mem := {| blocks := bs; next_block := S nb;
                   destroyed := destroyed (mem w) |} |}) as Hapart'.
  { intros bs vt vo b o o'. cbn [objs].
    rewrite lookup_insert_eq, lookup_insert_ne by done.
    intros [= <-] Hvo. simpl. intros [= <- <-] Hdo.
    specialize (Hfresh vo nb o' Hvo Hdo). lia. }
  destruct (data_ v) as [|b o] eqn:Hd.
  - rewrite decide_False by naive_solver.
    apply wp_bind, wp_ret. do 2 wp_set. rewrite insert_insert_eq.
    split_and!; try done.
    + eexists. split; [apply lookup_insert_eq|]. simpl.
      split_and!; try done; try lia.
      rewrite lookup_insert_eq. unfold buffer_of. simpl.
      do 2 f_equal. lia.
    + by rewrite lookup_insert_ne.
    + lia.
    + intros vo b o Hvo Hdo. rewrite lookup_insert_ne; [done|].
      specialize (Hfresh vo b o Hvo Hdo). lia.
  - destruct Hdata as (-> & Hlt & Hb).
    rewrite decide_True by done.
    apply wp_bind. eapply wp_deallocate.
    { cbn [mem blocks]. rewrite lookup_insert_ne by lia. done. }
    { rewrite length_buffer_of by done. rewrite Hcap. lia. }
    do 2 wp_set. rewrite insert_insert_eq.
    split_and!; try done.
    + eexists. split; [apply lookup_insert_eq|]. simpl.
      split_and!; try done; try lia.
      rewrite lookup_delete_ne by lia.
      rewrite lookup_insert_eq. unfold buffer_of. simpl.
      do 2 f_equal. lia.
    + by rewrite lookup_insert_ne.
    + lia.
    + intros vo b' o Hvo Hdo.
      rewrite lookup_delete_ne by (intros <-; by eapply (Hapart v vo b)).
      rewrite lookup_insert_ne; [done|].
      specialize (Hfresh vo b' o Hvo Hdo). lia.
    + apply Hapart'.
Qed.

Lemma assign_copy_holds this other a a' (l l' : list T) cap cap' w :
  holds this a l cap w → holds other a' l' cap' w →
  this ≠ other → apart this other w →
  (cap < cap' →
   cap' ≤ max_size_of
            (if propagate_on_container_copy_assignment then a' else a)) →
  Forall (λ x, copy_construct x = Some x) l' →
  wp (assign_copy this other) w (λ r w',
    r = Ok tt ∧
    holds this (if propagate_on_container_copy_assignment then a' else a)
      l' (N.max cap cap') w' ∧
    holds other a' l' cap' w' ∧
    destroyed (mem w') = destroyed (mem w) ++ l).
Proof.
  intros Hh Hh' Hne Hapart Hmaxa Hok.
  set (a'' := if propagate_on_container_copy_assignment then a' else a) in *.
  pose proof Hh' as (o & Ho & Ha' & Hsize' & Hcap' & Hle' & Hmax' & Hdata').
  unfold assign_copy. rewrite decide_True by done.
  apply wp_bind.
  eapply wp_mono; [by apply (clear_frame this a l cap)|].
  cbn beta. intros r w1 (-> & Hh1 & Hnext1 & Hdes1 & v & Hv & Ho1 & Hframe1).
  assert (holds other a' l' cap' w1) as Hh1'.
  { eapply holds_kept; [done|..].
    - rewrite Ho1. by rewrite lookup_insert_ne.
    - lia.
    - intros vo b o' Hvo Hdo. apply Hframe1. intros o2 Hd.
      by eapply (Hapart v vo b). }
  assert (apart this other w1) as Hapart1.
  { intros vt vo b o1 o2. rewrite Ho1.
    rewrite lookup_insert_eq, lookup_insert_ne by done.
    intros [= <-] Hvo. simpl. intros Hd Hdo.
    by eapply (Hapart v vo b). }
  (* The allocator, when it propagates. *)
  assert (∀ w2, holds this a'' [] cap w2 → holds other a' l' cap' w2 →
            apart this other w2 → destroyed (mem w2) = destroyed (mem w1) →
            wp (other_capacity ← field capacity_ other;
                reserve this other_capacity;;
                a ← field alloc_ this;
                other_size ← field size_ other;
                for_ 0 other_size (λ i,
                  src ← data_at other i;
                  x ← load src;
                  p ← data_plus this i;
                  construct_copy a p x);;
                other_size ← field size_ other;
                set_size_ this other_size) w2
              (λ r w', r = Ok tt ∧ holds this a'' l' (N.max cap cap') w' ∧
                 holds other a' l' cap' w' ∧
                 destroyed (mem w') = destroyed (mem w) ++ l)) as Hrest.
  { intros w2 Hh2 Hh2' Hapart2 Hdes2.
    pose proof Hh2' as (o2 & Ho2 & _ & _ & Hcap2 & _ & _ & Hdata2).
    wp_get. rewrite Hcap2. apply wp_bind.
    eapply wp_mono.
    { apply (reserve_no_elements this other a'' cap cap'); try done.
      intros vo b o' Hvo Hdo. assert (vo = o2) as -> by congruence.
      rewrite Hdo in Hdata2. by destruct Hdata2 as (_ & ? & _). }
    cbn beta. intros r w3 (-> & Hh3 & Ho3 & Hnext3 & Hb3 & Hapart3 & Hdes3).
    assert (holds other a' l' cap' w3) as Hh3'
      by by eapply holds_kept.
    eapply wp_mono.
    { apply (copy_loop_holds this other a'' a' l' (N.max cap cap') cap');
        try done. lia. }
    cbn beta. intros r w' (-> & Hh4 & Hh4' & Hdes4). split_and!; try done.
    by rewrite Hdes4, Hdes3, Hdes2, Hdes1. }
  apply wp_bind. subst a''.
  destruct propagate_on_container_copy_assignment.
  - wp_get. rewrite Ha'. destruct Hh1 as (v1 & Hv1 & Hrest1).
    rewrite Ho1, lookup_insert_eq in Hv1. injection Hv1 as <-.
    simpl in Hrest1. destruct Hrest1 as (_ & Hrest1).
    wp_set. apply Hrest; try done.
    + eexists. split; [apply lookup_insert_eq|]. by simpl.
    + eapply holds_kept; [done|..]; cbn [objs mem]; try done.
      by rewrite lookup_insert_ne.
    + intros vt vo b o1 o2. cbn [objs].
      rewrite lookup_insert_eq, lookup_insert_ne by done.
      intros [= <-] Hvo. simpl. intros Hd Hdo.
      eapply (Hapart1 _ vo b); [|done| |done].
      * rewrite Ho1. apply lookup_insert_eq.
      * done.
  - apply wp_ret. by apply Hrest.
Qed.

(** X22.  The copy assignment between two distinct vectors that do not share
    a buffer, whose allocators compare equal when the assignment
    propagates the allocator (the buffer [this] has is from then on
    released through the allocator of [other]): the elements [this]
    held are destroyed, and [this] then holds copies of the elements of
    [other], in its own buffer, with the larger of the two capacities;
    [other] is untouched. *)
Theorem copy_assignment_copies this other a a' (l l' : list T) cap cap' w :
  holds this a l cap w → holds other a' l' cap' w →
  this ≠ other → apart this other w →
  (propagate_on_container_copy_assignment = true →
   alloc_eqb a a' = true ∧ alloc_eqb a' a = true) →
  (cap < cap' →
   cap' ≤ max_size_of
            (if propagate_on_container_copy_assignment then a' else a)) →
  Forall (λ x, copy_construct x = Some x) l' →
  ∃ w', assign_copy this other w = (Ok tt, w') ∧
    holds this (if propagate_on_container_copy_assignment then a' else a)
      l' (N.max cap cap') w' ∧
    holds other a' l' cap' w' ∧
    destroyed (mem w') = destroyed (mem w) ++ l ∧
    size this w' = (Ok (N.of_nat (length l')), w') ∧
    capacity this w' = (Ok (N.max cap cap'), w') ∧
    traverse (S (length l')) this w' = (Ok (Some l'), w') ∧
    traverse (S (length l')) other w' = (Ok (Some l'), w').
Proof.
  intros Hh Hh' Hne Hapart _ Hmax Hok.
  pose proof (assign_copy_holds this other a a' l l' cap cap' w
                Hh Hh' Hne Hapart Hmax Hok) as Hwp.
  unfold wp in Hwp. destruct (assign_copy this other w) as [r w'].
  simpl in Hwp. destruct Hwp as (-> & Hthis & Hother & Hdes).
  exists w'. split_and!; try done.
  - by eapply holds_size.
  - by eapply holds_capacity.
  - eapply traverse_holds; [done|lia].
  - eapply traverse_holds; [done|lia].
Qed.


(** *** Growth and the old buffer; the bound on the capacity *)

(** X23.  [push_back] on a full vector with a buffer moves the elements into
    one new block of twice the capacity and releases the old buffer:
    no block is left behind. *)
Theorem push_back_growth_releases_buffer `{!Regular T} rvalue this a
    (l : list T) cap x w :
  holds this a l cap w → N.of_nat (length l) = cap → 0 < cap →
  2 * cap ≤ max_size_of a →
  ∃ w' b, push_back_as rvalue this x w = (Ok tt, w') ∧
    field data_ this w = (Ok (Loc b 0), w) ∧
    blocks (mem w') !! b = None ∧
    field data_ this w' = (Ok (Loc (next_block (mem w)) 0), w') ∧
    next_block (mem w') = S (next_block (mem w)) ∧
    holds this a (l ++ [x]) (2 * cap) w'.
Proof.
  intros Hh Hfull Hpos Hg.
  destruct (holds_block _ _ _ _ _ Hh Hpos)
    as (v & b & Hv & Hd & Ha & Hsize & Hcap & Hle & Hmax & Hlt & Hb & Hlen).
  assert (wp (grow_if_full this) w (λ r w1,
            r = Ok tt ∧ holds this a l (2 * cap) w1 ∧
            blocks (mem w1) !! b = None ∧
            next_block (mem w1) = S (next_block (mem w)) ∧
            field data_ this w1 = (Ok (Loc (next_block (mem w)) 0), w1)))
    as Hgrow.
  { eapply wp_mono; [by apply (grow_if_full_releases this a l cap)|].
    cbn beta. intros r w1 (-> & Hh1 & Hgone & Hdata & Hnext).
    split_and!; try done. by eapply Hgone. }
  assert (wp (push_back_as rvalue this x) w (λ r w',
            r = Ok tt ∧ blocks (mem w') !! b = None ∧
            field data_ this w' = (Ok (Loc (next_block (mem w)) 0), w') ∧
            next_block (mem w') = S (next_block (mem w)) ∧
            holds this a (l ++ [x]) (2 * cap) w')) as Hwp.
  { assert (∀ (construct : A → ptr → T → M unit),
              (∀ (a0 : A) p s w0 Q, slot_at (mem w0) p = Some s →
                 Q (Ok tt) {| objs := objs w0;
                              mem := set_slot (mem w0) p (Live x) |} →
                 wp (construct a0 p x) w0 Q) →
              wp (grow_if_full this;;
                  a ← field alloc_ this;
                  size ← field size_ this;
                  p ← data_plus this size;
                  construct a p x;;
                  set_size_ this (size_t (size + 1))) w (λ r w',
                r = Ok tt ∧ blocks (mem w') !! b = None ∧
                field data_ this w' = (Ok (Loc (next_block (mem w)) 0), w') ∧
                next_block (mem w') = S (next_block (mem w)) ∧
                holds this a (l ++ [x]) (2 * cap) w')) as Hboth.
    { intros construct Hconstruct. apply wp_bind.
      eapply wp_mono; [exact Hgrow|].
      cbn beta. intros r w1 (-> & Hh1 & Hgone & Hnext & Hdata).
      destruct (holds_block _ _ _ _ _ Hh1 ltac:(lia))
        as (v1 & b1 & Hv1 & Hd1 & Ha1 & Hsize1 & Hcap1 & Hle1 & Hmax1 & Hlt1
            & Hb1 & Hlen1).
      rewrite (field_run data_ this v1 w1 Hv1), Hd1 in Hdata.
      injection Hdata as ->.
      assert (next_block (mem w) ≠ b) as Hbne by lia.
      rewrite PTRDIFF_MAX_eq in *.
      wp_get. wp_get. rewrite Hsize1.
      apply wp_bind. eapply wp_data_plus; [done..|lia|].
      assert (is_Some (buffer_of l (2 * cap) !! length l)) as [s Hs].
      { apply lookup_lt_is_Some. lia. }
      apply wp_bind. eapply Hconstruct.
      { by rewrite (slot_at_index _ _ _ _ Hb1). }
      wp_set. rewrite size_t_small by (rewrite PTRDIFF_MAX_eq; lia).
      split_and!; try done.
      - by rewrite lookup_alter_ne.
      - erewrite field_run by apply lookup_insert_eq. simpl. by rewrite Hd1.
      - eexists. split; [apply lookup_insert_eq|]. simpl.
        rewrite length_app. simpl. split_and!; try done; try lia.
        rewrite Hd1. split_and!; try done; try lia.
        rewrite lookup_alter_eq, Hb1. simpl.
        by rewrite Nat2Z.id, buffer_of_snoc by lia. }
    destruct rvalue; simpl.
    - apply Hboth. intros. by eapply wp_construct_move.
    - apply Hboth. intros. by eapply wp_construct_copy. }
  unfold wp in Hwp. destruct (push_back_as rvalue this x w) as [r w'].
  simpl in Hwp. destruct Hwp as (-> & Hgone & Hdata & Hnext & Hh').
  exists w', b. split_and!; try done.
  by rewrite (field_run data_ this v w Hv), Hd.
Qed.

(** X24.  In every state a program reaches whose calls of [resize] stay
    within the capacity, no vector has a capacity above [PTRDIFF_MAX],
    so that [capacity_ * 2] in [push_back] does not wrap around. *)
Theorem capacity_bounded w this v :
  reachable_within_contract w → objs w !! this = Some v →
  capacity_ v ≤ PTRDIFF_MAX ∧ size_t (capacity_ v * 2) = capacity_ v * 2.
Proof.
  intros Hw Hv.
  destruct (reachable_within_contract_sound w Hw this v Hv) as [_ Hcap].
  split; [done|]. apply size_t_small. lia.
Qed.


End Logic.

(** ** The claims at concrete inputs *)

Section Concrete.
Local Open Scope string_scope.
Local Open Scope nat_scope.

(** C1 (the code at a failing input).  Vector 0 holds ["a"; "b"], vector 1
    is empty.  After the move assignment [v1 = std::move(v0)] the
    destination [v1] is empty, and the source [v0] still has its buffer,
    its size, its capacity and its elements: the reset at the end of
    [operator=] is applied to [this], not to [other]. *)
Theorem assign_move_resets_destination :
  let before := (run [New_range 0 ["a"; "b"]; New_default 1] start).2 in
  let after := (assign_move 1 0 before).2 in
  (assign_move 1 0 before).1 = Ok tt ∧
  objs before !! 0 = Some {| data_ := Loc 0 0; size_ := 2; capacity_ := 2; alloc_ := tt |} ∧
  objs after !! 0 = Some {| data_ := Loc 0 0; size_ := 2; capacity_ := 2; alloc_ := tt |} ∧
  blocks (mem after) !! 0 = Some [Live "a"; Live "b"] ∧
  objs after !! 1 = Some {| data_ := nullptr; size_ := 0; capacity_ := 0; alloc_ := tt |}.
Proof. vm_compute. done. Qed.

(** C3 (the code at a failing input).  Vector 0 holds [1; 13] and is
    full.  [push_back(3)] reallocates; moving 13 throws.  The exception
    leaves the call, size and capacity are what they were, but element 0
    of the buffer has been destroyed: reading [v[0]] is undefined. *)
Theorem push_back_failure_loses_elements :
  let before := (run [New_range 0 [1; 13]] start).2 in
  let after := (push_back 0 3 before).2 in
  (push_back 0 3 before).1 = Throw element_error ∧
  objs before !! 0 = Some {| data_ := Loc 0 0; size_ := 2; capacity_ := 2; alloc_ := tt |} ∧
  blocks (mem before) !! 0 = Some [Live 1; Live 13] ∧
  objs after !! 0 = Some {| data_ := Loc 0 0; size_ := 2; capacity_ := 2; alloc_ := tt |} ∧
  blocks (mem after) !! 0 = Some [Raw; Live 13] ∧
  (read_subscript 0 0 before).1 = Ok 1 ∧
  (read_subscript 0 0 after).1 = Undefined.
Proof. vm_compute. done. Qed.

(** C4 (the code at a failing input).  Vector 0 holds ["a"] with
    capacity 4.  [resize(3)] sets the size to 3 and constructs nothing:
    slots 1 and 2 are still raw storage, and reading [v[1]] is
    undefined. *)
Theorem resize_growth_constructs_nothing :
  let before :=
    (run [New_default 0; Reserve 0 4%N; Push_back 0 "a"] start).2 in
  let after := (resize 0 3%N before).2 in
  (resize 0 3%N before).1 = Ok tt ∧
  objs before !! 0 = Some {| data_ := Loc 0 0; size_ := 1; capacity_ := 4; alloc_ := tt |} ∧
  objs after !! 0 = Some {| data_ := Loc 0 0; size_ := 3; capacity_ := 4; alloc_ := tt |} ∧
  blocks (mem after) !! 0 = Some [Live "a"; Raw; Raw; Raw] ∧
  mem after = mem before ∧
  (read_subscript 0 1%N after).1 = Undefined.
Proof. vm_compute. done. Qed.

(** C8 (the code at a failing input).  Vector 0 holds [1; 13] with
    capacity 4.  [shrink_to_fit()] allocates block 1 and moves 1 into it;
    moving 13 throws.  The handler releases block 1 without destroying
    the element it holds (no destructor has run), and element 0 of the
    vector is left in its moved-from state 0. *)
Theorem shrink_to_fit_failure_skips_destroy :
  let before :=
    (run [New_default 0; Reserve 0 4%N; Push_back 0 1; Push_back 0 13]
       start).2 in
  let after := (shrink_to_fit 0 before).2 in
  (shrink_to_fit 0 before).1 = Throw element_error ∧
  objs before !! 0 = Some {| data_ := Loc 0 0; size_ := 2; capacity_ := 4; alloc_ := tt |} ∧
  blocks (mem before) !! 0 = Some [Live 1; Live 13; Raw; Raw] ∧
  objs after !! 0 = Some {| data_ := Loc 0 0; size_ := 2; capacity_ := 4; alloc_ := tt |} ∧
  blocks (mem after) !! 0 = Some [Live 0; Live 13; Raw; Raw] ∧
  blocks (mem after) !! 1 = None ∧
  next_block (mem after) = 2 ∧
  destroyed (mem after) = [].
Proof. vm_compute. done. Qed.

(** C2 (counterexample).  A default-constructed vector, then
    [resize(1)]: no call has undefined behaviour, and the vector has size
    1 and capacity 0. *)
Lemma resize_breaks_size_le_capacity :
  let w : world string unit :=
    (exec (Resize 0 1%N) (exec (New_default 0) start).2).2 in
  reachable w ∧ ¬ size_le_capacity w.
Proof.
  split.
  - apply reachable_call; [|by vm_compute].
    apply reachable_call; [|by vm_compute]. apply reachable_start.
  - intros Hle.
    specialize (Hle 0 {| data_ := nullptr; size_ := 1; capacity_ := 0;
                         alloc_ := tt |} eq_refl).
    by vm_compute in Hle.
Qed.

(** C9 (counterexample).  Vector 0 holds ["a"] with capacity 1.  After
    [clear()] the capacity is still 1, and [data()] returns null. *)
Lemma data_null_after_clear :
  let before : world string unit := (run [New_range 0 ["a"]] start).2 in
  let after := (clear 0 before).2 in
  (capacity 0 before).1 = Ok 1%N ∧
  (clear 0 before).1 = Ok tt ∧
  (capacity 0 after).1 = Ok 1%N ∧
  (data 0 after).1 = Ok nullptr ∧
  ¬ ((data 0 after).1 ≠ Ok nullptr ↔ (0 < 1)%N).
Proof.
  split_and!; try by vm_compute.
  intros [_ Hnonnull]. apply Hnonnull; [done|]. by vm_compute.
Qed.

(** C5 (the claim as stated, at an input where it fails).  On a
    default-constructed vector of strings, [v.push_back("a")] and then
    [v.push_back(v[0])]: the second call finds the vector full,
    reallocates and releases the buffer, and then copies from the
    argument, a reference into the released buffer.  The behaviour is
    undefined; the calls do not return with size 2.  Likewise
    [v.push_back(std::move(v[0]))] with spare capacity returns, and
    leaves the first appended value moved-from. *)
Lemma push_back_own_element_not_retrievable :
  let w : world string unit := (MyVector_default 0 start).2 in
  let args : list argument := [Outside false "a"; Own 0%N] in
  (for_each args (push_back_with 0) w).1 = Undefined ∧
  ¬ (∃ w', for_each args (push_back_with 0) w = (Ok tt, w') ∧
           size 0 w' = (Ok (N.of_nat (length args)), w') ∧
           read_subscript 0 1%N w' = (Ok "a", w')) ∧
  let w3 :=
    (for_each [Outside false "a"; Outside false "b"; Outside false "c"]
       (push_back_with 0) w).2 in
  let moved := (r ← subscript 0 0%N; push_back_move_ref 0 r) w3 in
  (read_subscript 0 0%N w3).1 = Ok "a" ∧
  moved.1 = Ok tt ∧
  (read_subscript 0 3%N moved.2).1 = Ok "a" ∧
  (read_subscript 0 0%N moved.2).1 = Ok "".
Proof.
  intros w args. split_and!; try by vm_compute.
  intros (w' & Hrun & _). by vm_compute in Hrun.
Qed.

(** Showing that a vector holds what the data model says, by
    evaluation. *)
Ltac holds_by_evaluation :=
  eexists; split; [by vm_compute|]; vm_compute; split_and!; (done || lia).

(** C2: a state within the contract, to which the theorem applies. *)
Lemma size_le_capacity_within_contract_witness :
  let w : world string unit :=
    (exec (Resize 0 1%N)
       (exec (Push_back 0 "a") (exec (New_default 0) start).2).2).2 in
  reachable_within_contract w ∧ size_le_capacity w.
Proof.
  intros w.
  assert (reachable_within_contract w) as Hr.
  { apply contract_call; [| |by vm_compute].
    2: { intros v Hv. vm_compute in Hv. by injection Hv as <-. }
    apply contract_call; [|done|by vm_compute].
    apply contract_call; [|done|by vm_compute]. apply contract_start. }
  split; [exact Hr|]. exact (size_le_capacity_within_contract w Hr).
Defined.

(** C5: three appends of strings of the caller's to a default-constructed
    vector of strings, then one of the vector's first element, which
    finds size 3 and capacity 4. *)
Lemma push_back_retrievable_witness :
  let w : world string unit := (MyVector_default 0 start).2 in
  let args :=
    [Outside false "a"; Outside true "b"; Outside false "c"; Own 0%N] in
  let vs := ["a"; "b"; "c"; "a"] in
  holds 0 tt [] 0%N w ∧
  (2 * N.of_nat (length args) ≤ max_size_of tt)%N ∧
  contents [] 0%N args = Some vs ∧
  ∃ w',
    for_each args (push_back_with 0) w = (Ok tt, w') ∧
    size 0 w' = (Ok (N.of_nat (length args)), w') ∧
    length vs = length args ∧
    (∀ i rvalue x, args !! i = Some (Outside rvalue x) → vs !! i = Some x) ∧
    (∀ i k, args !! i = Some (Own k) →
       (N.to_nat k < i)%nat ∧ vs !! i = vs !! N.to_nat k) ∧
    (∀ i x, vs !! i = Some x →
       read_subscript 0 (N.of_nat i) w' = (Ok x, w')) ∧
    traverse (S (length args)) 0 w' = (Ok (Some vs), w').
Proof.
  intros w args vs.
  assert (holds 0 tt [] 0%N w) as Hh by holds_by_evaluation.
  assert (2 * N.of_nat (length args) ≤ max_size_of tt)%N as Hmax
    by by vm_compute.
  assert (contents [] 0%N args = Some vs) as Hvs by reflexivity.
  split_and!; [exact Hh|exact Hmax|exact Hvs|].
  exact (push_back_retrievable 0 tt args 0%N vs w Hh Hmax Hvs).
Defined.

(** C6: five appends to a default-constructed vector of strings. *)
Lemma growth_doubling_witness :
  let w : world string unit := (MyVector_default 0 start).2 in
  let appends :=
    [(false, "a"); (true, "b"); (false, "c"); (true, "d"); (false, "e")] in
  holds 0 tt [] 0%N w ∧
  (2 * N.of_nat (length appends) ≤ max_size_of tt)%N ∧
  ∃ history w',
    push_back_each 0 appends w = (Ok history, w') ∧
    length history = length appends ∧
    ∀ j c, history !! j = Some c →
      c = N.max 1
            (2 ^ N.of_nat (growth_events 0 (take (S j) history) - 1)).
Proof.
  intros w appends.
  assert (holds 0 tt [] 0%N w) as Hh by holds_by_evaluation.
  assert (2 * N.of_nat (length appends) ≤ max_size_of tt)%N as Hmax
    by by vm_compute.
  split_and!; [exact Hh|exact Hmax|].
  exact (proj1 (growth_doubling 0 tt appends w Hh Hmax)).
Defined.

(** C7: an empty vector of strings, asked for element 0. *)
Lemma access_boundaries_witness :
  let w : world string unit := (MyVector_default 0 start).2 in
  let v := member_defaults tt in
  objs w !! 0 = Some v ∧
  at_ 0 0%N w = (Throw (out_of_range "Index out of range"), w) ∧
  pop_back 0 w = (Ok tt, w).
Proof.
  intros w v.
  assert (objs w !! 0 = Some v) as Hv by by vm_compute.
  pose proof (access_boundaries 0 v w 0%N Hv) as (Hat & _ & _ & _ & _ & _ & Hpop).
  split_and!; [exact Hv|by apply Hat|by apply Hpop].
Defined.

(** C9: a vector holding ["a"; "b"]. *)
Lemma clear_keeps_capacity_witness :
  let w : world string unit := (run [New_range 0 ["a"; "b"]] start).2 in
  holds 0 tt ["a"; "b"] 2%N w ∧
  ∃ w', clear 0 w = (Ok tt, w') ∧
    holds 0 tt [] 2%N w' ∧
    destroyed (mem w') = (destroyed (mem w) ++ ["a"; "b"])%list ∧
    size 0 w' = (Ok 0%N, w') ∧
    capacity 0 w' = (Ok 2%N, w') ∧
    (field data_ 0 w').1 = (field data_ 0 w).1 ∧
    data 0 w' = (Ok nullptr, w').
Proof.
  intros w.
  assert (holds 0 tt ["a"; "b"] 2%N w) as Hh by holds_by_evaluation.
  split; [exact Hh|]. exact (clear_keeps_capacity 0 tt ["a"; "b"] 2%N w Hh).
Defined.

(** C10: a vector holding ["a"; "b"], assigned three copies of "z". *)
Lemma assing_fills_witness :
  let w : world string unit := (run [New_range 0 ["a"; "b"]] start).2 in
  holds 0 tt ["a"; "b"] 2%N w ∧
  (2 * 3 ≤ max_size_of tt)%N ∧
  ∃ w1 w' cap',
    clear 0 w = (Ok tt, w1) ∧
    holds 0 tt [] 2%N w1 ∧
    destroyed (mem w1) = (destroyed (mem w) ++ ["a"; "b"])%list ∧
    for_ 0 3 (λ _, push_back 0 "z") w1 = (Ok tt, w') ∧
    assing 0 3%N "z" w = (Ok tt, w') ∧
    holds 0 tt (replicate (N.to_nat 3) "z") cap' w' ∧
    size 0 w' = (Ok 3%N, w') ∧
    (∀ i, (i < 3)%N → read_subscript 0 i w' = (Ok "z", w')).
Proof.
  intros w.
  assert (holds 0 tt ["a"; "b"] 2%N w) as Hh by holds_by_evaluation.
  assert (2 * 3 ≤ max_size_of tt)%N as Hmax by by vm_compute.
  split_and!; [exact Hh|exact Hmax|].
  exact (assing_fills 0 tt ["a"; "b"] 2%N 3%N "z" w Hh Hmax).
Defined.

(** ** The further properties at concrete inputs *)

(** X1: A vector holding ["a"; "b"], asked for a capacity of 5. *)
Lemma reserve_keeps_elements_witness :
  let w : world string unit := (run [New_range 0 ["a"; "b"]] start).2 in
  holds 0 tt ["a"; "b"] 2%N w ∧
  ((5 ≤ 2)%N → reserve 0 5%N w = (Ok tt, w)) ∧
  ((∃ w', reserve 0 5%N w = (Ok tt, w') ∧
      holds 0 tt ["a"; "b"] (N.max 2 5) w' ∧
      size 0 w' = (Ok (N.of_nat (length ["a"; "b"])), w') ∧
      capacity 0 w' = (Ok (N.max 2 5), w') ∧
      traverse (S (length ["a"; "b"])) 0 w' = (Ok (Some ["a"; "b"]), w')) ∨
   ((2 < 5)%N ∧ reserve 0 5%N w = (Throw bad_alloc, w))).
Proof.
  intros w.
  assert (holds 0 tt ["a"; "b"] 2%N w) as Hh by holds_by_evaluation.
  split; [exact Hh|].
  exact (reserve_keeps_elements 0 tt ["a"; "b"] 2%N 5%N w Hh).
Defined.

(** X2: A vector holding ["a"], asked for a capacity of 2^63. *)
Lemma growth_refused_witness :
  let w : world string unit := (run [New_range 0 ["a"]] start).2 in
  let v := {| data_ := Loc 0 0; size_ := 1; capacity_ := 1; alloc_ := tt |} in
  objs w !! 0 = Some v ∧
  reserve 0 (2 ^ 63)%N w = (Throw bad_alloc, w).
Proof.
  intros w v.
  assert (objs w !! 0 = Some v) as Hv by by vm_compute.
  split; [exact Hv|].
  apply (proj1 (growth_refused 0 v (2 ^ 63)%N "x" false w Hv)); by vm_compute.
Defined.

(** X3: A vector holding ["a"; "b"]. *)
Lemma pop_back_removes_last_witness :
  let w : world string unit := (run [New_range 0 ["a"; "b"]] start).2 in
  holds 0 tt (["a"] ++ ["b"])%list 2%N w ∧
  ∃ w', pop_back 0 w = (Ok tt, w') ∧
    holds 0 tt ["a"] 2%N w' ∧
    destroyed (mem w') = (destroyed (mem w) ++ ["b"])%list ∧
    size 0 w' = (Ok (N.of_nat (length ["a"])), w') ∧
    capacity 0 w' = (Ok 2%N, w') ∧
    traverse (S (length ["a"])) 0 w' = (Ok (Some ["a"]), w') ∧
    (field data_ 0 w').1 = (field data_ 0 w).1.
Proof.
  intros w.
  assert (holds 0 tt (["a"] ++ ["b"])%list 2%N w) as Hh
    by holds_by_evaluation.
  split; [exact Hh|].
  exact (pop_back_removes_last 0 tt ["a"] "b" 2%N w Hh).
Defined.

(** X4: A vector holding ["a"; "b"; "c"], resized to 1. *)
Lemma resize_shrink_destroys_tail_witness :
  let w : world string unit := (run [New_range 0 ["a"; "b"; "c"]] start).2 in
  holds 0 tt ["a"; "b"; "c"] 3%N w ∧
  1 ≤ length ["a"; "b"; "c"] ∧
  ∃ w', resize 0 (N.of_nat 1) w = (Ok tt, w') ∧
    holds 0 tt (take 1 ["a"; "b"; "c"]) 3%N w' ∧
    destroyed (mem w') = (destroyed (mem w) ++ drop 1 ["a"; "b"; "c"])%list ∧
    size 0 w' = (Ok (N.of_nat 1), w') ∧
    capacity 0 w' = (Ok 3%N, w') ∧
    traverse (S 1) 0 w' = (Ok (Some (take 1 ["a"; "b"; "c"])), w') ∧
    (field data_ 0 w').1 = (field data_ 0 w).1.
Proof.
  intros w.
  assert (holds 0 tt ["a"; "b"; "c"] 3%N w) as Hh by holds_by_evaluation.
  assert (1 ≤ length ["a"; "b"; "c"]) as Hn by (simpl; lia).
  split_and!; [exact Hh|exact Hn|].
  exact (resize_shrink_destroys_tail 0 tt ["a"; "b"; "c"] 3%N 1 w Hh Hn).
Defined.

(** X5: A full vector holding ["a"; "b"]: push_back("c") then pop_back(). *)
Lemma push_back_pop_back_witness :
  let w : world string unit := (run [New_range 0 ["a"; "b"]] start).2 in
  holds 0 tt ["a"; "b"] 2%N w ∧
  ((2 ≤ N.of_nat (length ["a"; "b"]))%N →
   (grown (N.of_nat (length ["a"; "b"])) 2 ≤ max_size_of tt)%N) ∧
  ∃ w', (push_back_as false 0 "c";; pop_back 0) w = (Ok tt, w') ∧
    holds 0 tt ["a"; "b"] (grown (N.of_nat (length ["a"; "b"])) 2) w' ∧
    size 0 w' = (Ok (N.of_nat (length ["a"; "b"])), w') ∧
    traverse (S (length ["a"; "b"])) 0 w' = (Ok (Some ["a"; "b"]), w').
Proof.
  intros w.
  assert (holds 0 tt ["a"; "b"] 2%N w) as Hh by holds_by_evaluation.
  assert ((2 ≤ N.of_nat (length ["a"; "b"]))%N →
          (grown (N.of_nat (length ["a"; "b"])) 2 ≤ max_size_of tt)%N) as Hg
    by (intros _; by vm_compute).
  split_and!; [exact Hh|exact Hg|].
  exact (push_back_pop_back false 0 tt ["a"; "b"] 2%N "c" w Hh Hg).
Defined.

(** X6: A vector holding ["a"; "b"], destroyed. *)
Lemma destructor_releases_everything_witness :
  let w : world string unit := (run [New_range 0 ["a"; "b"]] start).2 in
  holds 0 tt ["a"; "b"] 2%N w ∧
  ∃ w', MyVector_destroy 0 w = (Ok tt, w') ∧
    objs w' = delete 0 (objs w) ∧
    destroyed (mem w') = (destroyed (mem w) ++ ["a"; "b"])%list ∧
    ∀ v, objs w !! 0 = Some v →
      match data_ v with
      | nullptr => blocks (mem w') = blocks (mem w)
      | Loc b _ =>
          blocks (mem w') !! b = None ∧
          ∀ b', b' ≠ b → blocks (mem w') !! b' = blocks (mem w) !! b'
      end.
Proof.
  intros w.
  assert (holds 0 tt ["a"; "b"] 2%N w) as Hh by holds_by_evaluation.
  split; [exact Hh|].
  exact (destructor_releases_everything 0 tt ["a"; "b"] 2%N w Hh).
Defined.

(** X7: Vector 1 move-constructed from vector 0, which holds ["a"; "b"]. *)
Lemma move_constructor_takes_buffer_witness :
  let w : world string unit := (run [New_range 0 ["a"; "b"]] start).2 in
  let o := {| data_ := Loc 0 0; size_ := 2; capacity_ := 2; alloc_ := tt |} in
  objs w !! 0 = Some o ∧ objs w !! 1 = None ∧
  ∃ w', MyVector_move 1 0 w = (Ok tt, w') ∧
    mem w' = mem w ∧
    objs w' !! 1 = Some o ∧
    objs w' !! 0 = Some (mk nullptr 0 0 (alloc_ o)) ∧
    (∀ x, x ≠ 1 → x ≠ 0 → objs w' !! x = objs w !! x) ∧
    ∀ a (l : list string) cap, holds 0 a l cap w →
      holds 1 a l cap w' ∧ holds 0 a [] 0 w' ∧
      traverse (S (length l)) 1 w' = (Ok (Some l), w').
Proof.
  intros w o.
  assert (objs w !! 0 = Some o) as Ho by by vm_compute.
  assert (objs w !! 1 = None) as Hnew by by vm_compute.
  split_and!; [exact Ho|exact Hnew|].
  exact (move_constructor_takes_buffer 1 0 o w Ho Hnew).
Defined.

(** X8: Vector 0 holds ["a"; "b"] and vector 1 holds ["c"]. *)
Lemma swap_exchanges_contents_witness :
  let w : world string unit :=
    (run [New_range 0 ["a"; "b"]; New_range 1 ["c"]] start).2 in
  holds 0 tt ["a"; "b"] 2%N w ∧ holds 1 tt ["c"] 1%N w ∧ 0 ≠ 1 ∧
  (NDEBUG = true ∨ alloc_eqb tt tt = true) ∧
  ∃ w', swap 0 1 w = (Ok tt, w') ∧
    mem w' = mem w ∧
    holds 0 (if propagate_on_container_swap then tt else tt) ["c"] 1%N w' ∧
    holds 1 (if propagate_on_container_swap then tt else tt) ["a"; "b"] 2%N w' ∧
    (∀ x, x ≠ 0 → x ≠ 1 → objs w' !! x = objs w !! x) ∧
    traverse (S (length ["c"])) 0 w' = (Ok (Some ["c"]), w') ∧
    traverse (S (length ["a"; "b"])) 1 w' = (Ok (Some ["a"; "b"]), w') ∧
    (field data_ 0 w').1 = (field data_ 1 w).1 ∧
    (field data_ 1 w').1 = (field data_ 0 w).1.
Proof.
  intros w.
  assert (holds 0 tt ["a"; "b"] 2%N w) as Hh by holds_by_evaluation.
  assert (holds 1 tt ["c"] 1%N w) as Hh' by holds_by_evaluation.
  assert (0 ≠ 1) as Hne by lia.
  assert (NDEBUG = true ∨ alloc_eqb tt tt = true) as Hdbg
    by (right; reflexivity).
  split_and!; [exact Hh|exact Hh'|exact Hne|exact Hdbg|].
  exact (swap_exchanges_contents 0 1 tt tt ["a"; "b"] ["c"] 2%N 1%N w
           Hh Hh' Hne Hdbg).
Defined.

(** X9: The same two vectors, swapped twice. *)
Lemma swap_twice_restores_witness :
  let w : world string unit :=
    (run [New_range 0 ["a"; "b"]; New_range 1 ["c"]] start).2 in
  let vt := {| data_ := Loc 0 0; size_ := 2; capacity_ := 2; alloc_ := tt |} in
  let vo := {| data_ := Loc 1 0; size_ := 1; capacity_ := 1; alloc_ := tt |} in
  objs w !! 0 = Some vt ∧ objs w !! 1 = Some vo ∧ 0 ≠ 1 ∧
  (NDEBUG = true ∨
     (alloc_eqb (alloc_ vt) (alloc_ vo) = true ∧
      alloc_eqb (alloc_ vo) (alloc_ vt) = true)) ∧
  (swap 0 1;; swap 0 1) w = (Ok tt, w).
Proof.
  intros w vt vo.
  assert (objs w !! 0 = Some vt) as Hvt by by vm_compute.
  assert (objs w !! 1 = Some vo) as Hvo by by vm_compute.
  assert (0 ≠ 1) as Hne by lia.
  assert (NDEBUG = true ∨
            (alloc_eqb (alloc_ vt) (alloc_ vo) = true ∧
             alloc_eqb (alloc_ vo) (alloc_ vt) = true)) as Hdbg
    by (right; split; reflexivity).
  split_and!; [exact Hvt|exact Hvo|exact Hne|exact Hdbg|].
  exact (swap_twice_restores 0 1 vt vo w Hvt Hvo Hne Hdbg).
Defined.

(** X10: A vector holding ["a"; "b"; "c"]: its elements by index, its first
    and its last. *)
Lemma element_access_witness :
  let w : world string unit := (run [New_range 0 ["a"; "b"; "c"]] start).2 in
  holds 0 tt ["a"; "b"; "c"] 3%N w ∧
  (∀ k x, ["a"; "b"; "c"] !! k = Some x →
     ∃ p, subscript 0 (N.of_nat k) w = (Ok p, w) ∧
          at_ 0 (N.of_nat k) w = (Ok p, w) ∧
          load p w = (Ok x, w)) ∧
  (∀ x, head ["a"; "b"; "c"] = Some x →
     ∃ p, front 0 w = (Ok p, w) ∧
          data 0 w = (Ok p, w) ∧
          subscript 0 0%N w = (Ok p, w) ∧
          load p w = (Ok x, w)) ∧
  (∀ x, last ["a"; "b"; "c"] = Some x →
     ∃ p, back 0 w = (Ok p, w) ∧
          subscript 0 (N.of_nat (length ["a"; "b"; "c"] - 1)) w = (Ok p, w) ∧
          load p w = (Ok x, w)).
Proof.
  intros w.
  assert (holds 0 tt ["a"; "b"; "c"] 3%N w) as Hh by holds_by_evaluation.
  split; [exact Hh|].
  exact (element_access 0 tt ["a"; "b"; "c"] 3%N w Hh).
Defined.

(** X11: The iterators of a vector holding ["a"; "b"; "c"]. *)
Lemma iterator_span_witness :
  let w : world string unit := (run [New_range 0 ["a"; "b"; "c"]] start).2 in
  holds 0 tt ["a"; "b"; "c"] 3%N w ∧
  ∃ first last,
    begin 0 w = (Ok first, w) ∧ end_ 0 w = (Ok last, w) ∧
    iter_diff last first w = (Ok (Z.of_nat (length ["a"; "b"; "c"])), w) ∧
    (iter_eq first last = true ↔ ["a"; "b"; "c"] = []) ∧
    (∀ k, (k ≤ length ["a"; "b"; "c"])%nat →
       ∃ it, iter_plus first (Z.of_nat k) w = (Ok it, w) ∧
             iter_minus last (Z.of_nat (length ["a"; "b"; "c"] - k)) w
               = (Ok it, w) ∧
             iter_diff it first w = (Ok (Z.of_nat k), w)) ∧
    (∀ k x, ["a"; "b"; "c"] !! k = Some x →
       ∃ p, iter_index first (Z.of_nat k) w = (Ok p, w) ∧
            load p w = (Ok x, w)).
Proof.
  intros w.
  assert (holds 0 tt ["a"; "b"; "c"] 3%N w) as Hh by holds_by_evaluation.
  split; [exact Hh|].
  exact (iterator_span 0 tt ["a"; "b"; "c"] 3%N w Hh).
Defined.

(** X12: A vector of the faulty element type holding [1] with capacity 4,
    given the rvalue 13, whose move constructor throws. *)
Lemma push_back_throw_keeps_state_witness :
  let w : world nat unit :=
    (run [New_default 0; Reserve 0 4%N; Push_back 0 1] start).2 in
  holds 0 tt [1] 4%N w ∧ (N.of_nat (length [1]) < 4)%N ∧
  (if true then fst <$> move_construct 13 else copy_construct 13) = None ∧
  push_back_as true 0 13 w = (Throw element_error, w).
Proof.
  intros w.
  assert (holds 0 tt [1] 4%N w) as Hh by holds_by_evaluation.
  assert (N.of_nat (length [1]) < 4)%N as Hroom by by vm_compute.
  assert ((if true then fst <$> move_construct 13 else copy_construct 13)
          = None) as Hthrow by reflexivity.
  split_and!; [exact Hh|exact Hroom|exact Hthrow|].
  exact (push_back_throw_keeps_state true 0 tt [1] 4%N 13 w Hh Hroom Hthrow).
Defined.

(** X13: A full vector holding ["a"; "b"], given its own first element. *)
Lemma push_back_own_element_witness :
  let w : world string unit := (run [New_range 0 ["a"; "b"]] start).2 in
  holds 0 tt ["a"; "b"] 2%N w ∧ ["a"; "b"] !! 0 = Some "a" ∧
  ∃ p, subscript 0 (N.of_nat 0) w = (Ok p, w) ∧
    load p w = (Ok "a", w) ∧
    ((N.of_nat (length ["a"; "b"]) < 2)%N →
       ∃ w', push_back_ref 0 p w = (Ok tt, w') ∧
             holds 0 tt (["a"; "b"] ++ ["a"])%list 2%N w') ∧
    (N.of_nat (length ["a"; "b"]) = 2%N → (2 * 2 ≤ max_size_of tt)%N →
       (push_back_ref 0 p w).1 = Undefined).
Proof.
  intros w.
  assert (holds 0 tt ["a"; "b"] 2%N w) as Hh by holds_by_evaluation.
  assert (["a"; "b"] !! 0 = Some "a") as Hk by reflexivity.
  split_and!; [exact Hh|exact Hk|].
  exact (push_back_own_element 0 tt ["a"; "b"] 2%N 0 "a" w Hh Hk).
Defined.

(** X14: A vector holding ["a"; "b"], assigned its own range. *)
Lemma assing_own_range_undefined_witness :
  let w : world string unit := (run [New_range 0 ["a"; "b"]] start).2 in
  holds 0 tt ("a" :: ["b"]) 2%N w ∧
  ∃ first last,
    begin 0 w = (Ok first, w) ∧ end_ 0 w = (Ok last, w) ∧
    (assing_range (S 2) 0 first last w).1 = Undefined.
Proof.
  intros w.
  assert (holds 0 tt ("a" :: ["b"]) 2%N w) as Hh by holds_by_evaluation.
  split; [exact Hh|].
  exact (assing_own_range_undefined 0 tt "a" ["b"] 2%N 2 w Hh).
Defined.

(** X15: The range ["a"; "b"], in the starting state. *)
Lemma range_constructor_builds_witness :
  let w : world string unit := start in
  objs w !! 0 = None ∧
  (N.of_nat (length ["a"; "b"]) ≤ max_size_of tt)%N ∧
  Forall (λ x, copy_construct x = Some x) ["a"; "b"] ∧
  ∃ w', MyVector_range 0 ["a"; "b"] w = (Ok tt, w') ∧
    holds 0 tt ["a"; "b"] (N.of_nat (length ["a"; "b"])) w' ∧
    (∀ x, x ≠ 0 → objs w' !! x = objs w !! x) ∧
    (∀ b, b ≠ next_block (mem w) →
       blocks (mem w') !! b = blocks (mem w) !! b) ∧
    destroyed (mem w') = destroyed (mem w) ∧
    size 0 w' = (Ok (N.of_nat (length ["a"; "b"])), w') ∧
    capacity 0 w' = (Ok (N.of_nat (length ["a"; "b"])), w') ∧
    traverse (S (length ["a"; "b"])) 0 w' = (Ok (Some ["a"; "b"]), w').
Proof.
  intros w.
  assert (objs w !! 0 = None) as Hnew by by vm_compute.
  assert (N.of_nat (length ["a"; "b"]) ≤ max_size_of tt)%N as Hmax
    by by vm_compute.
  assert (Forall (λ x, copy_construct x = Some x) ["a"; "b"]) as Hok
    by (repeat constructor).
  split_and!; [exact Hnew|exact Hmax|exact Hok|].
  exact (range_constructor_builds 0 ["a"; "b"] w Hnew Hmax Hok).
Defined.

(** X16: The range [1; -1; 2] of the element type that cannot copy negative
    numbers. *)
Lemma range_constructor_failure_leaks_witness :
  let w : world Z unit := start in
  objs w !! 0 = None ∧
  (N.of_nat (length ([1%Z] ++ (-1)%Z :: [2%Z])%list) ≤ max_size_of tt)%N ∧
  Forall (λ y, copy_construct y = Some y) [1%Z] ∧
  copy_construct (-1)%Z = None ∧
  ∃ w', MyVector_range 0 ([1%Z] ++ (-1)%Z :: [2%Z])%list w
          = (Throw element_error, w') ∧
    objs w' = objs w ∧
    blocks (mem w') !! next_block (mem w) =
      Some ((Live <$> [1%Z]) ++ replicate (S (length [2%Z])) Raw)%list ∧
    next_block (mem w') = S (next_block (mem w)) ∧
    (∀ b, b ≠ next_block (mem w) →
       blocks (mem w') !! b = blocks (mem w) !! b) ∧
    destroyed (mem w') = destroyed (mem w).
Proof.
  intros w.
  assert (objs w !! 0 = None) as Hnew by by vm_compute.
  assert (N.of_nat (length ([1%Z] ++ (-1)%Z :: [2%Z])%list) ≤ max_size_of tt)%N
    as Hmax by by vm_compute.
  assert (Forall (λ y, copy_construct y = Some y) [1%Z]) as Hok
    by (repeat constructor).
  assert (copy_construct (-1)%Z = None) as Hx by reflexivity.
  split_and!; [exact Hnew|exact Hmax|exact Hok|exact Hx|].
  exact (range_constructor_failure_leaks 0 [1%Z] [2%Z] (-1)%Z w
           Hnew Hmax Hok Hx).
Defined.

(** X17: Three copies of "z", in the starting state. *)
Lemma sized_constructor_fills_witness :
  let w : world string unit := start in
  objs w !! 0 = None ∧ (3 ≤ max_size_of tt)%N ∧
  copy_construct "z" = Some "z" ∧
  ∃ w', MyVector_fill 0 3%N "z" w = (Ok tt, w') ∧
    holds 0 tt (replicate (N.to_nat 3) "z") 3%N w' ∧
    (∀ x, x ≠ 0 → objs w' !! x = objs w !! x) ∧
    size 0 w' = (Ok 3%N, w') ∧
    capacity 0 w' = (Ok 3%N, w') ∧
    (∀ i, (i < 3)%N → read_subscript 0 i w' = (Ok "z", w')) ∧
    traverse (S (N.to_nat 3)) 0 w' =
      (Ok (Some (replicate (N.to_nat 3) "z")), w').
Proof.
  intros w.
  assert (objs w !! 0 = None) as Hnew by by vm_compute.
  assert (3 ≤ max_size_of tt)%N as Hmax by by vm_compute.
  assert (copy_construct "z" = Some "z") as Hcopy by reflexivity.
  split_and!; [exact Hnew|exact Hmax|exact Hcopy|].
  exact (sized_constructor_fills 0 3%N "z" w Hnew Hmax Hcopy).
Defined.

(** X18: Three copies of "z", constructed and destroyed again. *)
Lemma sized_constructor_leaks_witness :
  let w : world string unit := start in
  objs w !! 0 = None ∧ (3 ≤ max_size_of tt)%N ∧
  copy_construct "z" = Some "z" ∧
  ∃ w' w'' b,
    MyVector_fill 0 3%N "z" w = (Ok tt, w') ∧
    MyVector_destroy 0 w' = (Ok tt, w'') ∧
    objs w'' = objs w ∧
    destroyed (mem w'') =
      (destroyed (mem w) ++ replicate (N.to_nat 3) "z")%list ∧
    (next_block (mem w) ≤ b)%nat ∧
    blocks (mem w'') !! b = Some (replicate (N.to_nat 3) Raw).
Proof.
  intros w.
  assert (objs w !! 0 = None) as Hnew by by vm_compute.
  assert (3 ≤ max_size_of tt)%N as Hmax by by vm_compute.
  assert (copy_construct "z" = Some "z") as Hcopy by reflexivity.
  split_and!; [exact Hnew|exact Hmax|exact Hcopy|].
  exact (sized_constructor_leaks 0 3%N "z" w Hnew Hmax Hcopy).
Defined.

(** X19: A vector holding ["a"; "b"], assigned the list ["x"; "y"; "z"]. *)
Lemma assing_list_replaces_witness :
  let w : world string unit := (run [New_range 0 ["a"; "b"]] start).2 in
  holds 0 tt ["a"; "b"] 2%N w ∧
  (2 * N.of_nat (length ["x"; "y"; "z"]) ≤ max_size_of tt)%N ∧
  ∃ w' cap', assing_list 0 ["x"; "y"; "z"] w = (Ok tt, w') ∧
    holds 0 tt ["x"; "y"; "z"] cap' w' ∧
    size 0 w' = (Ok (N.of_nat (length ["x"; "y"; "z"])), w') ∧
    (∀ i x, ["x"; "y"; "z"] !! i = Some x →
       read_subscript 0 (N.of_nat i) w' = (Ok x, w')) ∧
    traverse (S (length ["x"; "y"; "z"])) 0 w' =
      (Ok (Some ["x"; "y"; "z"]), w').
Proof.
  intros w.
  assert (holds 0 tt ["a"; "b"] 2%N w) as Hh by holds_by_evaluation.
  assert (2 * N.of_nat (length ["x"; "y"; "z"]) ≤ max_size_of tt)%N as Hmax
    by by vm_compute.
  split_and!; [exact Hh|exact Hmax|].
  exact (assing_list_replaces 0 tt ["a"; "b"] ["x"; "y"; "z"] 2%N w Hh Hmax).
Defined.

(** X20: A vector holding ["a"] with capacity 4. *)
Lemma shrink_to_fit_fits_witness :
  let w : world string unit :=
    (run [New_default 0; Reserve 0 4%N; Push_back 0 "a"] start).2 in
  holds 0 tt ["a"] 4%N w ∧
  (4%N ≠ N.of_nat (length ["a"]) →
   (N.of_nat (length ["a"]) ≤ max_size_of tt)%N) ∧
  ∃ w', shrink_to_fit 0 w = (Ok tt, w') ∧
    holds 0 tt ["a"] (N.of_nat (length ["a"])) w' ∧
    (4%N = N.of_nat (length ["a"]) → w' = w) ∧
    size 0 w' = (Ok (N.of_nat (length ["a"])), w') ∧
    capacity 0 w' = (Ok (N.of_nat (length ["a"])), w') ∧
    traverse (S (length ["a"])) 0 w' = (Ok (Some ["a"]), w') ∧
    shrink_to_fit 0 w' = (Ok tt, w').
Proof.
  intros w.
  assert (holds 0 tt ["a"] 4%N w) as Hh by holds_by_evaluation.
  assert (4%N ≠ N.of_nat (length ["a"]) →
          (N.of_nat (length ["a"]) ≤ max_size_of tt)%N) as Hmax
    by (intros _; by vm_compute).
  split_and!; [exact Hh|exact Hmax|].
  exact (shrink_to_fit_fits 0 tt ["a"] 4%N w Hh Hmax).
Defined.

(** X21: Vector 1 copy-constructed from vector 0, which holds ["a"] with
    capacity 4. *)
Lemma copy_constructor_copies_witness :
  let w : world string unit :=
    (run [New_default 0; Reserve 0 4%N; Push_back 0 "a"] start).2 in
  holds 0 tt ["a"] 4%N w ∧ objs w !! 1 = None ∧
  (4 ≤ max_size_of (select_on_container_copy_construction tt))%N ∧
  Forall (λ x, copy_construct x = Some x) ["a"] ∧
  ∃ w', MyVector_copy 1 0 w = (Ok tt, w') ∧
    holds 1 (select_on_container_copy_construction tt) ["a"] 4%N w' ∧
    holds 0 tt ["a"] 4%N w' ∧
    field data_ 1 w' =
      (Ok (if decide (4%N = 0%N) then nullptr
           else Loc (next_block (mem w)) 0), w') ∧
    (∀ x, x ≠ 1 → objs w' !! x = objs w !! x) ∧
    (∀ b, b ≠ next_block (mem w) →
       blocks (mem w') !! b = blocks (mem w) !! b) ∧
    destroyed (mem w') = destroyed (mem w) ∧
    capacity 1 w' = (Ok 4%N, w') ∧
    traverse (S (length ["a"])) 1 w' = (Ok (Some ["a"]), w') ∧
    traverse (S (length ["a"])) 0 w' = (Ok (Some ["a"]), w').
Proof.
  intros w.
  assert (holds 0 tt ["a"] 4%N w) as Hh by holds_by_evaluation.
  assert (objs w !! 1 = None) as Hnew by by vm_compute.
  assert (4 ≤ max_size_of (select_on_container_copy_construction tt))%N
    as Hmax by by vm_compute.
  assert (Forall (λ x, copy_construct x = Some x) ["a"]) as Hok
    by (repeat constructor).
  split_and!; [exact Hh|exact Hnew|exact Hmax|exact Hok|].
  exact (copy_constructor_copies 1 0 tt ["a"] 4%N w Hh Hnew Hmax Hok).
Defined.

(** X22: Vector 0 holds ["a"], vector 1 holds ["x"; "y"]: [v0 = v1]. *)
Lemma copy_assignment_copies_witness :
  let w : world string unit :=
    (run [New_range 0 ["a"]; New_range 1 ["x"; "y"]] start).2 in
  holds 0 tt ["a"] 1%N w ∧ holds 1 tt ["x"; "y"] 2%N w ∧
  0 ≠ 1 ∧ apart 0 1 w ∧
  (propagate_on_container_copy_assignment = true →
   alloc_eqb tt tt = true ∧ alloc_eqb tt tt = true) ∧
  ((1 < 2)%N →
   (2 ≤ max_size_of
          (if propagate_on_container_copy_assignment then tt else tt))%N) ∧
  Forall (λ x, copy_construct x = Some x) ["x"; "y"] ∧
  ∃ w', assign_copy 0 1 w = (Ok tt, w') ∧
    holds 0 (if propagate_on_container_copy_assignment then tt else tt)
      ["x"; "y"] (N.max 1 2) w' ∧
    holds 1 tt ["x"; "y"] 2%N w' ∧
    destroyed (mem w') = (destroyed (mem w) ++ ["a"])%list ∧
    size 0 w' = (Ok (N.of_nat (length ["x"; "y"])), w') ∧
    capacity 0 w' = (Ok (N.max 1 2), w') ∧
    traverse (S (length ["x"; "y"])) 0 w' = (Ok (Some ["x"; "y"]), w') ∧
    traverse (S (length ["x"; "y"])) 1 w' = (Ok (Some ["x"; "y"]), w').
Proof.
  intros w.
  assert (holds 0 tt ["a"] 1%N w) as Hh by holds_by_evaluation.
  assert (holds 1 tt ["x"; "y"] 2%N w) as Hh' by holds_by_evaluation.
  assert (0 ≠ 1) as Hne by lia.
  assert (apart 0 1 w) as Hapart.
  { intros vt vo b o o' Hvt Hvo Hd Hd'.
    vm_compute in Hvt. vm_compute in Hvo.
    injection Hvt as <-. injection Hvo as <-. simpl in Hd, Hd'.
    congruence. }
  assert (propagate_on_container_copy_assignment = true →
          alloc_eqb tt tt = true ∧ alloc_eqb tt tt = true) as Heq
    by (intros _; split; reflexivity).
  assert ((1 < 2)%N →
          (2 ≤ max_size_of
                 (if propagate_on_container_copy_assignment then tt else tt))%N)
    as Hmax by (intros _; by vm_compute).
  assert (Forall (λ x, copy_construct x = Some x) ["x"; "y"]) as Hok
    by (repeat constructor).
  split_and!;
    [exact Hh|exact Hh'|exact Hne|exact Hapart|exact Heq|exact Hmax|exact Hok|].
  exact (copy_assignment_copies 0 1 tt tt ["a"] ["x"; "y"] 1%N 2%N w
           Hh Hh' Hne Hapart Heq Hmax Hok).
Defined.

(** X23: A full vector holding ["a"; "b"], given "c". *)
Lemma push_back_growth_releases_buffer_witness :
  let w : world string unit := (run [New_range 0 ["a"; "b"]] start).2 in
  holds 0 tt ["a"; "b"] 2%N w ∧ N.of_nat (length ["a"; "b"]) = 2%N ∧
  (0 < 2)%N ∧ (2 * 2 ≤ max_size_of tt)%N ∧
  ∃ w' b, push_back_as false 0 "c" w = (Ok tt, w') ∧
    field data_ 0 w = (Ok (Loc b 0), w) ∧
    blocks (mem w') !! b = None ∧
    field data_ 0 w' = (Ok (Loc (next_block (mem w)) 0), w') ∧
    next_block (mem w') = S (next_block (mem w)) ∧
    holds 0 tt (["a"; "b"] ++ ["c"])%list (2 * 2)%N w'.
Proof.
  intros w.
  assert (holds 0 tt ["a"; "b"] 2%N w) as Hh by holds_by_evaluation.
  assert (N.of_nat (length ["a"; "b"]) = 2%N) as Hfull by reflexivity.
  assert (0 < 2)%N as Hpos by reflexivity.
  assert (2 * 2 ≤ max_size_of tt)%N as Hmax by by vm_compute.
  split_and!; [exact Hh|exact Hfull|exact Hpos|exact Hmax|].
  exact (push_back_growth_releases_buffer false 0 tt ["a"; "b"] 2%N "c" w
           Hh Hfull Hpos Hmax).
Defined.

(** X24: A state within the contract: a vector after one push_back. *)
Lemma capacity_bounded_witness :
  let w : world string unit :=
    (exec (Push_back 0 "a") (exec (New_default 0) start).2).2 in
  let v := {| data_ := Loc 0 0; size_ := 1; capacity_ := 1; alloc_ := tt |} in
  reachable_within_contract w ∧ objs w !! 0 = Some v ∧
  (capacity_ v ≤ PTRDIFF_MAX)%N ∧
  size_t (capacity_ v * 2) = (capacity_ v * 2)%N.
Proof.
  intros w v.
  assert (reachable_within_contract w) as Hr.
  { apply contract_call; [|done|by vm_compute].
    apply contract_call; [|done|by vm_compute]. apply contract_start. }
  assert (objs w !! 0 = Some v) as Hv by by vm_compute.
  split_and!; [exact Hr|exact Hv|..];
    apply (capacity_bounded w 0 v Hr Hv).
Defined.


End Concrete.
